(** * heredity.py: exact inference over a pedigree

    A shallow embedding of [Week 2 - Uncertainty/heredity/heredity.py].

    - Python numbers are kept abstract behind the interface [Arith]: the
      program only uses the int literals [0] and [1], decimal float
      literals, [+], [-], [*], [/] (which raises [ZeroDivisionError] on a
      zero divisor) and the builtin [sum].  Two kinds of instances are
      given: exact rationals ([Qc]) and IEEE binary64 (the kernel's
      primitive floats, which is what CPython's [float] is).
    - Python exceptions are values of [exn], carried by [result].
    - [people] and [probabilities] are dicts: association lists in
      insertion order, keyed by the person's name.
    - The dict literals with a fixed key set ({2, 1, 0} and {True, False})
      are records whose fields follow the insertion order of the literal,
      read and written by key.
    - A Python [set] is a duplicate-free list; the order in which a set is
      iterated is not fixed by the language, so it is a parameter
      ([SetOrder]). *)

From Stdlib Require Import List String Bool Arith ZArith Lia Permutation.
From Stdlib Require Import QArith Qcanon Field Lqa.
From Stdlib Require Import Floats.
Import ListNotations.

Set Implicit Arguments.
Close Scope Qc_scope.
Close Scope Q_scope.
Local Open Scope nat_scope.
Local Open Scope string_scope.
Local Open Scope list_scope.

(** ** Exceptions *)

Inductive exn : Type :=
| KeyError
| ZeroDivisionError.

Inductive result (A : Type) : Type :=
| Ok (a : A)
| Err (e : exn).

Arguments Ok {A} a.
Arguments Err {A} e.

Definition bind {A B : Type} (r : result A) (k : A -> result B) : result B :=
  match r with
  | Ok a => k a
  | Err e => Err e
  end.

Notation "x <- r ;; k" := (bind r (fun x => k))
  (at level 61, r at next level, right associativity).

(** [for x in xs: s = body(x, s)], stopping at the first exception. *)
Fixpoint for_each {A S : Type} (xs : list A) (body : A -> S -> result S) (s : S)
  : result S :=
  match xs with
  | [] => Ok s
  | x :: rest => s' <- body x s ;; for_each rest body s'
  end.

(** [[f(x) for x in xs]], stopping at the first exception. *)
Fixpoint map_result {A B : Type} (f : A -> result B) (xs : list A)
  : result (list B) :=
  match xs with
  | [] => Ok []
  | x :: rest => y <- f x ;; ys <- map_result f rest ;; Ok (y :: ys)
  end.

(** ** Numbers *)

Class Arith (T : Type) : Type := {
  (** a Python int used where a float is expected *)
  of_int : Z -> T;
  (** the decimal literal [m * 10^-d], e.g. [lit 96 2] is [0.96] *)
  lit : Z -> nat -> T;
  add : T -> T -> T;
  sub : T -> T -> T;
  mul : T -> T -> T;
  (** [y == 0], the test [/] makes before it divides *)
  is_zero : T -> bool;
  (** the quotient, for a divisor that is not zero *)
  quotient : T -> T -> T;
  (** the builtin [sum] (start value [0]) *)
  sum : list T -> T
}.

(** [x / y]. *)
Definition div {T : Type} {arith : Arith T} (x y : T) : result T :=
  if is_zero y then Err ZeroDivisionError else Ok (quotient x y).

(** *** Exact rationals *)

Definition Qc_lit (m : Z) (d : nat) : Qc :=
  Q2Qc (Qmake m (Z.to_pos (10 ^ Z.of_nat d))).

#[export] Instance exact : Arith Qc := {
  of_int := fun z => Q2Qc (inject_Z z);
  lit := Qc_lit;
  add := Qcplus;
  sub := Qcminus;
  mul := Qcmult;
  is_zero := fun y => Qc_eq_bool y (Q2Qc (inject_Z 0));
  quotient := Qcdiv;
  sum := fun xs => fold_left Qcplus xs (Q2Qc (inject_Z 0))
}.

(** *** IEEE binary64 *)

Definition float_of_Z (z : Z) : float :=
  match z with
  | Z0 => PrimFloat.of_uint63 (Uint63.of_Z 0)
  | Zpos _ => PrimFloat.of_uint63 (Uint63.of_Z z)
  | Zneg p => PrimFloat.opp (PrimFloat.of_uint63 (Uint63.of_Z (Zpos p)))
  end.

(** A decimal literal denotes the double nearest to it; for the short
    literals of this program that is the correctly rounded quotient of the
    two integers. *)
Definition float_lit (m : Z) (d : nat) : float :=
  PrimFloat.div (float_of_Z m) (float_of_Z (10 ^ Z.of_nat d)).

Definition float_is_zero (y : float) : bool :=
  PrimFloat.eqb y (float_of_Z 0).

(** [sum] up to CPython 3.11: plain left-to-right addition. *)
Definition float_sum (xs : list float) : float :=
  fold_left PrimFloat.add xs (float_of_Z 0).

(** [sum] since CPython 3.12: Neumaier's compensated summation. *)
Definition neumaier_step (st : float * float) (x : float) : float * float :=
  let '(f_result, c) := st in
  let t := PrimFloat.add f_result x in
  let c' :=
    if PrimFloat.leb (PrimFloat.abs x) (PrimFloat.abs f_result)
    then PrimFloat.add c (PrimFloat.add (PrimFloat.sub f_result t) x)
    else PrimFloat.add c (PrimFloat.add (PrimFloat.sub x t) f_result) in
  (t, c').

Definition float_is_finite (x : float) : bool :=
  PrimFloat.ltb (PrimFloat.abs x) PrimFloat.infinity.

Definition neumaier_sum (xs : list float) : float :=
  let '(f_result, c) := fold_left neumaier_step xs (float_of_Z 0, float_of_Z 0) in
  if negb (float_is_zero c) && float_is_finite c
  then PrimFloat.add f_result c
  else f_result.

Definition binary64 : Arith float := {|
  of_int := float_of_Z;
  lit := float_lit;
  add := PrimFloat.add;
  sub := PrimFloat.sub;
  mul := PrimFloat.mul;
  is_zero := float_is_zero;
  quotient := PrimFloat.div;
  sum := float_sum
|}.

Definition binary64_py312 : Arith float := {|
  of_int := float_of_Z;
  lit := float_lit;
  add := PrimFloat.add;
  sub := PrimFloat.sub;
  mul := PrimFloat.mul;
  is_zero := float_is_zero;
  quotient := PrimFloat.div;
  sum := neumaier_sum
|}.

(** ** Sets and dicts *)

Definition pyset : Type := list string.

(** [x in s] *)
Definition mem (x : string) (s : pyset) : bool :=
  existsb (String.eqb x) s.

(** [x in s] where [x] may be [None]: no set of names contains [None]. *)
Definition mem_opt (x : option string) (s : pyset) : bool :=
  match x with
  | Some n => mem n s
  | None => false
  end.

(** [s - t] *)
Definition set_diff (s t : pyset) : pyset :=
  filter (fun x => negb (mem x t)) s.

(** The order in which a set hands out its elements. *)
Class SetOrder : Type := {
  iter : pyset -> list string;
  iter_perm : forall s, Permutation s (iter s)
}.

Definition insertion_order : SetOrder :=
  {| iter := fun s => s; iter_perm := fun s => Permutation_refl s |}.

Definition dict (V : Type) : Type := list (string * V).

(** [d[k]] *)
Fixpoint dict_get {V : Type} (d : dict V) (k : string) : result V :=
  match d with
  | [] => Err KeyError
  | (k', v) :: rest => if String.eqb k k' then Ok v else dict_get rest k
  end.

(** [d[k] = v]: an existing key keeps its place, a new one goes last. *)
Fixpoint dict_set {V : Type} (d : dict V) (k : string) (v : V) : dict V :=
  match d with
  | [] => [(k, v)]
  | (k', v') :: rest =>
      if String.eqb k k' then (k', v) :: rest else (k', v') :: dict_set rest k v
  end.

Definition keys {V : Type} (d : dict V) : list string := map fst d.

(** ** The dict literals with fixed keys *)

(** [{2: _, 1: _, 0: _}] *)
Record by_genes (A : Type) : Type := ByGenes {
  two : A;
  one : A;
  zero : A
}.

(** [{True: _, False: _}] *)
Record by_trait (A : Type) : Type := ByTrait {
  yes : A;
  no : A
}.

Definition genes_get {A : Type} (t : by_genes A) (genes : nat) : result A :=
  match genes with
  | 2 => Ok (two t)
  | 1 => Ok (one t)
  | 0 => Ok (zero t)
  | _ => Err KeyError
  end.

Definition genes_set {A : Type} (t : by_genes A) (genes : nat) (a : A)
  : result (by_genes A) :=
  match genes with
  | 2 => Ok (ByGenes a (one t) (zero t))
  | 1 => Ok (ByGenes (two t) a (zero t))
  | 0 => Ok (ByGenes (two t) (one t) a)
  | _ => Err KeyError
  end.

Definition genes_values {A : Type} (t : by_genes A) : list A :=
  [two t; one t; zero t].

Definition trait_get {A : Type} (t : by_trait A) (trait : bool) : A :=
  if trait then yes t else no t.

Definition trait_set {A : Type} (t : by_trait A) (trait : bool) (a : A)
  : by_trait A :=
  if trait then ByTrait a (no t) else ByTrait (yes t) a.

Definition trait_values {A : Type} (t : by_trait A) : list A :=
  [yes t; no t].

(** ** People *)

Record person : Type := Person {
  name : string;
  mother : option string;
  father : option string;
  trait : option bool
}.

(** One entry of [probabilities]. *)
Record dist (T : Type) : Type := Dist {
  dist_gene : by_genes T;
  dist_trait : by_trait T
}.

Section Program.

Context {T : Type} {arith : Arith T}.

Record probs_table : Type := ProbsTable {
  PROBS_gene : by_genes T;
  PROBS_trait : by_genes (by_trait T);
  PROBS_mutation : T
}.

Definition PROBS : probs_table := {|
  PROBS_gene := ByGenes (lit 1 2) (lit 3 2) (lit 96 2);
  PROBS_trait :=
    ByGenes (ByTrait (lit 65 2) (lit 35 2))
            (ByTrait (lit 56 2) (lit 44 2))
            (ByTrait (lit 1 2) (lit 99 2));
  PROBS_mutation := lit 1 2
|}.

(** [2 if x in two_genes else 1 if x in one_gene else 0] *)
Definition genes_of (one_gene two_genes : pyset) (x : option string) : nat :=
  if mem_opt x two_genes then 2
  else if mem_opt x one_gene then 1
  else 0.

Definition get_gene_prob (parent_genes : nat) (is_mutation : bool) : T :=
  if Nat.eqb parent_genes 2 then
    if negb is_mutation then sub (of_int 1) (PROBS_mutation PROBS)
    else PROBS_mutation PROBS
  else if Nat.eqb parent_genes 1 then
    lit 5 1
  else
    if negb is_mutation then PROBS_mutation PROBS
    else sub (of_int 1) (PROBS_mutation PROBS).

Definition is_none {A : Type} (o : option A) : bool :=
  match o with
  | None => true
  | Some _ => false
  end.

(** The value bound to [gene_prob] in one round of the loop of
    [joint_probability]. *)
Definition gene_prob (one_gene two_genes : pyset) (who : string) (p : person)
  : result T :=
  let genes := genes_of one_gene two_genes (Some who) in
  if is_none (mother p) && is_none (father p) then
    genes_get (PROBS_gene PROBS) genes
  else
    let mother_genes := genes_of one_gene two_genes (mother p) in
    let father_genes := genes_of one_gene two_genes (father p) in
    if Nat.eqb genes 2 then
      Ok (mul (get_gene_prob mother_genes false) (get_gene_prob father_genes false))
    else if Nat.eqb genes 1 then
      Ok (add (mul (get_gene_prob mother_genes false) (get_gene_prob father_genes true))
              (mul (get_gene_prob mother_genes true) (get_gene_prob father_genes false)))
    else
      Ok (mul (get_gene_prob mother_genes true) (get_gene_prob father_genes true)).

(** One round of the loop of [joint_probability]: [entry] is a key
    [person] of [people] together with [people[person]]. *)
Definition joint_step (one_gene two_genes have_trait : pyset)
    (entry : string * person) (probability : T) : result T :=
  let '(who, p) := entry in
  let genes := genes_of one_gene two_genes (Some who) in
  let trait := mem who have_trait in
  gp <- gene_prob one_gene two_genes who p ;;
  row <- genes_get (PROBS_trait PROBS) genes ;;
  let trait_prob := trait_get row trait in
  Ok (mul probability (mul gp trait_prob)).

Definition joint_probability (people : dict person)
    (one_gene two_genes have_trait : pyset) : result T :=
  for_each people (joint_step one_gene two_genes have_trait) (of_int 1).

(** [update]: every entry of [probabilities] gets [p] added to the slot of
    its gene count and to the slot of its trait value. *)
Definition update_entry (one_gene two_genes have_trait : pyset) (p : T)
    (entry : string * dist T) : result (string * dist T) :=
  let '(who, d) := entry in
  let genes := genes_of one_gene two_genes (Some who) in
  let trait := mem who have_trait in
  old <- genes_get (dist_gene d) genes ;;
  gene' <- genes_set (dist_gene d) genes (add old p) ;;
  let trait' :=
    trait_set (dist_trait d) trait (add (trait_get (dist_trait d) trait) p) in
  Ok (who, Dist gene' trait').

Definition update (probabilities : dict (dist T))
    (one_gene two_genes have_trait : pyset) (p : T) : result (dict (dist T)) :=
  map_result (update_entry one_gene two_genes have_trait p) probabilities.

Definition gene_total (d : dist T) : T := sum (genes_values (dist_gene d)).
Definition trait_total (d : dist T) : T := sum (trait_values (dist_trait d)).

(** [normalize]: both totals are taken first, then the three gene slots
    and the two trait slots are divided in the order of their keys. *)
Definition normalize_entry (entry : string * dist T) : result (string * dist T) :=
  let '(who, d) := entry in
  let gene_total := gene_total d in
  let trait_total := trait_total d in
  g2 <- div (two (dist_gene d)) gene_total ;;
  g1 <- div (one (dist_gene d)) gene_total ;;
  g0 <- div (zero (dist_gene d)) gene_total ;;
  t1 <- div (yes (dist_trait d)) trait_total ;;
  t0 <- div (no (dist_trait d)) trait_total ;;
  Ok (who, Dist (ByGenes g2 g1 g0) (ByTrait t1 t0)).

Definition normalize (probabilities : dict (dist T)) : result (dict (dist T)) :=
  map_result normalize_entry probabilities.

End Program.

(** ** Enumeration *)

(** [itertools.combinations(s, r)] *)
Fixpoint combinations {A : Type} (s : list A) (r : nat) : list (list A) :=
  match r with
  | 0 => [[]]
  | S r' =>
      match s with
      | [] => []
      | x :: rest => map (cons x) (combinations rest r') ++ combinations rest r
      end
  end.

Section Main.

Context {T : Type} {arith : Arith T} {order : SetOrder}.

Definition powerset (s : pyset) : list pyset :=
  let s := iter s in
  flat_map (combinations s) (seq 0 (List.length s + 1)).

(** The [any(...)] of [main]: some person's observed trait differs from
    what [have_trait] says.  [names] is the set of the keys of [people],
    so the generator ranges over the entries of [people]; the value of
    [any] does not depend on the order in which they come. *)
Definition fails_evidence (people : dict person) (have_trait : pyset) : bool :=
  existsb
    (fun entry : string * person =>
       match trait (snd entry) with
       | Some t => negb (Bool.eqb t (mem (fst entry) have_trait))
       | None => false
       end)
    people.

(** The dict comprehension of [main]. *)
Definition initial (people : dict person) : dict (dist T) :=
  map (fun entry : string * person =>
         (fst entry,
          Dist (ByGenes (of_int 0) (of_int 0) (of_int 0))
               (ByTrait (of_int 0) (of_int 0))))
      people.

(** The body of the innermost loop of [main]. *)
Definition accumulate_one (people : dict person)
    (have_trait one_gene two_genes : pyset) (probabilities : dict (dist T))
  : result (dict (dist T)) :=
  p <- joint_probability people one_gene two_genes have_trait ;;
  update probabilities one_gene two_genes have_trait p.

(** The three nested loops of [main]. *)
Definition accumulate (people : dict person) : result (dict (dist T)) :=
  let names := keys people in
  for_each (powerset names)
    (fun have_trait probabilities =>
       if fails_evidence people have_trait then Ok probabilities
       else
         for_each (powerset names)
           (fun one_gene probabilities =>
              for_each (powerset (set_diff names one_gene))
                (fun two_genes probabilities =>
                   accumulate_one people have_trait one_gene two_genes probabilities)
                probabilities)
           probabilities)
    (initial people).

(** [main] between loading and printing. *)
Definition main (people : dict person) : result (dict (dist T)) :=
  probabilities <- accumulate people ;;
  normalize probabilities.

End Main.

(** The (have_trait, one_gene, two_genes) triples on which the innermost
    loop body of [main] runs, in order. *)
Definition hypotheses {order : SetOrder} (people : dict person)
  : list (pyset * pyset * pyset) :=
  let names := keys people in
  flat_map
    (fun have_trait =>
       if fails_evidence people have_trait then []
       else
         flat_map
           (fun one_gene =>
              map (fun two_genes => (have_trait, one_gene, two_genes))
                  (powerset (set_diff names one_gene)))
           (powerset names))
    (powerset names).

(** ** Loading *)

(** [s or None] *)
Definition or_none (s : string) : option string :=
  if String.eqb s "" then None else Some s.

Definition parse_trait (s : string) : option bool :=
  if String.eqb s "1" then Some true
  else if String.eqb s "0" then Some false
  else None.

(** One round of the loop of [load_data]; [row] is what [csv.DictReader]
    hands out, a dict from column names to strings. *)
Definition load_row (row : dict string) (data : dict person)
  : result (dict person) :=
  name <- dict_get row "name" ;;
  mother <- dict_get row "mother" ;;
  father <- dict_get row "father" ;;
  trait <- dict_get row "trait" ;;
  Ok (dict_set data name
        (Person name (or_none mother) (or_none father) (parse_trait trait))).

Definition load_data (rows : list (dict string)) : result (dict person) :=
  for_each rows load_row [].

(** ** The program *)

(** How a run of the program ends. *)
Inductive ending : Type :=
| Returned                    (* [main] returns *)
| Exited (message : string)   (* [sys.exit(message)] *)
| Raised (e : exn)            (* an exception of the computation, uncaught *)
| NoSuchFile.                 (* [open] raises *)

Section Report.

Context {T : Type} {arith : Arith T}.

(** [f"{p:.4f}"] *)
Variable format4 : T -> string.

(** The lines printed for one person after the line with the name. *)
Definition report_fields (d : dist T) : list string :=
  [ "  Gene:";
    ("    2: " ++ format4 (two (dist_gene d)))%string;
    ("    1: " ++ format4 (one (dist_gene d)))%string;
    ("    0: " ++ format4 (zero (dist_gene d)))%string;
    "  Trait:";
    ("    True: " ++ format4 (yes (dist_trait d)))%string;
    ("    False: " ++ format4 (no (dist_trait d)))%string ].

(** The printing loop of [main]: the lines written, and the exception
    that stopped it, if any. *)
Fixpoint report (names : list string) (probabilities : dict (dist T))
  : list string * option exn :=
  match names with
  | [] => ([], None)
  | person :: rest =>
      let head := (person ++ ":")%string in
      match dict_get probabilities person with
      | Err e => ([head], Some e)
      | Ok d =>
          let '(more, stopped) := report rest probabilities in
          (head :: report_fields d ++ more, stopped)
      end
  end.

End Report.

(** The whole of [main]: [argv] is [sys.argv], [read_csv path] is the list
    of rows that [csv.DictReader] yields for the file at [path], or [None]
    when the file cannot be opened.  The result is what was printed and
    how the run ended. *)
Definition main_program {T : Type} {arith : Arith T} {order : SetOrder}
    (format4 : T -> string)
    (read_csv : string -> option (list (dict string)))
    (argv : list string) : list string * ending :=
  if negb (Nat.eqb (List.length argv) 2) then
    ([], Exited "Usage: python heredity.py data.csv")
  else
    match read_csv (nth 1 argv "") with
    | None => ([], NoSuchFile)
    | Some rows =>
        match load_data rows with
        | Err e => ([], Raised e)
        | Ok people =>
            match main people with
            | Err e => ([], Raised e)
            | Ok probabilities =>
                let '(lines, stopped) :=
                  report format4 (keys people) probabilities in
                (lines,
                 match stopped with
                 | None => Returned
                 | Some e => Raised e
                 end)
            end
        end
    end.

(** ** Populations and statements used below *)

(** A single founder whose trait is not observed. *)
Definition harry : dict person :=
  [("Harry", Person "Harry" None None None)].

(** A child whose recorded parents are not in the population. *)
Definition orphan : dict person :=
  [("Child", Person "Child" (Some "Ghost") (Some "Nobody") None)].

(** A single founder observed with the trait. *)
Definition harry_with_trait : dict person :=
  [("Harry", Person "Harry" None None (Some true))].

(** The family of the course's [family0.csv]. *)
Definition family0 : dict person :=
  [("Harry", Person "Harry" (Some "Lily") (Some "James") None);
   ("James", Person "James" None None (Some true));
   ("Lily", Person "Lily" None None (Some false))].

(** The total weight of the hypotheses that [main] enumerates. *)
Definition evidence_mass {T : Type} {arith : Arith T} {order : SetOrder}
    (people : dict person) : result T :=
  for_each (hypotheses people)
    (fun h mass =>
       let '(have_trait, one_gene, two_genes) := h in
       p <- joint_probability people one_gene two_genes have_trait ;;
       Ok (add mass p))
    (of_int 0).

(** Every entry has gene total and trait total equal to [mass]. *)
Definition balanced {T : Type} {arith : Arith T} (mass : T)
    (probabilities : dict (dist T)) : Prop :=
  forall who d, In (who, d) probabilities ->
    gene_total d = mass /\ trait_total d = mass.

(** What one call of [update] does to the slots of an entry. *)
Definition slots_updated {T : Type} {arith : Arith T}
    (one_gene two_genes have_trait : pyset) (p : T)
    (before after : string * dist T) : Prop :=
  let genes := genes_of one_gene two_genes (Some (fst before)) in
  let trait := mem (fst before) have_trait in
  fst after = fst before /\
  (exists old, genes_get (dist_gene (snd before)) genes = Ok old /\
               genes_get (dist_gene (snd after)) genes = Ok (add old p)) /\
  (forall g, g <> genes ->
     genes_get (dist_gene (snd after)) g = genes_get (dist_gene (snd before)) g) /\
  trait_get (dist_trait (snd after)) trait =
    add (trait_get (dist_trait (snd before)) trait) p /\
  trait_get (dist_trait (snd after)) (negb trait) =
    trait_get (dist_trait (snd before)) (negb trait).

(** Both totals of an entry grew by [p]. *)
Definition totals_grow {T : Type} {arith : Arith T} (p : T)
    (before after : string * dist T) : Prop :=
  gene_total (snd after) = add (gene_total (snd before)) p /\
  trait_total (snd after) = add (trait_total (snd before)) p.

(** The rational number that a finite double stands for. *)
Definition float_to_Q (x : float) : Q :=
  match Prim2SF x with
  | S754_finite s m e =>
      Qmult (Qmake (if s then Zneg m else Zpos m) 1) (Qpower (Qmake 2 1) e)
  | _ => Qmake 0 1
  end.

(** A double that carries no minus sign: [+0.0], a positive number,
    [+inf], or a NaN. *)
Definition float_unsigned (x : float) : Prop :=
  match Prim2SF x with
  | S754_zero s | S754_infinity s | S754_finite s _ _ => s = false
  | S754_nan => True
  end.

(** A positive finite double. *)
Definition float_positive (x : float) : Prop :=
  exists m e, Prim2SF x = S754_finite false m e.

(** The sum, without rounding, of the numbers that a list of doubles
    stands for. *)
Definition unrounded_sum (xs : list float) : Q :=
  fold_left Qplus (map float_to_Q xs) (Qmake 0 1).

(** [who] is recorded with an observed trait of [True]. *)
Definition observed_true (people : dict person) (who : string) : bool :=
  match dict_get people who with
  | Ok p => match trait p with Some true => true | _ => false end
  | Err _ => false
  end.

(** What [normalize] leaves of an entry whose totals are both [mass]. *)
Definition scaled {T : Type} {arith : Arith T} (mass : T)
    (before after : string * dist T) : Prop :=
  fst after = fst before /\
  snd after =
    Dist (ByGenes (quotient (two (dist_gene (snd before))) mass)
                  (quotient (one (dist_gene (snd before))) mass)
                  (quotient (zero (dist_gene (snd before))) mass))
         (ByTrait (quotient (yes (dist_trait (snd before))) mass)
                  (quotient (no (dist_trait (snd before))) mass)).

(** [t] keeps some of the elements of [s], in the order of [s]. *)
Inductive subseq {A : Type} : list A -> list A -> Prop :=
| subseq_nil : subseq [] []
| subseq_take (x : A) (t s : list A) : subseq t s -> subseq (x :: t) (x :: s)
| subseq_skip (x : A) (t s : list A) : subseq t s -> subseq t (x :: s).

(** All the subsequences of a list, by including or leaving out its first
    element. *)
Fixpoint subsequences {A : Type} (s : list A) : list (list A) :=
  match s with
  | [] => [[]]
  | x :: rest => map (cons x) (subsequences rest) ++ subsequences rest
  end.

(** Two lists hold the same set. *)
Definition same_members (s t : pyset) : Prop :=
  forall x, In x s <-> In x t.

(** What [normalize] makes of an entry: every slot divided by the total
    of its own table. *)
Definition normalized_from {T : Type} {arith : Arith T}
    (before after : string * dist T) : Prop :=
  fst after = fst before /\
  snd after =
    Dist (ByGenes (quotient (two (dist_gene (snd before))) (gene_total (snd before)))
                  (quotient (one (dist_gene (snd before))) (gene_total (snd before)))
                  (quotient (zero (dist_gene (snd before))) (gene_total (snd before))))
         (ByTrait (quotient (yes (dist_trait (snd before))) (trait_total (snd before)))
                  (quotient (no (dist_trait (snd before))) (trait_total (snd before)))).

(** ** Sums of weights *)

(** The sum of a list of rationals. *)
Definition Qc_sum (ws : list Qc) : Qc := fold_right Qcplus (Q2Qc (Qmake 0 1)) ws.

(** The joint probability of a hypothesis, as a number. *)
Definition weight (people : dict person) (h : pyset * pyset * pyset) : Qc :=
  let '(have_trait, one_gene, two_genes) := h in
  match joint_probability (arith := exact) people one_gene two_genes have_trait with
  | Ok p => p
  | Err _ => Q2Qc (Qmake 0 1)
  end.

(** The weight of [h] if it gives [who] the gene count [genes], else 0. *)
Definition gene_share (people : dict person) (who : string) (genes : nat)
    (h : pyset * pyset * pyset) : Qc :=
  let '(have_trait, one_gene, two_genes) := h in
  if Nat.eqb (genes_of one_gene two_genes (Some who)) genes
  then weight people h else Q2Qc (Qmake 0 1).

(** The weight of [h] if it gives [who] the trait value [b], else 0. *)
Definition trait_share (people : dict person) (who : string) (b : bool)
    (h : pyset * pyset * pyset) : Qc :=
  let '(have_trait, one_gene, two_genes) := h in
  if Bool.eqb (mem who have_trait) b
  then weight people h else Q2Qc (Qmake 0 1).

(** The table whose slots are those of [probabilities] plus, for each
    person, the shares of the hypotheses [hs]. *)
Definition plus_shares (people : dict person) (hs : list (pyset * pyset * pyset))
    (probabilities : dict (dist Qc)) : dict (dist Qc) :=
  map (fun entry : string * dist Qc =>
         let who := fst entry in
         let d := snd entry in
         (who,
          Dist (ByGenes
                  (Qcplus (two (dist_gene d))
                          (Qc_sum (map (gene_share people who 2) hs)))
                  (Qcplus (one (dist_gene d))
                          (Qc_sum (map (gene_share people who 1) hs)))
                  (Qcplus (zero (dist_gene d))
                          (Qc_sum (map (gene_share people who 0) hs))))
               (ByTrait
                  (Qcplus (yes (dist_trait d))
                          (Qc_sum (map (trait_share people who true) hs)))
                  (Qcplus (no (dist_trait d))
                          (Qc_sum (map (trait_share people who false) hs))))))
      probabilities.

(** Componentwise the same sets. *)
Definition same_hypothesis (h h' : pyset * pyset * pyset) : Prop :=
  same_members (fst (fst h)) (fst (fst h')) /\
  same_members (snd (fst h)) (snd (fst h')) /\
  same_members (snd h) (snd h').

(** The sum of [G] over the hypotheses that agree with the evidence,
    written without any iteration order. *)
Definition sum_over_hypotheses (people : dict person)
    (G : pyset * pyset * pyset -> Qc) : Qc :=
  Qc_sum
    (map (fun ht =>
            if fails_evidence people ht then Q2Qc (Qmake 0 1)
            else
              Qc_sum
                (map (fun og =>
                        Qc_sum
                          (map (fun tg => G (ht, og, tg))
                               (subsequences (set_diff (keys people) og))))
                     (subsequences (keys people))))
         (subsequences (keys people))).

(** A row of the data file with its four columns. *)
Definition row_of (name mother father trait : string) : dict string :=
  [("name", name); ("mother", mother); ("father", father); ("trait", trait)].

Definition has_columns (row : dict string) : Prop :=
  exists n m f t,
    dict_get row "name" = Ok n /\ dict_get row "mother" = Ok m /\
    dict_get row "father" = Ok f /\ dict_get row "trait" = Ok t.

(** Where an entry of the loaded data comes from. *)
Definition loaded_from (rows : list (dict string)) (entry : string * person) : Prop :=
  exists row t,
    In row rows /\
    dict_get row "name" = Ok (fst entry) /\
    dict_get row "trait" = Ok t /\
    trait (snd entry) = parse_trait t.

(** * Properties *)

(** ** The loops *)

Lemma for_each_app {A S : Type} (xs ys : list A) (body : A -> S -> result S) s :
  for_each (xs ++ ys) body s = s' <- for_each xs body s ;; for_each ys body s'.
Proof.
  revert s; induction xs as [|x xs IH]; intros s; simpl; trivial.
  destruct (body x s) as [s1|e]; simpl; auto.
Qed.

Lemma for_each_ext {A S : Type} (xs : list A) (f g : A -> S -> result S) s :
  (forall x s, In x xs -> f x s = g x s) ->
  for_each xs f s = for_each xs g s.
Proof.
  revert s; induction xs as [|x xs IH]; intros s E; simpl; trivial.
  rewrite E by (left; trivial).
  destruct (g x s) as [s1|e]; simpl; trivial.
  apply IH; intros; apply E; right; trivial.
Qed.

Lemma for_each_flat_map {A B S : Type} (f : A -> list B) (xs : list A)
    (body : B -> S -> result S) s :
  for_each (flat_map f xs) body s =
  for_each xs (fun x s => for_each (f x) body s) s.
Proof.
  revert s; induction xs as [|x xs IH]; intros s; simpl; trivial.
  rewrite for_each_app.
  destruct (for_each (f x) body s) as [s1|e]; simpl; auto.
Qed.

Lemma for_each_map {A B S : Type} (f : A -> B) (xs : list A)
    (body : B -> S -> result S) s :
  for_each (map f xs) body s = for_each xs (fun x => body (f x)) s.
Proof.
  revert s; induction xs as [|x xs IH]; intros s; simpl; trivial.
  destruct (body (f x) s) as [s1|e]; simpl; auto.
Qed.

(** The nested loops of [main] run their body once per element of
    [hypotheses], in that order. *)
Lemma accumulate_hypotheses {T : Type} {arith : Arith T} {order : SetOrder}
    (people : dict person) :
  accumulate people =
  for_each (hypotheses people)
    (fun h probabilities =>
       let '(have_trait, one_gene, two_genes) := h in
       accumulate_one people have_trait one_gene two_genes probabilities)
    (initial people).
Proof.
  unfold accumulate, hypotheses.
  rewrite for_each_flat_map.
  apply for_each_ext; intros have_trait s _.
  destruct (fails_evidence people have_trait); simpl; trivial.
  rewrite for_each_flat_map.
  apply for_each_ext; intros one_gene s' _.
  rewrite for_each_map; trivial.
Qed.

(** ** Gene counts *)

Section Generic.

Context {T : Type} {arith : Arith T}.

Lemma genes_of_range (one_gene two_genes : pyset) (x : option string) :
  genes_of one_gene two_genes x = 0 \/
  genes_of one_gene two_genes x = 1 \/
  genes_of one_gene two_genes x = 2.
Proof.
  unfold genes_of.
  destruct (mem_opt x two_genes); auto.
  destruct (mem_opt x one_gene); auto.
Qed.

Lemma gene_prob_ok (one_gene two_genes : pyset) (who : string) (p : person) :
  exists gp : T, gene_prob one_gene two_genes who p = Ok gp.
Proof.
  unfold gene_prob.
  destruct (is_none (mother p) && is_none (father p)).
  - destruct (genes_of_range one_gene two_genes (Some who)) as [E|[E|E]];
      rewrite E; simpl; eauto.
  - destruct (Nat.eqb _ 2); eauto.
    destruct (Nat.eqb _ 1); eauto.
Qed.

Lemma joint_step_ok (one_gene two_genes have_trait : pyset)
    (entry : string * person) (acc : T) :
  exists gp tp,
    gene_prob one_gene two_genes (fst entry) (snd entry) = Ok gp /\
    genes_get (PROBS_trait PROBS) (genes_of one_gene two_genes (Some (fst entry)))
      = Ok tp /\
    joint_step one_gene two_genes have_trait entry acc =
      Ok (mul acc (mul gp (trait_get tp (mem (fst entry) have_trait)))).
Proof.
  destruct entry as [who p]; simpl.
  destruct (gene_prob_ok one_gene two_genes who p) as [gp Egp].
  rewrite Egp; simpl.
  destruct (genes_of_range one_gene two_genes (Some who)) as [E|[E|E]];
    rewrite E; simpl; eauto.
Qed.

Lemma joint_loop_ok (one_gene two_genes have_trait : pyset)
    (people : dict person) (acc : T) :
  exists p,
    for_each people (joint_step one_gene two_genes have_trait) acc = Ok p.
Proof.
  revert acc; induction people as [|entry people IH]; intros acc; simpl; eauto.
  destruct (joint_step_ok one_gene two_genes have_trait entry acc)
    as (gp & tp & _ & _ & E).
  rewrite E; simpl; apply IH.
Qed.

Lemma joint_probability_ok (people : dict person)
    (one_gene two_genes have_trait : pyset) :
  exists p, joint_probability people one_gene two_genes have_trait = Ok p.
Proof. apply joint_loop_ok. Qed.

End Generic.

(** The rounds of [joint_probability] that come before a person leave a
    running product, and the rounds after it go on from what the
    person's round makes of it. *)
Lemma joint_probability_round {T : Type} {arith : Arith T}
    (before after : dict person) (who : string) (p : person)
    (one_gene two_genes have_trait : pyset) (factor : T) :
  (forall acc, joint_step one_gene two_genes have_trait (who, p) acc
               = Ok (mul acc factor)) ->
  exists acc,
    joint_probability before one_gene two_genes have_trait = Ok acc /\
    joint_probability (before ++ [(who, p)]) one_gene two_genes have_trait
      = Ok (mul acc factor) /\
    joint_probability (before ++ (who, p) :: after) one_gene two_genes have_trait
      = for_each after (joint_step one_gene two_genes have_trait) (mul acc factor).
Proof.
  intros Hstep.
  destruct (joint_probability_ok (T := T) before one_gene two_genes have_trait)
    as [acc Eacc].
  exists acc; split; [exact Eacc|].
  unfold joint_probability in *.
  rewrite !for_each_app, Eacc; cbn [bind for_each].
  rewrite Hstep; cbn [bind]; split; reflexivity.
Qed.

(** C5. For a founder (mother and father both [None]), wherever the person
    stands in [people], the round of [joint_probability] for that person
    multiplies the running product by the entry of the prior table for
    the person's gene count (0.96 for 0 copies, 0.03 for 1 copy, 0.01 for
    2 copies) times the trait probability for that count; the value
    [joint_probability] returns is what the remaining rounds make of that
    product. *)
Theorem founder_gene_prob_is_prior {T : Type} {arith : Arith T}
    (before after : dict person) (who : string) (p : person)
    (one_gene two_genes have_trait : pyset) :
  mother p = None -> father p = None ->
  let genes := genes_of one_gene two_genes (Some who) in
  let prior :=
    match genes with
    | 0 => lit 96 2
    | 1 => lit 3 2
    | _ => lit 1 2
    end in
  genes <= 2 /\
  exists acc row,
    joint_probability before one_gene two_genes have_trait = Ok acc /\
    genes_get (PROBS_trait PROBS) genes = Ok row /\
    joint_probability (before ++ [(who, p)]) one_gene two_genes have_trait
      = Ok (mul acc (mul prior (trait_get row (mem who have_trait)))) /\
    joint_probability (before ++ (who, p) :: after) one_gene two_genes have_trait
      = for_each after (joint_step one_gene two_genes have_trait)
          (mul acc (mul prior (trait_get row (mem who have_trait)))).
Proof.
  intros Hm Hf genes prior.
  assert (Hg : genes <= 2).
  { destruct (genes_of_range one_gene two_genes (Some who)) as [E|[E|E]];
      unfold genes; rewrite E; auto. }
  split; [exact Hg|].
  assert (Hrow : exists row, genes_get (PROBS_trait (T := T) PROBS) genes = Ok row).
  { destruct genes as [|[|[|g]]]; simpl; eauto.
    exfalso; apply (Nat.nle_succ_diag_l 2).
    apply (Nat.le_trans _ (S (S (S g)))); [|exact Hg].
    apply le_n_S, le_n_S, le_n_S, Nat.le_0_l. }
  destruct Hrow as [row Erow].
  destruct (@joint_probability_round T arith before after who p
              one_gene two_genes have_trait
              (mul prior (trait_get row (mem who have_trait))))
    as (acc & Eacc & Elast & Eall).
  { intros acc; unfold joint_step, gene_prob.
    rewrite Hm, Hf; cbn [is_none andb]; fold genes.
    rewrite Erow; subst prior.
    destruct genes as [|[|[|g]]]; try reflexivity.
    simpl in Erow; discriminate Erow. }
  exists acc, row; auto.
Qed.

Lemma founder_gene_prob_is_prior_witness :
  joint_probability (arith := exact)
    ([("Lily", Person "Lily" None None (Some false))]
     ++ [("Harry", Person "Harry" None None None)])
    [] ["Harry"] ["Harry"]
  = Ok (mul (mul (of_int 1) (mul (lit 96 2) (lit 99 2)))
            (mul (lit 1 2) (lit 65 2))).
Proof.
  destruct (@founder_gene_prob_is_prior Qc exact
              [("Lily", Person "Lily" None None (Some false))] []
              "Harry" (Person "Harry" None None None) [] ["Harry"] ["Harry"]
              eq_refl eq_refl)
    as (_ & acc & row & Eacc & Erow & Elast & _).
  inversion Eacc; inversion Erow; subst acc row.
  exact Elast.
Defined.

(** C1. For a person with a recorded parent, wherever the person stands
    in [people], the round of [joint_probability] for that person
    multiplies the running product by the person's gene probability
    times the trait probability, where the gene probability comes from
    two transmission events, one per parent: a parent with 2 copies
    passes the gene on with probability 1 - 0.01, one with 0 copies with
    probability 0.01, one with 1 copy with probability 0.5 (and withholds
    it with 0.01, 1 - 0.01 and 0.5); 2 copies in the child have
    probability mother-passes * father-passes, 1 copy mother-passes *
    father-withholds + mother-withholds * father-passes, 0 copies
    mother-withholds * father-withholds. *)
Theorem child_gene_prob_from_parents {T : Type} {arith : Arith T}
    (before after : dict person) (who : string) (p : person)
    (one_gene two_genes have_trait : pyset) :
  is_none (mother p) && is_none (father p) = false ->
  let passes := fun parent_genes : nat =>
    match parent_genes with
    | 2 => sub (of_int 1) (lit 1 2)
    | 1 => lit 5 1
    | _ => lit 1 2
    end in
  let withholds := fun parent_genes : nat =>
    match parent_genes with
    | 2 => lit 1 2
    | 1 => lit 5 1
    | _ => sub (of_int 1) (lit 1 2)
    end in
  let m := genes_of one_gene two_genes (mother p) in
  let f := genes_of one_gene two_genes (father p) in
  let genes := genes_of one_gene two_genes (Some who) in
  let child :=
    match genes with
    | 2 => mul (passes m) (passes f)
    | 1 => add (mul (passes m) (withholds f)) (mul (withholds m) (passes f))
    | _ => mul (withholds m) (withholds f)
    end in
  (m <= 2 /\ f <= 2 /\ genes <= 2) /\
  exists acc row,
    joint_probability before one_gene two_genes have_trait = Ok acc /\
    genes_get (PROBS_trait PROBS) genes = Ok row /\
    joint_probability (before ++ [(who, p)]) one_gene two_genes have_trait
      = Ok (mul acc (mul child (trait_get row (mem who have_trait)))) /\
    joint_probability (before ++ (who, p) :: after) one_gene two_genes have_trait
      = for_each after (joint_step one_gene two_genes have_trait)
          (mul acc (mul child (trait_get row (mem who have_trait)))).
Proof.
  intros Hnf passes withholds m f genes child.
  assert (Hrange : forall x, genes_of one_gene two_genes x <= 2).
  { intros x; destruct (genes_of_range one_gene two_genes x) as [E|[E|E]];
      rewrite E; auto. }
  split; [repeat split; apply Hrange|].
  assert (Hpass : forall g, get_gene_prob (T := T) g false = passes g).
  { intros [|[|[|g]]]; reflexivity. }
  assert (Hwith : forall g, get_gene_prob (T := T) g true = withholds g).
  { intros [|[|[|g]]]; reflexivity. }
  assert (Hrow : exists row, genes_get (PROBS_trait (T := T) PROBS) genes = Ok row).
  { destruct (genes_of_range one_gene two_genes (Some who)) as [E|[E|E]];
      unfold genes; rewrite E; simpl; eauto. }
  destruct Hrow as [row Erow].
  destruct (@joint_probability_round T arith before after who p
              one_gene two_genes have_trait
              (mul child (trait_get row (mem who have_trait))))
    as (acc & Eacc & Elast & Eall).
  { intros acc; unfold joint_step, gene_prob.
    rewrite Hnf; fold genes m f.
    rewrite !Hpass, !Hwith.
    rewrite Erow; subst child.
    destruct (genes_of_range one_gene two_genes (Some who)) as [E|[E|E]];
      fold genes in E; rewrite E; reflexivity. }
  exists acc, row; auto.
Qed.

Lemma child_gene_prob_from_parents_witness :
  joint_probability (arith := exact)
    ([("Lily", Person "Lily" None None (Some false))]
     ++ [("Harry", Person "Harry" (Some "Lily") (Some "James") None)])
    ["Harry"] ["James"] []
  = Ok (mul (mul (of_int 1) (mul (lit 96 2) (lit 99 2)))
            (mul (add (mul (lit 1 2) (lit 1 2))
                      (mul (sub (of_int 1) (lit 1 2)) (sub (of_int 1) (lit 1 2))))
                 (lit 44 2))).
Proof.
  destruct (@child_gene_prob_from_parents Qc exact
              [("Lily", Person "Lily" None None (Some false))] []
              "Harry" (Person "Harry" (Some "Lily") (Some "James") None)
              ["Harry"] ["James"] [] eq_refl)
    as (_ & acc & row & Eacc & Erow & Elast & _).
  inversion Eacc; inversion Erow; subst acc row.
  exact Elast.
Defined.

(** ** Dangling parent references *)

Lemma mem_In (x : string) (s : pyset) : mem x s = true <-> In x s.
Proof.
  unfold mem; rewrite existsb_exists; split.
  - intros (y & Hy & E); apply String.eqb_eq in E; subst; trivial.
  - intros Hx; exists x; split; trivial; apply String.eqb_refl.
Qed.

Lemma mem_not_In (x : string) (s : pyset) : mem x s = false <-> ~ In x s.
Proof.
  rewrite <- mem_In; destruct (mem x s); split; intros; congruence.
Qed.

(** C4, as stated, fails: with both recorded parents missing from the
    population, [load_data] accepts the rows and [joint_probability]
    returns a number (0.99 * 0.99 for the genes, 0.99 for the trait). *)
Lemma dangling_parent_counterexample :
  load_data [row_of "Child" "Ghost" "Nobody" ""] = Ok orphan /\
  dict_get orphan "Ghost" = Err KeyError /\
  dict_get orphan "Nobody" = Err KeyError /\
  joint_probability (arith := exact) orphan [] [] [] = Ok (lit 970299 6) /\
  ~ (exists e, joint_probability (arith := exact) orphan [] [] [] = Err e).
Proof.
  split; [reflexivity|].
  split; [reflexivity|].
  split; [reflexivity|].
  assert (E : joint_probability (arith := exact) orphan [] [] [] = Ok (lit 970299 6)).
  { unfold joint_probability; simpl.
    f_equal; apply Qc_decomp; vm_compute; reflexivity. }
  split; [exact E|].
  intros (e & He); rewrite E in He; discriminate.
Qed.

(** Rows that have the four columns are always accepted, whoever they
    name as mother and father. *)
Lemma load_loop_returns (rows : list (dict string)) (data : dict person) :
  Forall has_columns rows ->
  exists data', for_each rows load_row data = Ok data'.
Proof.
  intros Hrows; revert data.
  induction Hrows as [|row rows Hrow Hrows IH]; intros data; simpl; eauto.
  destruct Hrow as (n & m & f & t & En & Em & Ef & Et).
  unfold load_row at 1; rewrite En, Em, Ef, Et; simpl; apply IH.
Qed.

(** C4, amended. Neither the loader nor [joint_probability] raises on
    account of a parent: [joint_probability] returns a number for every
    population and every hypothesis drawn from its names, a recorded
    parent who is not in the population is in neither gene set, so is
    counted as carrying 0 copies, and [load_data] returns on all rows that
    have the four columns, whoever they name as mother and father. *)
Theorem dangling_parent_counts_zero {T : Type} {arith : Arith T}
    (people : dict person) (one_gene two_genes have_trait : pyset) :
  (forall x, In x one_gene -> In x (keys people)) ->
  (forall x, In x two_genes -> In x (keys people)) ->
  (exists p : T, joint_probability people one_gene two_genes have_trait = Ok p) /\
  (forall parent, ~ In parent (keys people) ->
     genes_of one_gene two_genes (Some parent) = 0) /\
  (forall rows, Forall has_columns rows -> exists data, load_data rows = Ok data).
Proof.
  intros H1 H2; split; [apply joint_probability_ok|].
  split.
  - intros parent Hp; unfold genes_of; simpl.
    assert (E2 : mem parent two_genes = false) by (apply mem_not_In; auto).
    assert (E1 : mem parent one_gene = false) by (apply mem_not_In; auto).
    rewrite E2, E1; reflexivity.
  - intros rows Hrows; apply (load_loop_returns [] Hrows).
Qed.

Lemma dangling_parent_counts_zero_witness :
  (exists p : Qc, joint_probability orphan ["Child"] [] [] = Ok p) /\
  (forall parent, ~ In parent (keys orphan) ->
     genes_of ["Child"] [] (Some parent) = 0) /\
  (forall rows, Forall has_columns rows -> exists data, load_data rows = Ok data).
Proof.
  apply (@dangling_parent_counts_zero Qc exact orphan ["Child"] [] []).
  - simpl; intros x [E|[]]; auto.
  - simpl; intros x [].
Defined.

(** ** Division by a zero total *)

Section NormalizeFails.

Context {T : Type} {arith : Arith T}.

Lemma div_err (x y : T) (e : exn) : div x y = Err e -> e = ZeroDivisionError.
Proof.
  unfold div; destruct (is_zero y); intros E; inversion E; trivial.
Qed.

Lemma div_zero (x y : T) : is_zero y = true -> div x y = Err ZeroDivisionError.
Proof. unfold div; intros ->; trivial. Qed.

Lemma normalize_entry_err (entry : string * dist T) (e : exn) :
  normalize_entry entry = Err e -> e = ZeroDivisionError.
Proof.
  destruct entry as [who d]; unfold normalize_entry.
  repeat match goal with
  | |- context [div ?x ?y] =>
      let E := fresh "E" in
      destruct (div x y) eqn:E; simpl;
      [| apply div_err in E; intros E'; inversion E'; subst; trivial]
  end.
  discriminate.
Qed.

Lemma normalize_entry_zero (who : string) (d : dist T) :
  is_zero (gene_total d) = true \/ is_zero (trait_total d) = true ->
  normalize_entry (who, d) = Err ZeroDivisionError.
Proof.
  intros Hz.
  destruct (normalize_entry (who, d)) as [r|e] eqn:E.
  - exfalso; revert E; unfold normalize_entry.
    destruct Hz as [Hz|Hz].
    + rewrite (div_zero _ _ Hz); discriminate.
    + rewrite (div_zero _ _ Hz).
      repeat match goal with
      | |- context [div ?x (gene_total d)] =>
          destruct (div x (gene_total d)); simpl; try discriminate
      end.
  - apply normalize_entry_err in E; subst; trivial.
Qed.

End NormalizeFails.

(** C7. If some entry of [probabilities] has a gene total or a trait
    total equal to zero, [normalize] raises [ZeroDivisionError]; it
    returns no table. *)
Theorem normalize_zero_total_fails {T : Type} {arith : Arith T}
    (probabilities : dict (dist T)) (who : string) (d : dist T) :
  In (who, d) probabilities ->
  is_zero (gene_total d) = true \/ is_zero (trait_total d) = true ->
  normalize probabilities = Err ZeroDivisionError.
Proof.
  intros Hin Hz; unfold normalize.
  induction probabilities as [|entry rest IH]; [destruct Hin|].
  simpl; destruct Hin as [->|Hin].
  - rewrite (normalize_entry_zero who d Hz); trivial.
  - destruct (normalize_entry entry) as [r|e] eqn:E; simpl.
    + rewrite (IH Hin); trivial.
    + apply normalize_entry_err in E; subst; trivial.
Qed.

Lemma normalize_zero_total_fails_witness :
  normalize (arith := exact) (initial harry) = Err ZeroDivisionError.
Proof.
  apply (@normalize_zero_total_fails Qc exact (initial harry) "Harry"
           (Dist (ByGenes (of_int 0) (of_int 0) (of_int 0))
                 (ByTrait (of_int 0) (of_int 0)))).
  - left; reflexivity.
  - left; vm_compute; reflexivity.
Defined.

(** On binary64 too a zero total (of either sign) raises. *)
Lemma normalize_zero_total_fails_binary64 :
  normalize (arith := binary64) (initial (arith := binary64) harry)
    = Err ZeroDivisionError /\
  normalize (arith := binary64_py312) (initial (arith := binary64_py312) harry)
    = Err ZeroDivisionError.
Proof. split; vm_compute; reflexivity. Qed.

(** ** The empty population *)

(** C8, as stated, fails: for the empty population the loops of [main]
    run their body once, on the hypothesis made of three empty sets. *)
Lemma empty_population_counterexample :
  hypotheses (order := insertion_order) [] = [([], [], [])] /\
  hypotheses (order := insertion_order) [] <> [].
Proof. split; [reflexivity | discriminate]. Qed.

Lemma iter_nil {order : SetOrder} : iter [] = [].
Proof.
  apply Permutation_nil, iter_perm.
Qed.

(** C8, amended. For the empty population, whatever the iteration order
    of sets, exactly one hypothesis is enumerated, the one with three
    empty sets; its joint probability is the empty product 1, and [main]
    returns the empty table without raising. *)
Theorem empty_population_one_hypothesis {T : Type} {arith : Arith T}
    {order : SetOrder} :
  hypotheses [] = [([], [], [])] /\
  joint_probability [] [] [] [] = Ok (of_int 1) /\
  main [] = Ok [].
Proof.
  assert (E : hypotheses [] = [([], [], [])]).
  { unfold hypotheses, powerset; simpl.
    rewrite iter_nil; reflexivity. }
  split; [exact E|].
  split; [reflexivity|].
  unfold main; rewrite accumulate_hypotheses, E; reflexivity.
Qed.

(** ** Loading *)

Lemma dict_set_In {V : Type} (d : dict V) (k : string) (v : V) (k' : string) (v' : V) :
  In (k', v') (dict_set d k v) -> (k' = k /\ v' = v) \/ In (k', v') d.
Proof.
  induction d as [|[k0 v0] rest IH]; simpl.
  - intros [E|[]]; inversion E; auto.
  - destruct (String.eqb k k0) eqn:Ek; simpl.
    + apply String.eqb_eq in Ek; subst.
      intros [E|Hin]; [inversion E; auto | auto].
    + intros [E|Hin]; [auto|].
      destruct (IH Hin) as [?|?]; auto.
Qed.

Lemma load_loop (rows : list (dict string)) (data : dict person) :
  Forall has_columns rows ->
  exists data',
    for_each rows load_row data = Ok data' /\
    forall entry, In entry data' -> In entry data \/ loaded_from rows entry.
Proof.
  intros Hrows; revert data.
  induction Hrows as [|row rows Hrow Hrows IH]; intros data; simpl.
  - exists data; split; auto.
  - destruct Hrow as (n & m & f & t & En & Em & Ef & Et).
    unfold load_row at 1; rewrite En, Em, Ef, Et; simpl.
    destruct (IH (dict_set data n (Person n (or_none m) (or_none f) (parse_trait t))))
      as (data' & Eloop & Hdata').
    exists data'; split; [exact Eloop|].
    intros [who p] Hin.
    destruct (Hdata' _ Hin) as [Hold|(row' & t' & Hr & E1 & E2 & E3)].
    + apply dict_set_In in Hold; destruct Hold as [[-> ->]|Hold]; [|auto].
      right; exists row, t; simpl; auto.
    + right; exists row', t'; simpl; auto.
Qed.

(** C9, as stated, fails: a trait field that is none of the encodings is
    loaded, without any error, as an unobserved trait, exactly like the
    empty field. *)
Lemma unknown_trait_encoding_counterexample :
  load_data [row_of "Harry" "" "" "maybe"] = Ok harry /\
  load_data [row_of "Harry" "" "" ""] = Ok harry /\
  ~ (exists e, load_data [row_of "Harry" "" "" "maybe"] = Err e).
Proof.
  split; [reflexivity|].
  split; [reflexivity|].
  intros (e & He); discriminate He.
Qed.

(** C9, amended. [load_data] never raises on account of the trait field:
    on rows that have the four columns it returns the data, and the trait
    of every loaded person is read off the trait field [t] of one of the
    rows with that name as: observed true when [t] is "1", observed false
    when [t] is "0", and unobserved for every other string. *)
Theorem load_data_maps_every_trait (rows : list (dict string)) :
  Forall has_columns rows ->
  exists data,
    load_data rows = Ok data /\
    forall who p, In (who, p) data ->
      exists row t,
        In row rows /\
        dict_get row "name" = Ok who /\
        dict_get row "trait" = Ok t /\
        (t = "1" -> trait p = Some true) /\
        (t = "0" -> trait p = Some false) /\
        (t <> "1" -> t <> "0" -> trait p = None).
Proof.
  intros Hrows.
  destruct (load_loop [] Hrows) as (data & E & Hdata).
  exists data; split; [exact E|].
  intros who p Hin.
  destruct (Hdata _ Hin) as [[]|(row & t & Hr & E1 & E2 & E3)].
  exists row, t; simpl in *.
  repeat split; trivial; rewrite E3; unfold parse_trait.
  - intros ->; reflexivity.
  - intros ->; reflexivity.
  - intros N1 N0.
    apply String.eqb_neq in N1, N0; rewrite N1, N0; reflexivity.
Qed.

Lemma load_data_maps_every_trait_witness :
  exists data,
    load_data [row_of "Harry" "" "" "maybe"] = Ok data /\
    forall who p, In (who, p) data ->
      exists row t,
        In row [row_of "Harry" "" "" "maybe"] /\
        dict_get row "name" = Ok who /\
        dict_get row "trait" = Ok t /\
        (t = "1" -> trait p = Some true) /\
        (t = "0" -> trait p = Some false) /\
        (t <> "1" -> t <> "0" -> trait p = None).
Proof.
  apply (@load_data_maps_every_trait [row_of "Harry" "" "" "maybe"]).
  constructor; [|constructor].
  exists "Harry", "", "", "maybe"; repeat split; reflexivity.
Defined.

(** ** One call of [update] *)

Lemma Forall2_In_r {A B : Type} (R : A -> B -> Prop) (xs : list A) (ys : list B) (y : B) :
  Forall2 R xs ys -> In y ys -> exists x, In x xs /\ R x y.
Proof.
  induction 1 as [|x y' xs ys HR HF IH]; simpl; [intros []|].
  intros [->|Hin]; [exists x; auto|].
  destruct (IH Hin) as (x' & Hx & HR'); exists x'; auto.
Qed.

Arguments Forall2_In_r {A B R xs ys y} _ _.

Lemma Forall2_keys {V W : Type} (R : string * V -> string * W -> Prop)
    (xs : dict V) (ys : dict W) :
  Forall2 R xs ys -> (forall x y, R x y -> fst y = fst x) -> keys ys = keys xs.
Proof.
  intros HF HR; induction HF as [|x y xs ys Hxy HF IH]; simpl; trivial.
  rewrite (HR _ _ Hxy), IH; trivial.
Qed.

Section Update.

Context {T : Type} {arith : Arith T}.

Lemma update_entry_ok (one_gene two_genes have_trait : pyset) (p : T)
    (entry : string * dist T) :
  exists entry',
    update_entry one_gene two_genes have_trait p entry = Ok entry' /\
    slots_updated one_gene two_genes have_trait p entry entry'.
Proof.
  destruct entry as [who [gene trait]].
  unfold update_entry, slots_updated; simpl.
  destruct (genes_of_range one_gene two_genes (Some who)) as [E|[E|E]];
    rewrite E; simpl;
    (eexists; split; [reflexivity|]); simpl;
    (split; [reflexivity|]);
    (split; [eexists; split; reflexivity|]);
    (split; [intros [|[|[|g]]] Hg; simpl; trivial; congruence|]);
    destruct (mem who have_trait); simpl; split; reflexivity.
Qed.

Lemma update_ok (probabilities : dict (dist T))
    (one_gene two_genes have_trait : pyset) (p : T) :
  exists probabilities',
    update probabilities one_gene two_genes have_trait p = Ok probabilities' /\
    Forall2 (slots_updated one_gene two_genes have_trait p)
            probabilities probabilities'.
Proof.
  unfold update.
  induction probabilities as [|entry rest (rest' & Erest & Hrest)]; simpl.
  - exists []; split; [reflexivity | constructor].
  - destruct (update_entry_ok one_gene two_genes have_trait p entry)
      as (entry' & E & Hslots).
    rewrite E, Erest; simpl.
    exists (entry' :: rest'); split; [reflexivity | constructor; assumption].
Qed.

Lemma update_keys (probabilities probabilities' : dict (dist T))
    (one_gene two_genes have_trait : pyset) (p : T) :
  Forall2 (slots_updated one_gene two_genes have_trait p)
          probabilities probabilities' ->
  keys probabilities' = keys probabilities.
Proof.
  intros HF; apply (Forall2_keys HF).
  intros x y Hxy; apply Hxy.
Qed.

Lemma accumulate_one_ok (people : dict person)
    (have_trait one_gene two_genes : pyset) (probabilities : dict (dist T)) :
  exists p probabilities',
    joint_probability people one_gene two_genes have_trait = Ok p /\
    accumulate_one people have_trait one_gene two_genes probabilities
      = Ok probabilities' /\
    Forall2 (slots_updated one_gene two_genes have_trait p)
            probabilities probabilities'.
Proof.
  destruct (joint_probability_ok people one_gene two_genes have_trait) as [p Ep].
  destruct (update_ok probabilities one_gene two_genes have_trait p)
    as (probabilities' & Eu & HF).
  exists p, probabilities'; unfold accumulate_one; rewrite Ep; simpl; auto.
Qed.

(** A trait slot that no hypothesis of a run selects keeps its value. *)
Lemma unselected_trait_slot (people : dict person)
    (hs : list (pyset * pyset * pyset)) (who : string) (b : bool) (v : T) :
  forall probabilities probabilities',
  (forall ht og tg, In (ht, og, tg) hs -> mem who ht = b) ->
  (forall d, In (who, d) probabilities -> trait_get (dist_trait d) (negb b) = v) ->
  for_each hs
    (fun h probabilities =>
       let '(have_trait, one_gene, two_genes) := h in
       accumulate_one people have_trait one_gene two_genes probabilities)
    probabilities = Ok probabilities' ->
  forall d, In (who, d) probabilities' -> trait_get (dist_trait d) (negb b) = v.
Proof.
  induction hs as [|[[ht og] tg] hs IH]; simpl; intros probs probs' Hsel Hinit Hrun.
  - inversion Hrun; subst; exact Hinit.
  - destruct (accumulate_one_ok people ht og tg probs) as (p & probs1 & _ & E1 & HF).
    rewrite E1 in Hrun; simpl in Hrun.
    apply (IH probs1 probs'); auto.
    + intros ht' og' tg' Hin; apply (Hsel ht' og' tg'); auto.
    + intros d Hd.
      destruct (Forall2_In_r HF Hd) as ([who0 d0] & Hin0 & Hslots).
      destruct Hslots as (Ewho & _ & _ & _ & Hother); simpl in *; subst who0.
      rewrite (Hsel ht og tg (or_introl eq_refl)) in Hother.
      rewrite Hother; apply Hinit; assumption.
Qed.

End Update.

(** ** Exact arithmetic *)

Section Exact.

Local Open Scope Qc_scope.

Lemma exact_zero : of_int (T := Qc) 0%Z = 0.
Proof. reflexivity. Qed.

Lemma exact_one : of_int (T := Qc) 1%Z = 1.
Proof. reflexivity. Qed.

Lemma exact_gene_total (d : dist Qc) :
  gene_total d = two (dist_gene d) + one (dist_gene d) + zero (dist_gene d).
Proof.
  unfold gene_total, genes_values; cbn [sum exact fold_left].
  change (Q2Qc (inject_Z 0)) with 0; ring.
Qed.

Lemma exact_trait_total (d : dist Qc) :
  trait_total d = yes (dist_trait d) + no (dist_trait d).
Proof.
  unfold trait_total, trait_values; cbn [sum exact fold_left].
  change (Q2Qc (inject_Z 0)) with 0; ring.
Qed.

Lemma exact_is_zero (y : Qc) : is_zero y = true <-> y = 0.
Proof.
  cbn [is_zero exact]; change (Q2Qc (inject_Z 0)) with 0.
  unfold Qc_eq_bool; destruct (Qc_eq_dec y 0); split; congruence.
Qed.

Lemma exact_div (x y : Qc) : y <> 0 -> div x y = Ok (x / y).
Proof.
  intros Hy; unfold div.
  destruct (is_zero y) eqn:E; [apply exact_is_zero in E; contradiction|].
  reflexivity.
Qed.

(** In exact arithmetic the slots changed by [update] make both totals
    grow by [p]. *)
Lemma slots_updated_totals (one_gene two_genes have_trait : pyset) (p : Qc)
    (before after : string * dist Qc) :
  slots_updated one_gene two_genes have_trait p before after ->
  totals_grow p before after.
Proof.
  destruct before as [who [[b2 b1 b0] [by_ bn]]].
  destruct after as [who' [[a2 a1 a0] [ay an]]].
  unfold slots_updated, totals_grow.
  rewrite !exact_gene_total, !exact_trait_total.
  cbn [fst snd dist_gene dist_trait two one zero yes no add exact].
  intros (_ & (old & Eold & Enew) & Hother & Hsel & Hunsel).
  split.
  - destruct (genes_of_range one_gene two_genes (Some who)) as [E|[E|E]];
      rewrite E in *; simpl in Eold, Enew;
      inversion Eold; inversion Enew; subst.
    + assert (H2 := Hother 2%nat ltac:(discriminate)).
      assert (H1 := Hother 1%nat ltac:(discriminate)).
      simpl in H1, H2; inversion H1; inversion H2; subst; ring.
    + assert (H2 := Hother 2%nat ltac:(discriminate)).
      assert (H0 := Hother 0%nat ltac:(discriminate)).
      simpl in H0, H2; inversion H0; inversion H2; subst; ring.
    + assert (H1 := Hother 1%nat ltac:(discriminate)).
      assert (H0 := Hother 0%nat ltac:(discriminate)).
      simpl in H0, H1; inversion H0; inversion H1; subst; ring.
  - destruct (mem who have_trait); simpl in Hsel, Hunsel; subst; ring.
Qed.

End Exact.

(** ** binary64 runs *)

(** Refutes an equation between two doubles that evaluate to values
    which [==] tells apart. *)
Ltac float_discriminate H :=
  match type of H with
  | ?a = ?b =>
      apply (f_equal (fun x => PrimFloat.eqb x b)) in H;
      vm_compute in H; discriminate H
  end.

(** The literals of the instance are the doubles Python reads. *)
Lemma float_lit_values :
  float_lit 96 2 = 0x1.eb851eb851eb8p-1%float /\
  float_lit 3 2 = 0x1.eb851eb851eb8p-6%float /\
  float_lit 1 2 = 0x1.47ae147ae147bp-7%float /\
  float_lit 65 2 = 0x1.4cccccccccccdp-1%float /\
  float_lit 35 2 = 0x1.6666666666666p-2%float /\
  float_lit 56 2 = 0x1.1eb851eb851ecp-1%float /\
  float_lit 44 2 = 0x1.c28f5c28f5c29p-2%float /\
  float_lit 99 2 = 0x1.fae147ae147aep-1%float /\
  float_lit 5 1 = 0x1p-1%float /\
  float_of_Z 1 = 0x1p+0%float.
Proof. repeat split; vm_compute; reflexivity. Qed.

(** C10, as stated, fails on binary64: in the run on a single unobserved
    founder, at the third call of [update] (hypothesis: Harry has one copy
    and no trait, p = 0.03 * 0.44) the gene total after the call is not
    the gene total before plus [p], under both algorithms of [sum], nor
    is their difference [p]; and the trait slots, added without any
    rounding, have not grown by [p] either. *)
Lemma update_totals_counterexample :
  (exists before p after,
     for_each (firstn 2 (hypotheses (order := insertion_order) harry))
       (fun h probabilities =>
          let '(have_trait, one_gene, two_genes) := h in
          accumulate_one (arith := binary64) harry have_trait one_gene two_genes
            probabilities)
       (initial (arith := binary64) harry) = Ok [("Harry", before)] /\
     joint_probability (arith := binary64) harry ["Harry"] [] [] = Ok p /\
     update (arith := binary64) [("Harry", before)] ["Harry"] [] [] p
       = Ok [("Harry", after)] /\
     gene_total (arith := binary64) after
       <> PrimFloat.add (gene_total (arith := binary64) before) p /\
     gene_total (arith := binary64_py312) after
       <> PrimFloat.add (gene_total (arith := binary64_py312) before) p /\
     PrimFloat.sub (gene_total (arith := binary64) after)
                   (gene_total (arith := binary64) before) <> p /\
     PrimFloat.sub (gene_total (arith := binary64_py312) after)
                   (gene_total (arith := binary64_py312) before) <> p /\
     ~ Qeq (unrounded_sum (trait_values (dist_trait after)))
           (Qplus (unrounded_sum (trait_values (dist_trait before)))
                  (float_to_Q p))) /\
  ~ (forall before p after,
       update (arith := binary64) before ["Harry"] [] [] p = Ok after ->
       Forall2 (totals_grow (arith := binary64) p) before after).
Proof.
  assert (C : exists before p after,
     for_each (firstn 2 (hypotheses (order := insertion_order) harry))
       (fun h probabilities =>
          let '(have_trait, one_gene, two_genes) := h in
          accumulate_one (arith := binary64) harry have_trait one_gene two_genes
            probabilities)
       (initial (arith := binary64) harry) = Ok [("Harry", before)] /\
     joint_probability (arith := binary64) harry ["Harry"] [] [] = Ok p /\
     update (arith := binary64) [("Harry", before)] ["Harry"] [] [] p
       = Ok [("Harry", after)] /\
     gene_total (arith := binary64) after
       <> PrimFloat.add (gene_total (arith := binary64) before) p /\
     gene_total (arith := binary64_py312) after
       <> PrimFloat.add (gene_total (arith := binary64_py312) before) p /\
     PrimFloat.sub (gene_total (arith := binary64) after)
                   (gene_total (arith := binary64) before) <> p /\
     PrimFloat.sub (gene_total (arith := binary64_py312) after)
                   (gene_total (arith := binary64_py312) before) <> p /\
     ~ Qeq (unrounded_sum (trait_values (dist_trait after)))
           (Qplus (unrounded_sum (trait_values (dist_trait before)))
                  (float_to_Q p))).
  { eexists; eexists; eexists.
    split; [vm_compute; reflexivity|].
    split; [vm_compute; reflexivity|].
    split; [vm_compute; reflexivity|].
    split; [intros E; float_discriminate E|].
    split; [intros E; float_discriminate E|].
    split; [intros E; float_discriminate E|].
    split; [intros E; float_discriminate E|].
    intros E; apply Qeq_bool_iff in E; vm_compute in E; discriminate E. }
  split; [exact C|].
  destruct C as (before & p & after & _ & _ & Eu & Hneq & _).
  intros Hall.
  specialize (Hall _ _ _ Eu).
  inversion Hall as [|x y xs ys [Hg _] HF]; subst.
  apply Hneq; exact Hg.
Qed.

(** C10, amended. One call of [update] returns a table with the same
    names in which, for every person, the gene slot of the person's gene
    count and the trait slot of the person's trait value hold their old
    value plus [p] and every other slot is unchanged; in exact arithmetic
    both totals of every person therefore grow by exactly [p] (on binary64
    the sum of the rounded slots need not be the old total plus [p]). *)
Theorem update_adds_p_to_one_slot_each :
  (forall (T : Type) (arith : Arith T) (probabilities : dict (dist T))
          (one_gene two_genes have_trait : pyset) (p : T),
     exists probabilities',
       update probabilities one_gene two_genes have_trait p = Ok probabilities' /\
       keys probabilities' = keys probabilities /\
       Forall2 (slots_updated one_gene two_genes have_trait p)
               probabilities probabilities') /\
  (forall (probabilities : dict (dist Qc))
          (one_gene two_genes have_trait : pyset) (p : Qc),
     exists probabilities',
       update probabilities one_gene two_genes have_trait p = Ok probabilities' /\
       Forall2 (totals_grow p) probabilities probabilities').
Proof.
  split.
  - intros T arith probabilities one_gene two_genes have_trait p.
    destruct (update_ok probabilities one_gene two_genes have_trait p)
      as (probabilities' & E & HF).
    exists probabilities'; repeat split; trivial.
    apply (update_keys HF).
  - intros probabilities one_gene two_genes have_trait p.
    destruct (update_ok probabilities one_gene two_genes have_trait p)
      as (probabilities' & E & HF).
    exists probabilities'; split; trivial.
    revert HF; apply Forall2_impl.
    intros before after; apply slots_updated_totals.
Qed.

(** ** The totals before normalization *)

(** C2, as stated, fails on binary64: after the loops of [main] on a
    single unobserved founder, the gene total is 1.0 and the trait total
    is 0.9999999999999999, under both algorithms of [sum]; the two sums
    differ also when the slots are added without any rounding. *)
Lemma totals_agree_counterexample :
  exists d,
    accumulate (arith := binary64) (order := insertion_order) harry
      = Ok [("Harry", d)] /\
    accumulate (arith := binary64_py312) (order := insertion_order) harry
      = Ok [("Harry", d)] /\
    gene_total (arith := binary64) d <> trait_total (arith := binary64) d /\
    gene_total (arith := binary64_py312) d
      <> trait_total (arith := binary64_py312) d /\
    ~ Qeq (unrounded_sum (genes_values (dist_gene d)))
          (unrounded_sum (trait_values (dist_trait d))) /\
    ~ (exists mass, balanced (arith := binary64) mass [("Harry", d)]) /\
    ~ (exists mass, balanced (arith := binary64_py312) mass [("Harry", d)]).
Proof.
  eexists.
  split; [vm_compute; reflexivity|].
  split; [vm_compute; reflexivity|].
  match goal with
  | |- ?A /\ ?B /\ _ =>
      assert (HA : A) by (intros E; float_discriminate E);
      assert (HB : B) by (intros E; float_discriminate E)
  end.
  split; [exact HA|].
  split; [exact HB|].
  split; [intros E; apply Qeq_bool_iff in E; vm_compute in E; discriminate E|].
  split; intros (mass & Hb);
    destruct (Hb _ _ (or_introl eq_refl)) as [Eg Et];
    [apply HA | apply HB]; congruence.
Qed.

Section ExactTotals.

Local Open Scope Qc_scope.

Context {order : SetOrder}.

Lemma initial_balanced (people : dict person) :
  balanced (arith := exact) (of_int 0%Z) (initial people).
Proof.
  intros who d Hin; unfold initial in Hin.
  apply in_map_iff in Hin; destruct Hin as (entry & E & _).
  inversion E; subst.
  rewrite exact_gene_total, exact_trait_total.
  cbn [dist_gene dist_trait two one zero yes no].
  rewrite ?exact_zero; change (Q2Qc (inject_Z 0)) with 0; split; ring.
Qed.

Lemma initial_keys {T : Type} {arith : Arith T} (people : dict person) :
  keys (initial people) = keys people.
Proof.
  unfold keys, initial; rewrite map_map; reflexivity.
Qed.

Lemma update_balanced (probabilities probabilities' : dict (dist Qc))
    (one_gene two_genes have_trait : pyset) (p mass : Qc) :
  balanced mass probabilities ->
  Forall2 (slots_updated one_gene two_genes have_trait p)
          probabilities probabilities' ->
  balanced (add mass p) probabilities'.
Proof.
  intros Hb HF who d' Hin.
  destruct (Forall2_In_r HF Hin) as ([who0 d0] & Hin0 & Hslots).
  destruct (slots_updated_totals Hslots) as [Eg Et]; cbn [snd] in Eg, Et.
  destruct (Hb _ _ Hin0) as [Eg0 Et0].
  rewrite Eg, Et, Eg0, Et0; split; reflexivity.
Qed.

(** Any run of the loop body over a list of hypotheses keeps the totals in
    step with the running sum of the joint probabilities. *)
Lemma accumulate_loop_balanced (people : dict person)
    (hs : list (pyset * pyset * pyset)) :
  forall (probabilities : dict (dist Qc)) (mass : Qc),
  balanced mass probabilities ->
  exists probabilities' mass',
    for_each hs
      (fun h probabilities =>
         let '(have_trait, one_gene, two_genes) := h in
         accumulate_one people have_trait one_gene two_genes probabilities)
      probabilities = Ok probabilities' /\
    for_each hs
      (fun h mass =>
         let '(have_trait, one_gene, two_genes) := h in
         p <- joint_probability people one_gene two_genes have_trait ;;
         Ok (add mass p))
      mass = Ok mass' /\
    keys probabilities' = keys probabilities /\
    balanced mass' probabilities'.
Proof.
  induction hs as [|[[ht og] tg] hs IH]; intros probs mass Hb; simpl.
  - exists probs, mass; auto.
  - destruct (accumulate_one_ok people ht og tg probs) as (p & probs1 & Ep & E1 & HF).
    rewrite E1, Ep; simpl.
    destruct (IH probs1 (add mass p) (update_balanced Hb HF))
      as (probs' & mass' & Erun & Emass & Ekeys & Hb').
    exists probs', mass'.
    split; [exact Erun|].
    split; [exact Emass|].
    split; [|exact Hb'].
    rewrite Ekeys; apply (update_keys HF).
Qed.

End ExactTotals.

(** C2, amended. In exact arithmetic, whatever the iteration order of
    sets: the loops of [main] end without raising, and in the table they
    leave every person's three gene weights and two trait weights both sum
    to one and the same number, the sum of the joint probabilities of the
    enumerated hypotheses (on binary64 the two sums agree only up to
    rounding). *)
Theorem totals_agree_in_exact_arithmetic {order : SetOrder} (people : dict person) :
  exists probabilities mass,
    accumulate (arith := exact) people = Ok probabilities /\
    evidence_mass (arith := exact) people = Ok mass /\
    keys probabilities = keys people /\
    balanced mass probabilities.
Proof.
  destruct (accumulate_loop_balanced people (hypotheses people)
              (initial_balanced people))
    as (probs & mass & Erun & Emass & Ekeys & Hb).
  exists probs, mass.
  rewrite accumulate_hypotheses.
  split; [exact Erun|].
  split; [exact Emass|].
  split; [|exact Hb].
  rewrite Ekeys; apply initial_keys.
Qed.

(** ** Positive weights *)

Section ExactPositive.

Local Open Scope Qc_scope.

Lemma Qc_mul_pos (a b : Qc) : 0 < a -> 0 < b -> 0 < a * b.
Proof.
  intros Ha Hb.
  assert (H := Qcmult_lt_compat_r 0 a b Hb Ha).
  rewrite Qcmult_0_l in H; exact H.
Qed.

Lemma Qc_add_pos (a b : Qc) : 0 <= a -> 0 < b -> 0 < a + b.
Proof.
  unfold Qcle, Qclt; intros Ha Hb.
  unfold Qcplus, Q2Qc; cbn [this].
  rewrite (Qred_correct (Qplus (this a) (this b))).
  change (this 0) with (Qmake 0 1) in *.
  change (Qred (Qmake 0 1)) with (Qmake 0 1); lra.
Qed.

Lemma exact_gene_prob_pos (one_gene two_genes : pyset) (who : string)
    (p : person) (gp : Qc) :
  gene_prob one_gene two_genes who p = Ok gp -> 0 < gp.
Proof.
  unfold gene_prob, genes_of, mem_opt.
  destruct (mother p) as [m|], (father p) as [f|];
    repeat match goal with
    | |- context [mem ?x ?s] => destruct (mem x s)
    end;
    intros E; vm_compute in E; inversion E; subst; reflexivity.
Qed.

Lemma exact_trait_prob_pos (genes : nat) (row : by_trait Qc) (b : bool) :
  genes_get (PROBS_trait PROBS) genes = Ok row -> 0 < trait_get row b.
Proof.
  destruct genes as [|[|[|genes]]]; simpl; intros E; inversion E; subst;
    destruct b; reflexivity.
Qed.

Lemma exact_joint_loop_pos (one_gene two_genes have_trait : pyset)
    (people : dict person) :
  forall acc r : Qc,
  0 < acc ->
  for_each people (joint_step one_gene two_genes have_trait) acc = Ok r ->
  0 < r.
Proof.
  induction people as [|entry people IH]; simpl; intros acc r Hacc E.
  - inversion E; subst; exact Hacc.
  - destruct (joint_step_ok one_gene two_genes have_trait entry acc)
      as (gp & tp & Egp & Etp & Estep).
    rewrite Estep in E; simpl in E.
    apply (IH _ _ (Qc_mul_pos Hacc
                     (Qc_mul_pos (exact_gene_prob_pos _ _ _ _ Egp)
                                 (exact_trait_prob_pos _ _ Etp))) E).
Qed.

Lemma exact_joint_probability_pos (people : dict person)
    (one_gene two_genes have_trait : pyset) (p : Qc) :
  joint_probability people one_gene two_genes have_trait = Ok p -> 0 < p.
Proof.
  apply exact_joint_loop_pos; reflexivity.
Qed.

Lemma mass_loop_pos (people : dict person) (hs : list (pyset * pyset * pyset)) :
  forall mass mass' : Qc,
  0 <= mass ->
  for_each hs
    (fun h mass =>
       let '(have_trait, one_gene, two_genes) := h in
       p <- joint_probability people one_gene two_genes have_trait ;;
       Ok (add mass p))
    mass = Ok mass' ->
  0 <= mass' /\ (hs <> [] -> 0 < mass').
Proof.
  induction hs as [|[[ht og] tg] hs IH]; simpl; intros mass mass' Hm E.
  - inversion E; subst; split; [exact Hm | congruence].
  - destruct (joint_probability people og tg ht) as [p|e] eqn:Ep;
      simpl in E; [|discriminate].
    assert (Hp := exact_joint_probability_pos _ _ _ _ Ep).
    assert (H1 : 0 < add mass p) by (apply Qc_add_pos; assumption).
    destruct (IH _ _ (Qclt_le_weak _ _ H1) E) as [H0 Hpos].
    split; [exact H0|]; intros _.
    destruct hs as [|h hs']; [|apply Hpos; discriminate].
    simpl in E; inversion E; subst; exact H1.
Qed.

End ExactPositive.

(** ** The enumeration *)

Lemma combinations_filter {A : Type} (f : A -> bool) (s : list A) :
  In (filter f s) (combinations s (List.length (filter f s))).
Proof.
  induction s as [|x s IH]; simpl; [auto|].
  destruct (f x); simpl.
  - apply in_or_app; left; apply in_map; exact IH.
  - destruct (List.length (filter f s)) as [|n] eqn:En.
    + destruct (filter f s); [simpl; auto | discriminate].
    + apply in_or_app; right; exact IH.
Qed.

Lemma filter_length_le {A : Type} (f : A -> bool) (s : list A) :
  List.length (filter f s) <= List.length s.
Proof.
  induction s as [|x s IH]; simpl; [lia|].
  destruct (f x); simpl; lia.
Qed.

Section Enumeration.

Context {order : SetOrder}.

Lemma iter_In (s : pyset) (x : string) : In x (iter s) <-> In x s.
Proof.
  split; apply Permutation_in;
    [apply Permutation_sym|]; apply iter_perm.
Qed.

Lemma powerset_filter (f : string -> bool) (s : pyset) :
  In (filter f (iter s)) (powerset s).
Proof.
  unfold powerset; apply in_flat_map.
  exists (List.length (filter f (iter s))); split.
  - apply in_seq.
    assert (H := filter_length_le f (iter s)); lia.
  - apply combinations_filter.
Qed.

Lemma powerset_nil (s : pyset) : In [] (powerset s).
Proof.
  unfold powerset; apply in_flat_map.
  exists 0; split; [apply in_seq; lia | destruct (iter s); simpl; auto].
Qed.

Lemma hypotheses_In (people : dict person) (ht og tg : pyset) :
  In (ht, og, tg) (hypotheses people) <->
  In ht (powerset (keys people)) /\
  fails_evidence people ht = false /\
  In og (powerset (keys people)) /\
  In tg (powerset (set_diff (keys people) og)).
Proof.
  unfold hypotheses; rewrite in_flat_map; split.
  - intros (ht0 & Hht & Hin).
    destruct (fails_evidence people ht0) eqn:Ef; [destruct Hin|].
    apply in_flat_map in Hin; destruct Hin as (og0 & Hog & Hin).
    apply in_map_iff in Hin; destruct Hin as (tg0 & E & Htg).
    inversion E; subst; auto.
  - intros (Hht & Ef & Hog & Htg).
    exists ht; split; trivial.
    rewrite Ef; apply in_flat_map.
    exists og; split; trivial.
    apply in_map_iff; exists tg; auto.
Qed.

End Enumeration.

Lemma dict_get_In {V : Type} (d : dict V) (k : string) (v : V) :
  dict_get d k = Ok v -> In (k, v) d.
Proof.
  induction d as [|[k0 v0] d IH]; simpl; [discriminate|].
  destruct (String.eqb k k0) eqn:E.
  - apply String.eqb_eq in E; subst; intros H; inversion H; auto.
  - auto.
Qed.

Lemma dict_get_NoDup {V : Type} (d : dict V) (k : string) (v : V) :
  NoDup (keys d) -> In (k, v) d -> dict_get d k = Ok v.
Proof.
  induction d as [|[k0 v0] d IH]; simpl; [intros _ []|].
  intros Hnd Hin; inversion Hnd as [|? ? Hnotin Hnd']; subst.
  destruct Hin as [E|Hin].
  - inversion E; subst; rewrite String.eqb_refl; trivial.
  - destruct (String.eqb k k0) eqn:E; [|auto].
    apply String.eqb_eq in E; subst.
    exfalso; apply Hnotin.
    change k0 with (fst (k0, v)); apply in_map; exact Hin.
Qed.

Lemma dict_get_keys {V : Type} (d : dict V) (k : string) :
  In k (keys d) -> exists v, dict_get d k = Ok v.
Proof.
  induction d as [|[k0 v0] d IH]; simpl; [intros []|].
  intros Hin; destruct (String.eqb k k0) eqn:E; [eauto|].
  destruct Hin as [Hk|Hin]; [|auto].
  subst; rewrite String.eqb_refl in E; discriminate.
Qed.

Section Evidence.

Context {order : SetOrder}.

(** A hypothesis that passed the evidence test gives every observed
    person the observed trait. *)
Lemma evidence_forces (people : dict person) (have_trait : pyset)
    (who : string) (p : person) (b : bool) :
  fails_evidence people have_trait = false ->
  In (who, p) people -> trait p = Some b ->
  mem who have_trait = b.
Proof.
  intros Ef Hin Hb.
  destruct (Bool.eqb b (mem who have_trait)) eqn:E;
    [symmetry; apply Bool.eqb_prop; exact E|].
  exfalso.
  assert (Ht : fails_evidence people have_trait = true).
  { unfold fails_evidence; apply existsb_exists.
    exists (who, p); split; trivial; simpl.
    rewrite Hb, E; reflexivity. }
  congruence.
Qed.

(** The people observed with the trait form a hypothesis that passes the
    evidence test, so at least one hypothesis is enumerated. *)
Lemma hypotheses_nonempty (people : dict person) :
  NoDup (keys people) -> hypotheses people <> [].
Proof.
  intros Hnd.
  set (ht := filter (observed_true people) (iter (keys people))).
  assert (Hin : In (ht, [], []) (hypotheses people)).
  { apply hypotheses_In.
    split; [apply powerset_filter|].
    split; [|split; apply powerset_nil].
    unfold fails_evidence.
    destruct (existsb _ people) eqn:E; [|reflexivity].
    exfalso; apply existsb_exists in E.
    destruct E as ([who p] & Hwp & Hf); simpl in Hf.
    destruct (trait p) as [t|] eqn:Et; [|discriminate].
    assert (Eobs : observed_true people who = t).
    { unfold observed_true; rewrite (@dict_get_NoDup _ people who p Hnd Hwp), Et.
      destruct t; reflexivity. }
    assert (Emem : mem who ht = t).
    { destruct t.
      - apply mem_In; unfold ht; apply filter_In; split; [|exact Eobs].
        apply iter_In; change who with (fst (who, p)); apply in_map; exact Hwp.
      - apply mem_not_In; unfold ht; rewrite filter_In.
        intros [_ Habs]; congruence. }
    rewrite Emem in Hf; destruct t; discriminate. }
  intros E; rewrite E in Hin; destruct Hin.
Qed.

End Evidence.

(** ** Normalization *)

Section ExactNormalize.

Local Open Scope Qc_scope.

Lemma normalize_balanced (mass : Qc) (probabilities : dict (dist Qc)) :
  mass <> 0 ->
  balanced mass probabilities ->
  exists final,
    normalize probabilities = Ok final /\
    Forall2 (scaled mass) probabilities final.
Proof.
  intros Hm; unfold normalize.
  induction probabilities as [|[who d] rest IH]; intros Hb; cbn [map_result].
  - exists []; split; [reflexivity | constructor].
  - destruct (Hb who d (or_introl eq_refl)) as [Eg Et].
    destruct IH as (final & Efinal & HF).
    { intros who' d' Hin; apply (Hb who' d'); right; exact Hin. }
    unfold normalize_entry at 1; cbv zeta.
    rewrite Eg, Et, !(exact_div _ Hm), Efinal; cbn [bind].
    eexists; split; [reflexivity|].
    constructor; [split; reflexivity | exact HF].
Qed.

End ExactNormalize.

(** ** A single founder without evidence *)

Section SingleFounder.

Context {T : Type} {arith : Arith T}.

Definition rename (who : string) (probabilities : dict (dist T)) : dict (dist T) :=
  map (fun entry => (who, snd entry)) probabilities.

Lemma iter_singleton {order : SetOrder} (x : string) : iter [x] = [x].
Proof.
  apply Permutation_length_1_inv, iter_perm.
Qed.

Lemma single_founder_hypotheses {order : SetOrder} (who n : string) :
  hypotheses [(who, Person n None None None)] =
  [([], [], []); ([], [], [who]); ([], [who], []);
   ([who], [], []); ([who], [], [who]); ([who], [who], [])].
Proof.
  unfold hypotheses, powerset, set_diff, fails_evidence; simpl.
  rewrite iter_singleton; simpl.
  rewrite String.eqb_refl; simpl.
  rewrite iter_nil, iter_singleton; reflexivity.
Qed.

(** The loops of [main] on a single unobserved founder do what they do on
    [harry], whatever the person's name and the iteration order. *)
Lemma single_founder_accumulate {order : SetOrder} (who n : string) :
  accumulate [(who, Person n None None None)] =
  probabilities <- accumulate (order := insertion_order) harry ;;
  Ok (rename who probabilities).
Proof.
  rewrite !accumulate_hypotheses, single_founder_hypotheses.
  unfold hypotheses, powerset, harry; simpl.
  unfold accumulate_one, joint_probability, update, joint_step, gene_prob,
    update_entry, genes_of, mem_opt, mem; simpl.
  repeat first [rewrite !String.eqb_refl | progress simpl].
  reflexivity.
Qed.

Lemma normalize_rename (who : string) (probabilities : dict (dist T)) :
  normalize (rename who probabilities) =
  final <- normalize probabilities ;; Ok (rename who final).
Proof.
  unfold normalize, rename.
  induction probabilities as [|[who0 d] rest IH]; cbn [map map_result]; trivial.
  rewrite IH; cbn [snd].
  unfold normalize_entry; cbv zeta.
  repeat match goal with
  | |- context [div ?x ?y] => destruct (div x y); cbn [bind]; trivial
  end.
  destruct (map_result _ rest); reflexivity.
Qed.

Lemma single_founder_main {order : SetOrder} (who n : string) :
  main [(who, Person n None None None)] =
  final <- main (order := insertion_order) harry ;; Ok (rename who final).
Proof.
  unfold main; rewrite single_founder_accumulate.
  destruct (accumulate harry) as [probabilities|e]; cbn [bind]; trivial.
  apply normalize_rename.
Qed.

End SingleFounder.

(** C6, as stated, fails on binary64: for a single unobserved founder the
    final weight of one copy is 0.030000000000000002, which is neither
    the double 0.03 of the prior table nor the number 3/100, under both
    algorithms of [sum]. *)
Lemma single_founder_prior_counterexample :
  exists d,
    main (arith := binary64) (order := insertion_order) harry
      = Ok [("Harry", d)] /\
    main (arith := binary64_py312) (order := insertion_order) harry
      = Ok [("Harry", d)] /\
    one (dist_gene d) <> float_lit 3 2 /\
    ~ Qeq (float_to_Q (one (dist_gene d))) (Qmake 3 100) /\
    dist_gene d <> ByGenes (float_lit 1 2) (float_lit 3 2) (float_lit 96 2).
Proof.
  eexists.
  split; [vm_compute; reflexivity|].
  split; [vm_compute; reflexivity|].
  match goal with
  | |- ?A /\ _ => assert (HA : A) by (intros E; float_discriminate E)
  end.
  split; [exact HA|].
  split; [intros E; apply Qeq_bool_iff in E; vm_compute in E; discriminate E|].
  intros E; apply HA.
  apply (f_equal (@one float)) in E; exact E.
Qed.

(** The run on [harry] under both algorithms of [sum]. *)
Lemma harry_binary64 :
  exists t,
    main (arith := binary64) (order := insertion_order) harry =
      Ok [("Harry",
           Dist (ByGenes (float_lit 1 2) (PrimFloat.next_up (float_lit 3 2))
                         (float_lit 96 2)) t)] /\
    main (arith := binary64_py312) (order := insertion_order) harry =
      Ok [("Harry",
           Dist (ByGenes (float_lit 1 2) (PrimFloat.next_up (float_lit 3 2))
                         (float_lit 96 2)) t)].
Proof. eexists; split; vm_compute; reflexivity. Qed.

(** C6, amended. For a population made of a single founder with an
    unobserved trait, whatever the name and the iteration order of sets:
    in exact arithmetic the final gene distribution is the prior table,
    0.96 for 0 copies, 0.03 for 1 copy, 0.01 for 2 copies (and the trait
    distribution is 0.0329 against 0.9671); on binary64, under both
    algorithms of [sum], the weights of 0 and 2 copies are the doubles
    0.96 and 0.01 and the weight of 1 copy is the double next above
    0.03. *)
Theorem single_founder_posterior :
  (forall (order : SetOrder) (who n : string),
     main (arith := exact) [(who, Person n None None None)] =
     Ok [(who, Dist (ByGenes (lit 1 2) (lit 3 2) (lit 96 2))
                    (ByTrait (lit 329 4) (lit 9671 4)))]) /\
  (exists t,
     forall (order : SetOrder) (who n : string),
       main (arith := binary64) [(who, Person n None None None)] =
         Ok [(who,
              Dist (ByGenes (float_lit 1 2) (PrimFloat.next_up (float_lit 3 2))
                            (float_lit 96 2)) t)] /\
       main (arith := binary64_py312) [(who, Person n None None None)] =
         Ok [(who,
              Dist (ByGenes (float_lit 1 2) (PrimFloat.next_up (float_lit 3 2))
                            (float_lit 96 2)) t)]).
Proof.
  split.
  - intros order who n.
    rewrite single_founder_main.
    assert (E : main (arith := exact) (order := insertion_order) harry =
                Ok [("Harry", Dist (ByGenes (lit 1 2) (lit 3 2) (lit 96 2))
                                   (ByTrait (lit 329 4) (lit 9671 4)))]).
    { vm_compute.
      repeat match goal with
      | |- @eq Qc _ _ => apply Qc_decomp; reflexivity
      | |- _ => f_equal
      end. }
    rewrite E; reflexivity.
  - destruct harry_binary64 as (t & E1 & E2).
    exists t; intros order who n.
    rewrite !single_founder_main, E1, E2; split; reflexivity.
Qed.

(** ** Checks of the embedding on binary64 *)

(** On the family of [family0.csv] the run gives, to four decimals, the
    figures the course publishes for this program; the two observed
    traits come out as exactly 1.0 and 0.0. *)
Lemma family0_binary64 :
  exists harry_d james_d lily_d,
    main (arith := binary64) (order := insertion_order) family0
      = Ok [("Harry", harry_d); ("James", james_d); ("Lily", lily_d)] /\
    dist_trait james_d = ByTrait (float_of_Z 1) (float_of_Z 0) /\
    dist_trait lily_d = ByTrait (float_of_Z 0) (float_of_Z 1) /\
    forallb
      (fun c : float * Z =>
         PrimFloat.ltb (PrimFloat.abs (PrimFloat.sub (fst c) (float_lit (snd c) 4)))
                       (float_lit 5 5))
      [(two (dist_gene harry_d), 92%Z); (one (dist_gene harry_d), 4557%Z);
       (zero (dist_gene harry_d), 5351%Z);
       (yes (dist_trait harry_d), 2665%Z); (no (dist_trait harry_d), 7335%Z);
       (two (dist_gene james_d), 1976%Z); (one (dist_gene james_d), 5106%Z);
       (zero (dist_gene james_d), 2918%Z);
       (two (dist_gene lily_d), 36%Z); (one (dist_gene lily_d), 136%Z);
       (zero (dist_gene lily_d), 9827%Z)] = true.
Proof.
  do 3 eexists.
  split; [vm_compute; reflexivity|].
  repeat split; vm_compute; reflexivity.
Qed.

(** ** Further properties in exact arithmetic *)

(** X1. After [main], in exact arithmetic, both distributions of every person
    sum to exactly 1. *)
Theorem normalized_totals_are_one {order : SetOrder} (people : dict person) :
  NoDup (keys people) ->
  exists final,
    main (arith := exact) people = Ok final /\
    keys final = keys people /\
    balanced (of_int 1) final.
Proof.
  intros Hnd.
  destruct (accumulate_loop_balanced people (hypotheses people)
              (initial_balanced people))
    as (probs & mass & Eacc & Emass & Ekeys & Hbal).
  rewrite <- accumulate_hypotheses in Eacc.
  rewrite initial_keys in Ekeys.
  assert (Hpos : (0 < mass)%Qc).
  { apply (mass_loop_pos people (hypotheses people) (Qcle_refl _) Emass).
    apply hypotheses_nonempty; exact Hnd. }
  assert (Hm : mass <> Q2Qc (Qmake 0 1)).
  { intros E; rewrite E in Hpos; discriminate Hpos. }
  destruct (normalize_balanced Hm Hbal) as (final & Enorm & HF).
  exists final.
  split; [unfold main; rewrite Eacc; exact Enorm|].
  split.
  { rewrite <- Ekeys; apply (Forall2_keys HF); intros x y Hxy; apply Hxy. }
  intros who d Hin.
  destruct (Forall2_In_r HF Hin) as ([who0 d0] & Hin0 & _ & Ed).
  destruct (Hbal _ _ Hin0) as [Eg Et].
  rewrite exact_gene_total in Eg; rewrite exact_trait_total in Et.
  cbn [snd] in Ed; rewrite Ed, exact_gene_total, exact_trait_total, exact_one.
  cbn [dist_gene dist_trait two one zero yes no quotient exact].
  split.
  - transitivity (((two (dist_gene d0) + one (dist_gene d0)
                    + zero (dist_gene d0)) / mass)%Qc);
      [field; exact Hm | rewrite Eg; field; exact Hm].
  - transitivity (((yes (dist_trait d0) + no (dist_trait d0)) / mass)%Qc);
      [field; exact Hm | rewrite Et; field; exact Hm].
Qed.

Lemma normalized_totals_are_one_witness :
  exists final,
    main (arith := exact) (order := insertion_order) family0 = Ok final /\
    keys final = keys family0 /\
    balanced (of_int 1) final.
Proof.
  apply (@normalized_totals_are_one insertion_order family0).
  repeat constructor; simpl; intuition discriminate.
Defined.

(** A single founder observed with the trait: the loops leave the gene
    weights 0.01 * 0.65, 0.03 * 0.56 and 0.96 * 0.01, and [normalize]
    divides them by their total 0.0329. *)
Lemma founder_with_trait_posterior :
  accumulate (arith := exact) (order := insertion_order) harry_with_trait =
    Ok [("Harry", Dist (ByGenes (lit 65 4) (lit 168 4) (lit 96 4))
                       (ByTrait (lit 329 4) (of_int 0)))] /\
  main (arith := exact) (order := insertion_order) harry_with_trait =
    Ok [("Harry",
         Dist (ByGenes (Q2Qc (Qmake 65 329)) (Q2Qc (Qmake 168 329))
                       (Q2Qc (Qmake 96 329)))
              (ByTrait (of_int 1) (of_int 0)))].
Proof.
  split; vm_compute;
    repeat match goal with
    | |- @eq Qc _ _ => apply Qc_decomp; reflexivity
    | |- _ => f_equal
    end.
Qed.

(** ** The power set *)

Unset Implicit Arguments.

Lemma subseq_nil_l {A : Type} (s : list A) : subseq [] s.
Proof.
  induction s; constructor; assumption.
Qed.

Lemma subseq_In {A : Type} (t s : list A) (x : A) :
  subseq t s -> In x t -> In x s.
Proof.
  induction 1 as [|y t s Hts IH|y t s Hts IH]; simpl; intuition.
Qed.

Lemma subseq_length {A : Type} (t s : list A) :
  subseq t s -> List.length t <= List.length s.
Proof.
  induction 1; simpl; lia.
Qed.

Lemma subseq_NoDup {A : Type} (t s : list A) :
  subseq t s -> NoDup s -> NoDup t.
Proof.
  induction 1 as [|y t s Hts IH|y t s Hts IH]; intros Hnd; trivial;
    inversion Hnd as [|? ? Hy Hs]; subst; auto.
  constructor; auto.
  intros Hin; apply Hy; eapply subseq_In; eassumption.
Qed.

Lemma combinations_subseq {A : Type} (s : list A) :
  forall t r, In t (combinations s r) <-> subseq t s /\ List.length t = r.
Proof.
  induction s as [|x s IH]; intros t [|r]; simpl.
  - split; [intros [<-|[]]; split; [constructor | reflexivity]|].
    intros [H E]; destruct t; [auto | discriminate].
  - split; [intros [] | intros [H E]; inversion H; subst; discriminate].
  - split; [intros [<-|[]]; split; [apply subseq_nil_l | reflexivity]|].
    intros [H E]; destruct t; [auto | discriminate].
  - rewrite in_app_iff, in_map_iff; split.
    + intros [(t' & <- & Hin)|Hin].
      * apply IH in Hin; destruct Hin as [Hs El]; split;
          [constructor; assumption | simpl; congruence].
      * apply IH in Hin; destruct Hin as [Hs El]; split;
          [constructor; assumption | assumption].
    + intros [Hs El]; inversion Hs as [|y t' s' Hs'|y t' s' Hs']; subst.
      * left; exists t'; split; trivial.
        apply IH; split; trivial; simpl in El; congruence.
      * right; apply IH; split; trivial.
Qed.

Lemma subseq_same_members {A : Type} (s t1 t2 : list A) :
  NoDup s -> subseq t1 s -> subseq t2 s ->
  (forall x, In x t1 <-> In x t2) -> t1 = t2.
Proof.
  intros Hnd H1; revert t2.
  induction H1 as [|x t1 s H1 IH|x t1 s H1 IH]; intros t2 H2 Hsame.
  - destruct t2 as [|y t2]; trivial.
    destruct (proj2 (Hsame y) (or_introl eq_refl)).
  - inversion Hnd as [|? ? Hx Hs]; subst.
    inversion H2 as [|y t2' s' H2'|y t2' s' H2']; subst.
    + f_equal; apply IH; trivial.
      intros z; split; intros Hz.
      * destruct (proj1 (Hsame z) (or_intror Hz)) as [->|]; trivial.
        exfalso; apply Hx; exact (@subseq_In _ t1 s z H1 Hz).
      * destruct (proj2 (Hsame z) (or_intror Hz)) as [->|]; trivial.
        exfalso; apply Hx; exact (@subseq_In _ t2' s z H2' Hz).
    + exfalso; apply Hx.
      apply (@subseq_In _ t2 s x H2'), Hsame; left; reflexivity.
  - inversion Hnd as [|? ? Hx Hs]; subst.
    inversion H2 as [|y t2' s' H2'|y t2' s' H2']; subst.
    + exfalso; apply Hx.
      apply (@subseq_In _ t1 s x H1), Hsame; left; reflexivity.
    + apply IH; trivial.
Qed.

Lemma combinations_beyond {A : Type} (s : list A) :
  forall r, List.length s < r -> combinations s r = [].
Proof.
  induction s as [|x s IH]; intros [|r] Hr; simpl in *; try lia; trivial.
  rewrite (IH r), (IH (S r)) by lia; reflexivity.
Qed.

Lemma combinations_0 {A : Type} (s : list A) : combinations s 0 = [[]].
Proof. destruct s; reflexivity. Qed.

Lemma flat_map_seq_S {B : Type} (f : nat -> list B) (n : nat) :
  flat_map f (seq 0 (S n)) = f 0 ++ flat_map (fun r => f (S r)) (seq 0 n).
Proof.
  cbn [seq flat_map].
  rewrite <- seq_shift, flat_map_concat_map, map_map, <- flat_map_concat_map.
  reflexivity.
Qed.

Lemma flat_map_split {B C : Type} (f g : B -> list C) (rs : list B) :
  Permutation (flat_map (fun r => f r ++ g r) rs)
              (flat_map f rs ++ flat_map g rs).
Proof.
  induction rs as [|r rs IH]; simpl; trivial.
  rewrite <- !app_assoc; apply Permutation_app_head.
  etransitivity; [apply Permutation_app_head, IH|].
  apply Permutation_app_swap_app.
Qed.

Lemma map_flat_map {B C D : Type} (h : C -> D) (f : B -> list C) (rs : list B) :
  map h (flat_map f rs) = flat_map (fun r => map h (f r)) rs.
Proof.
  induction rs as [|r rs IH]; simpl; trivial.
  rewrite map_app, IH; reflexivity.
Qed.

(** Listing the combinations by size is a rearrangement of
    [subsequences]. *)
Lemma combinations_by_size_cons {A : Type} (x : A) (s : list A) (n : nat) :
  Permutation
    (flat_map (combinations (x :: s)) (seq 0 (S (S n))))
    (map (cons x) (flat_map (combinations s) (seq 0 (S n)))
     ++ flat_map (combinations s) (seq 0 (S (S n)))).
Proof.
  rewrite (flat_map_seq_S (combinations (x :: s))).
  rewrite (flat_map_seq_S (combinations s) (S n)).
  rewrite map_flat_map.
  rewrite !combinations_0.
  etransitivity; [|apply Permutation_middle].
  constructor.
  apply (flat_map_split (fun r => map (cons x) (combinations s r))
                        (fun r => combinations s (S r))).
Qed.

Lemma combinations_by_size {A : Type} (s : list A) :
  Permutation (flat_map (combinations s) (seq 0 (S (List.length s))))
              (subsequences s).
Proof.
  induction s as [|x s IH]; [simpl; auto|].
  cbn [List.length subsequences].
  etransitivity; [apply combinations_by_size_cons|].
  rewrite (seq_S (S (List.length s)) 0), flat_map_app; cbn [flat_map].
  rewrite (combinations_beyond s (0 + S (List.length s))) by lia.
  rewrite !app_nil_r.
  apply Permutation_app; [apply Permutation_map|]; exact IH.
Qed.

Lemma subsequences_subseq {A : Type} (s : list A) :
  forall t, In t (subsequences s) <-> subseq t s.
Proof.
  induction s as [|x s IH]; intros t; simpl.
  - split; [intros [<-|[]]; constructor | intros H; inversion H; auto].
  - rewrite in_app_iff, in_map_iff; split.
    + intros [(t' & <- & Hin)|Hin]; constructor; apply IH; assumption.
    + intros H; inversion H as [|y t' s' H'|y t' s' H']; subst.
      * left; exists t'; split; trivial; apply IH; assumption.
      * right; apply IH; assumption.
Qed.

Lemma subsequences_length {A : Type} (s : list A) :
  List.length (subsequences s) = 2 ^ List.length s.
Proof.
  induction s as [|x s IH]; simpl; trivial.
  rewrite length_app, length_map, IH; lia.
Qed.

Lemma NoDup_map_cons {A : Type} (x : A) (ts : list (list A)) :
  NoDup ts -> NoDup (map (cons x) ts).
Proof.
  induction 1 as [|t ts Ht Hts IH]; simpl; constructor; trivial.
  rewrite in_map_iff; intros (t' & E & Hin); inversion E; subst; auto.
Qed.

Lemma subsequences_NoDup {A : Type} (s : list A) :
  NoDup s -> NoDup (subsequences s).
Proof.
  induction 1 as [|x s Hx Hs IH]; simpl.
  - constructor; [intros [] | constructor].
  - apply NoDup_app; [apply NoDup_map_cons; exact IH | exact IH |].
    intros t Hin Hin'.
    apply in_map_iff in Hin; destruct Hin as (t' & <- & _).
    apply subsequences_subseq in Hin'.
    apply Hx; apply (@subseq_In _ (x :: t') s x Hin'); left; reflexivity.
Qed.

Section PowerSet.

Context {order : SetOrder}.

Lemma iter_length (s : pyset) : List.length (iter s) = List.length s.
Proof.
  symmetry; apply Permutation_length, iter_perm.
Qed.

Lemma iter_NoDup (s : pyset) : NoDup s -> NoDup (iter s).
Proof.
  apply Permutation_NoDup, iter_perm.
Qed.

Lemma powerset_subsequences (s : pyset) :
  Permutation (powerset s) (subsequences (iter s)).
Proof.
  unfold powerset; rewrite Nat.add_1_r; apply combinations_by_size.
Qed.

Lemma powerset_subseq (s t : pyset) : In t (powerset s) <-> subseq t (iter s).
Proof.
  rewrite <- subsequences_subseq; split; apply Permutation_in;
    [|apply Permutation_sym]; apply powerset_subsequences.
Qed.

End PowerSet.

Lemma powerset_size {order : SetOrder} (s : pyset) :
  List.length (powerset s) = 2 ^ List.length s.
Proof.
  rewrite (Permutation_length (powerset_subsequences s)).
  unfold pyset; rewrite subsequences_length, iter_length; reflexivity.
Qed.

(** X2. [powerset(s)] has 2^len(s) elements, whatever the iteration order. *)
Theorem powerset_length {order : SetOrder} (s : pyset) :
  List.length (powerset s) = 2 ^ List.length s.
Proof.
  rewrite (Permutation_length (powerset_subsequences s)).
  unfold pyset; rewrite subsequences_length, iter_length; reflexivity.
Qed.

(** X3. For a set [s] (a list without repetition), [powerset(s)] lists the
    subsets of [s] and nothing else, each one once: every element is a
    duplicate-free list of members of [s]; every selection of members
    occurs; two elements with the same members are the same element; and
    no element is repeated. *)
Theorem powerset_enumerates_subsets {order : SetOrder} (s : pyset) :
  NoDup s ->
  (forall t, In t (powerset s) -> NoDup t /\ incl t s) /\
  (forall f : string -> bool,
     exists t, In t (powerset s) /\ forall x, mem x t = mem x s && f x) /\
  (forall t1 t2, In t1 (powerset s) -> In t2 (powerset s) ->
     same_members t1 t2 -> t1 = t2) /\
  NoDup (powerset s).
Proof.
  intros Hnd.
  assert (Hi := iter_NoDup s Hnd).
  split; [|split; [|split]].
  - intros t Ht; apply powerset_subseq in Ht; split.
    + apply (subseq_NoDup _ _ Ht Hi).
    + intros x Hx; apply iter_In; apply (@subseq_In _ t (iter s) x Ht Hx).
  - intros f; exists (filter f (iter s)); split; [apply powerset_filter|].
    intros x.
    destruct (mem x s && f x) eqn:E.
    + apply andb_prop in E; destruct E as [Hm Hf].
      apply mem_In, filter_In; split; trivial.
      apply iter_In, mem_In; exact Hm.
    + apply mem_not_In; rewrite filter_In, iter_In, <- mem_In.
      intros [Hm Hf]; rewrite Hm, Hf in E; discriminate.
  - intros t1 t2 H1 H2 Hsame.
    apply powerset_subseq in H1, H2.
    apply (subseq_same_members _ _ _ Hi H1 H2 Hsame).
  - apply (Permutation_NoDup (Permutation_sym (powerset_subsequences s))).
    apply subsequences_NoDup; exact Hi.
Qed.

Lemma powerset_enumerates_subsets_witness :
  (forall t, In t (powerset (order := insertion_order) ["Harry"; "James"]) ->
     NoDup t /\ incl t ["Harry"; "James"]) /\
  (forall f : string -> bool,
     exists t, In t (powerset (order := insertion_order) ["Harry"; "James"]) /\
               forall x, mem x t = mem x ["Harry"; "James"] && f x) /\
  (forall t1 t2,
     In t1 (powerset (order := insertion_order) ["Harry"; "James"]) ->
     In t2 (powerset (order := insertion_order) ["Harry"; "James"]) ->
     same_members t1 t2 -> t1 = t2) /\
  NoDup (powerset (order := insertion_order) ["Harry"; "James"]).
Proof.
  apply (@powerset_enumerates_subsets insertion_order ["Harry"; "James"]).
  repeat constructor; simpl; intuition discriminate.
Defined.

(** ** The hypotheses that [main] enumerates *)

Lemma NoDup_flat_map_tagged {A B : Type} (f : A -> list B) (tag : B -> A)
    (xs : list A) :
  NoDup xs ->
  (forall x, In x xs -> NoDup (f x)) ->
  (forall x y, In y (f x) -> tag y = x) ->
  NoDup (flat_map f xs).
Proof.
  intros Hnd Hf Htag.
  induction Hnd as [|x xs Hx Hxs IH]; simpl; [constructor|].
  apply NoDup_app.
  - apply Hf; left; reflexivity.
  - apply IH; intros; apply Hf; right; assumption.
  - intros y Hy Hy'.
    apply in_flat_map in Hy'; destruct Hy' as (x' & Hx' & Hy').
    apply Htag in Hy, Hy'; subst; auto.
Qed.

Lemma NoDup_map_tagged {A B : Type} (f : A -> B) (tag : B -> A) (xs : list A) :
  NoDup xs -> (forall x, tag (f x) = x) -> NoDup (map f xs).
Proof.
  intros Hnd Htag.
  induction Hnd as [|x xs Hx Hxs IH]; simpl; constructor; trivial.
  rewrite in_map_iff; intros (x' & E & Hx').
  apply (f_equal tag) in E; rewrite !Htag in E; subst; auto.
Qed.

Lemma set_diff_In (s t : pyset) (x : string) :
  In x (set_diff s t) <-> In x s /\ ~ In x t.
Proof.
  unfold set_diff; rewrite filter_In, negb_true_iff, mem_not_In; reflexivity.
Qed.

Lemma set_diff_NoDup (s t : pyset) : NoDup s -> NoDup (set_diff s t).
Proof. apply NoDup_filter. Qed.

Section Hypotheses.

Context {order : SetOrder}.

Lemma powerset_incl (s t : pyset) : In t (powerset s) -> incl t s.
Proof.
  intros Ht x Hx; apply powerset_subseq in Ht.
  apply iter_In; apply (@subseq_In _ t (iter s) x Ht Hx).
Qed.

Lemma powerset_NoDup_elem (s t : pyset) : NoDup s -> In t (powerset s) -> NoDup t.
Proof.
  intros Hnd Ht; apply powerset_subseq in Ht.
  apply (subseq_NoDup _ _ Ht (iter_NoDup s Hnd)).
Qed.

Lemma powerset_NoDup (s : pyset) : NoDup s -> NoDup (powerset s).
Proof.
  intros Hnd.
  apply (Permutation_NoDup (Permutation_sym (powerset_subsequences s))).
  apply subsequences_NoDup, iter_NoDup, Hnd.
Qed.

Lemma hypotheses_NoDup (people : dict person) :
  NoDup (keys people) -> NoDup (hypotheses people).
Proof.
  intros Hnd; unfold hypotheses.
  apply (NoDup_flat_map_tagged _ (fun h => fst (fst h)));
    [apply powerset_NoDup; exact Hnd | |].
  - intros ht _; destruct (fails_evidence people ht); [constructor|].
    apply (NoDup_flat_map_tagged _ (fun h => snd (fst h)));
      [apply powerset_NoDup; exact Hnd | |].
    + intros og _.
      apply (NoDup_map_tagged _ (fun h => snd h)); [|reflexivity].
      apply powerset_NoDup, set_diff_NoDup, Hnd.
    + intros og h Hh; apply in_map_iff in Hh.
      destruct Hh as (tg & <- & _); reflexivity.
  - intros ht h Hh; destruct (fails_evidence people ht); [destruct Hh|].
    apply in_flat_map in Hh; destruct Hh as (og & _ & Hh).
    apply in_map_iff in Hh; destruct Hh as (tg & <- & _); reflexivity.
Qed.

End Hypotheses.

(** X4. The loops of [main] enumerate the hypotheses that agree with the
    evidence, each one once.  For a dict of people: (1) in every enumerated
    triple the three sets are duplicate-free subsets of the names, the
    one-copy set and the two-copy set are disjoint, and every person with
    an observed trait is in the trait set exactly when observed with the
    trait; (2) every assignment of a gene count 0, 1 or 2 and of a trait
    value to the names that agrees with the observed traits is the one of
    some enumerated triple; (3) no triple is enumerated twice. *)
Theorem hypotheses_enumerate_consistent_assignments {order : SetOrder}
    (people : dict person) :
  NoDup (keys people) ->
  (forall ht og tg, In (ht, og, tg) (hypotheses people) ->
     (incl ht (keys people) /\ incl og (keys people) /\ incl tg (keys people)) /\
     (NoDup ht /\ NoDup og /\ NoDup tg) /\
     (forall x, In x og -> ~ In x tg) /\
     (forall who p b, In (who, p) people -> trait p = Some b ->
        mem who ht = b)) /\
  (forall (genes : string -> nat) (has_trait : string -> bool),
     (forall who, genes who <= 2) ->
     (forall who p b, In (who, p) people -> trait p = Some b ->
        has_trait who = b) ->
     exists ht og tg,
       In (ht, og, tg) (hypotheses people) /\
       forall who, In who (keys people) ->
         mem who ht = has_trait who /\
         genes_of og tg (Some who) = genes who) /\
  NoDup (hypotheses people).
Proof.
  intros Hnd; split; [|split; [|apply hypotheses_NoDup; exact Hnd]].
  - intros ht og tg Hh; apply hypotheses_In in Hh.
    destruct Hh as (Hht & Hev & Hog & Htg).
    split; [|split; [|split]].
    + split; [apply powerset_incl; exact Hht|].
      split; [apply powerset_incl; exact Hog|].
      intros x Hx; apply (powerset_incl _ _ Htg) in Hx.
      apply set_diff_In in Hx; apply Hx.
    + split; [apply (powerset_NoDup_elem _ _ Hnd Hht)|].
      split; [apply (powerset_NoDup_elem _ _ Hnd Hog)|].
      apply (powerset_NoDup_elem _ _ (set_diff_NoDup _ og Hnd) Htg).
    + intros x Hx Hx'; apply (powerset_incl _ _ Htg) in Hx'.
      apply set_diff_In in Hx'; apply Hx'; exact Hx.
    + intros who p b Hin Hb; eapply evidence_forces; eassumption.
  - intros genes has_trait Hrange Hev.
    set (ht := filter has_trait (iter (keys people))).
    set (og := filter (fun x => Nat.eqb (genes x) 1) (iter (keys people))).
    set (tg := filter (fun x => Nat.eqb (genes x) 2)
                      (iter (set_diff (keys people) og))).
    assert (Hmem_ht : forall who, In who (keys people) ->
                        mem who ht = has_trait who).
    { intros who Hwho; destruct (has_trait who) eqn:E.
      - apply mem_In, filter_In; split; [apply iter_In; exact Hwho | exact E].
      - apply mem_not_In; unfold ht; rewrite filter_In; intros [_ F]; congruence. }
    assert (Hmem_og : forall who, In who (keys people) ->
                        mem who og = Nat.eqb (genes who) 1).
    { intros who Hwho; destruct (Nat.eqb (genes who) 1) eqn:E.
      - apply mem_In, filter_In; split; [apply iter_In; exact Hwho | exact E].
      - apply mem_not_In; unfold og; rewrite filter_In; intros [_ F]; congruence. }
    assert (Hmem_tg : forall who, In who (keys people) ->
                        mem who tg = Nat.eqb (genes who) 2).
    { intros who Hwho; destruct (Nat.eqb (genes who) 2) eqn:E.
      - apply mem_In, filter_In; split; [|exact E].
        apply iter_In, set_diff_In; split; [exact Hwho|].
        rewrite <- mem_not_In, (Hmem_og who Hwho).
        apply Nat.eqb_eq in E; rewrite E; reflexivity.
      - apply mem_not_In; unfold tg; rewrite filter_In; intros [_ F]; congruence. }
    exists ht, og, tg; split.
    + apply hypotheses_In.
      split; [apply powerset_filter|].
      split; [|split; apply powerset_filter].
      unfold fails_evidence.
      destruct (existsb _ people) eqn:E; [|reflexivity].
      exfalso; apply existsb_exists in E.
      destruct E as ([who p] & Hwp & Hf); simpl in Hf.
      destruct (trait p) as [t|] eqn:Et; [|discriminate].
      rewrite Hmem_ht, (Hev who p t Hwp Et) in Hf;
        [destruct t; discriminate|].
      change who with (fst (who, p)); apply in_map; exact Hwp.
    + intros who Hwho; split; [apply Hmem_ht; exact Hwho|].
      unfold genes_of, mem_opt.
      rewrite (Hmem_tg who Hwho), (Hmem_og who Hwho).
      assert (Hr := Hrange who).
      destruct (genes who) as [|[|[|g]]]; simpl; trivial; lia.
Qed.

Lemma hypotheses_enumerate_consistent_assignments_witness :
  NoDup (hypotheses (order := insertion_order) family0).
Proof.
  apply (@hypotheses_enumerate_consistent_assignments insertion_order family0).
  repeat constructor; simpl; intuition discriminate.
Defined.

(** ** How many hypotheses *)

Lemma filter_partition_length {A : Type} (f : A -> bool) (l : list A) :
  List.length (filter f l) + List.length (filter (fun x => negb (f x)) l)
  = List.length l.
Proof.
  induction l as [|x l IH]; simpl; trivial.
  destruct (f x); simpl; lia.
Qed.

Lemma set_diff_length (s t : pyset) :
  NoDup s -> NoDup t -> incl t s ->
  List.length (set_diff s t) = List.length s - List.length t.
Proof.
  intros Hs Ht Hincl.
  assert (E : List.length (filter (fun x => mem x t) s) = List.length t).
  { apply Permutation_length, NoDup_Permutation;
      [apply NoDup_filter; exact Hs | exact Ht |].
    intros x; rewrite filter_In, mem_In; split; [tauto | auto]. }
  assert (P := filter_partition_length (fun x => mem x t) s).
  cbv beta in P; unfold set_diff; lia.
Qed.

Lemma list_sum_map_ext {A : Type} (f g : A -> nat) (l : list A) :
  (forall x, In x l -> f x = g x) ->
  list_sum (map f l) = list_sum (map g l).
Proof.
  intros E; f_equal; apply map_ext_in; exact E.
Qed.

Lemma list_sum_map_mul {A : Type} (c : nat) (f : A -> nat) (l : list A) :
  list_sum (map (fun x => c * f x) l) = c * list_sum (map f l).
Proof.
  induction l as [|x l IH]; simpl; [lia|].
  rewrite IH; lia.
Qed.

(** A subset and a subset of what it leaves: 3^n pairs. *)
Lemma subsequences_weight {A : Type} (l : list A) :
  list_sum (map (fun t => 2 ^ (List.length l - List.length t)) (subsequences l))
  = 3 ^ List.length l.
Proof.
  induction l as [|x l IH]; [reflexivity|].
  cbn [subsequences]; rewrite map_app, map_map, list_sum_app.
  rewrite (list_sum_map_ext
             (fun t => 2 ^ (List.length (x :: l) - List.length (x :: t)))
             (fun t => 2 ^ (List.length l - List.length t)))
    by reflexivity.
  rewrite (list_sum_map_ext
             (fun t => 2 ^ (List.length (x :: l) - List.length t))
             (fun t => 2 * 2 ^ (List.length l - List.length t))).
  - rewrite list_sum_map_mul, IH; cbn [List.length Nat.pow]; lia.
  - intros t Ht; apply subsequences_subseq, subseq_length in Ht.
    cbn [List.length].
    replace (S (List.length l) - List.length t)
      with (S (List.length l - List.length t)) by lia.
    reflexivity.
Qed.

Lemma guarded_flat_map_length {A B : Type} (skip : A -> bool) (f : A -> list B)
    (k : nat) (xs : list A) :
  (forall x, List.length (f x) = k) ->
  List.length (flat_map (fun x => if skip x then [] else f x) xs)
  = List.length (filter (fun x => negb (skip x)) xs) * k.
Proof.
  intros Hf; induction xs as [|x xs IH]; [reflexivity|].
  cbn [flat_map filter]; rewrite length_app, IH.
  destruct (skip x); cbn [negb List.length]; [reflexivity|].
  rewrite Hf; lia.
Qed.

Section Counting.

Context {order : SetOrder}.

Lemma gene_partitions_length (names : pyset) :
  NoDup names ->
  list_sum (map (fun og => List.length (powerset (set_diff names og)))
                (powerset names))
  = 3 ^ List.length names.
Proof.
  intros Hnd.
  rewrite (@list_sum_map_ext pyset _
             (fun og => 2 ^ (List.length (iter names) - List.length og))).
  - rewrite (Permutation_map _ (powerset_subsequences names)).
    unfold pyset; rewrite subsequences_weight, iter_length; reflexivity.
  - intros og Hog.
    rewrite powerset_size, iter_length.
    rewrite set_diff_length;
      [reflexivity | exact Hnd | apply (powerset_NoDup_elem _ _ Hnd Hog)
       | apply powerset_incl; exact Hog].
Qed.

Lemma hypotheses_length_product (people : dict person) :
  NoDup (keys people) ->
  List.length (hypotheses people) =
  List.length (filter (fun ht => negb (fails_evidence people ht))
                      (powerset (keys people)))
  * 3 ^ List.length people.
Proof.
  intros Hnd; unfold hypotheses.
  assert (Hn : List.length people = List.length (keys people))
    by (unfold keys; rewrite length_map; reflexivity).
  rewrite Hn.
  apply guarded_flat_map_length; intros ht.
  rewrite length_flat_map, <- (gene_partitions_length (keys people) Hnd).
  apply list_sum_map_ext; intros og _; apply length_map.
Qed.

End Counting.

Lemma NoDup_all_equal_length {A : Type} (l : list A) :
  NoDup l -> l <> [] -> (forall x y, In x l -> In y l -> x = y) ->
  List.length l = 1.
Proof.
  intros Hnd Hne Heq.
  destruct l as [|x [|y l]]; [congruence | reflexivity |].
  exfalso; inversion Hnd as [|? ? Hx _]; subst.
  apply Hx; left; apply Heq; simpl; auto.
Qed.

Lemma in_keys {V : Type} (d : dict V) (k : string) :
  In k (keys d) -> exists v, In (k, v) d.
Proof.
  unfold keys; rewrite in_map_iff; intros ([k' v] & E & Hin).
  simpl in E; subst; exists v; exact Hin.
Qed.

(** X5. The number of rounds of the innermost loop of [main].  For a dict of
    [n] people it is 3^n for each trait set that passes the evidence
    test; so 2^n * 3^n when no trait is observed, and 3^n when every
    trait is observed (a single trait set passes). *)
Theorem hypotheses_length {order : SetOrder} (people : dict person) :
  NoDup (keys people) ->
  List.length (hypotheses people) =
    List.length (filter (fun ht => negb (fails_evidence people ht))
                        (powerset (keys people)))
    * 3 ^ List.length people /\
  ((forall who p, In (who, p) people -> trait p = None) ->
   List.length (hypotheses people)
   = 2 ^ List.length people * 3 ^ List.length people) /\
  ((forall who p, In (who, p) people -> trait p <> None) ->
   List.length (hypotheses people) = 3 ^ List.length people).
Proof.
  intros Hnd.
  assert (Hlen := hypotheses_length_product people Hnd).
  assert (Hn : List.length people = List.length (keys people))
    by (unfold keys; rewrite length_map; reflexivity).
  split; [exact Hlen|]; split; intros Hobs; rewrite Hlen.
  - f_equal; rewrite Hn, <- powerset_size; f_equal.
    apply forallb_filter_id, forallb_forall; intros ht _.
    apply negb_true_iff; unfold fails_evidence.
    destruct (existsb _ people) eqn:E; [|reflexivity].
    apply existsb_exists in E; destruct E as ([who p] & Hin & Hf).
    simpl in Hf; rewrite (Hobs who p Hin) in Hf; discriminate.
  - rewrite NoDup_all_equal_length; [lia | | |].
    + apply NoDup_filter, powerset_NoDup, Hnd.
    + intros E.
      assert (Hne := hypotheses_nonempty people Hnd).
      destruct (hypotheses people) as [|[[ht og] tg] hs] eqn:Eh; [congruence|].
      assert (Hin : In (ht, og, tg) (hypotheses people))
        by (rewrite Eh; left; reflexivity).
      apply hypotheses_In in Hin; destruct Hin as (Hht & Hev & _).
      assert (Hf : In ht (filter (fun ht => negb (fails_evidence people ht))
                                 (powerset (keys people))))
        by (apply filter_In; rewrite Hev; auto).
      rewrite E in Hf; destruct Hf.
    + intros ht1 ht2 H1 H2.
      apply filter_In in H1, H2.
      destruct H1 as [H1 E1], H2 as [H2 E2].
      apply negb_true_iff in E1, E2.
      apply powerset_subseq in H1, H2.
      apply (subseq_same_members _ _ _ (iter_NoDup _ Hnd) H1 H2).
      intros x; split; intros Hx.
      * assert (Hk : In x (keys people))
          by (apply iter_In; apply (subseq_In _ _ _ H1 Hx)).
        destruct (in_keys _ _ Hk) as [p Hp].
        destruct (trait p) as [b|] eqn:Eb; [|destruct (Hobs x p Hp Eb)].
        apply mem_In.
        rewrite (@evidence_forces people ht2 x p b E2 Hp Eb).
        rewrite <- (@evidence_forces people ht1 x p b E1 Hp Eb).
        apply mem_In; exact Hx.
      * assert (Hk : In x (keys people))
          by (apply iter_In; apply (subseq_In _ _ _ H2 Hx)).
        destruct (in_keys _ _ Hk) as [p Hp].
        destruct (trait p) as [b|] eqn:Eb; [|destruct (Hobs x p Hp Eb)].
        apply mem_In.
        rewrite (@evidence_forces people ht1 x p b E1 Hp Eb).
        rewrite <- (@evidence_forces people ht2 x p b E2 Hp Eb).
        apply mem_In; exact Hx.
Qed.

Lemma hypotheses_length_witness :
  List.length (hypotheses (order := insertion_order) family0) =
    List.length (filter (fun ht => negb (fails_evidence family0 ht))
                        (powerset (order := insertion_order) (keys family0)))
    * 3 ^ List.length family0.
Proof.
  apply (@hypotheses_length insertion_order family0).
  repeat constructor; simpl; intuition discriminate.
Defined.

(** ** The joint probability *)

Section SameMembers.

Context {T : Type} {arith : Arith T}.

Lemma mem_same_members (s t : pyset) (x : string) :
  same_members s t -> mem x s = mem x t.
Proof.
  intros Hst; destruct (mem x t) eqn:E.
  - apply mem_In, Hst, mem_In; exact E.
  - apply mem_not_In; intros Hx; apply Hst, mem_In in Hx; congruence.
Qed.

Lemma genes_of_same_members (og og' tg tg' : pyset) (x : option string) :
  same_members og og' -> same_members tg tg' ->
  genes_of og tg x = genes_of og' tg' x.
Proof.
  intros Ho Ht; unfold genes_of; destruct x as [x|]; simpl; trivial.
  rewrite (mem_same_members og og' x Ho), (mem_same_members tg tg' x Ht).
  reflexivity.
Qed.

Lemma joint_step_same_members (og og' tg tg' ht ht' : pyset)
    (entry : string * person) (acc : T) :
  same_members og og' -> same_members tg tg' -> same_members ht ht' ->
  joint_step og tg ht entry acc = joint_step og' tg' ht' entry acc.
Proof.
  intros Ho Ht Hh; destruct entry as [who p].
  unfold joint_step, gene_prob.
  rewrite !(genes_of_same_members og og' tg tg' _ Ho Ht).
  rewrite (mem_same_members ht ht' who Hh); reflexivity.
Qed.

Lemma update_entry_same_members (og og' tg tg' ht ht' : pyset) (p : T)
    (entry : string * dist T) :
  same_members og og' -> same_members tg tg' -> same_members ht ht' ->
  update_entry og tg ht p entry = update_entry og' tg' ht' p entry.
Proof.
  intros Ho Ht Hh; destruct entry as [who d].
  unfold update_entry.
  rewrite !(genes_of_same_members og og' tg tg' _ Ho Ht).
  rewrite (mem_same_members ht ht' who Hh); reflexivity.
Qed.

Lemma map_result_ext {A B : Type} (f g : A -> result B) (xs : list A) :
  (forall x, f x = g x) -> map_result f xs = map_result g xs.
Proof.
  intros E; induction xs as [|x xs IH]; simpl; trivial.
  rewrite E, IH; reflexivity.
Qed.

End SameMembers.

(** X6. [joint_probability] and [update] read their three set arguments only
    through membership tests: sets with the same members, in whatever
    order they hold them, give the same joint probability and the same
    updated table, for any arithmetic. *)
Theorem sets_matter_by_membership {T : Type} {arith : Arith T}
    (people : dict person) (probabilities : dict (dist T)) (p : T)
    (og og' tg tg' ht ht' : pyset) :
  same_members og og' -> same_members tg tg' -> same_members ht ht' ->
  joint_probability people og tg ht = joint_probability people og' tg' ht' /\
  update probabilities og tg ht p = update probabilities og' tg' ht' p.
Proof.
  intros Ho Ht Hh; split.
  - unfold joint_probability; apply for_each_ext; intros entry acc _.
    apply joint_step_same_members; assumption.
  - unfold update; apply map_result_ext; intros entry.
    apply update_entry_same_members; assumption.
Qed.

Lemma sets_matter_by_membership_witness :
  joint_probability (arith := exact) family0 ["Harry"; "Lily"] ["James"] ["James"]
  = joint_probability (arith := exact) family0 ["Lily"; "Harry"] ["James"] ["James"] /\
  update (arith := exact) (initial family0) ["Harry"; "Lily"] ["James"] ["James"]
         (of_int 1)
  = update (arith := exact) (initial family0) ["Lily"; "Harry"] ["James"] ["James"]
           (of_int 1).
Proof.
  apply (@sets_matter_by_membership Qc exact family0 (initial family0) (of_int 1)
           ["Harry"; "Lily"] ["Lily"; "Harry"] ["James"] ["James"]
           ["James"] ["James"]);
    intros x; simpl; tauto.
Defined.

Section ExactJoint.

Local Open Scope Qc_scope.

Lemma Qc_mul_le_one (a b : Qc) : 0 <= a -> a <= 1 -> 0 <= b -> b <= 1 -> a * b <= 1.
Proof.
  intros Ha Ha1 Hb Hb1.
  apply Qcle_trans with (1 * b); [|rewrite Qcmult_1_l; exact Hb1].
  apply Qcmult_le_compat_r; assumption.
Qed.

Lemma exact_gene_prob_le_one (one_gene two_genes : pyset) (who : string)
    (p : person) (gp : Qc) :
  gene_prob one_gene two_genes who p = Ok gp -> gp <= 1.
Proof.
  unfold gene_prob, genes_of, mem_opt.
  destruct (mother p) as [m|], (father p) as [f|];
    repeat match goal with
    | |- context [mem ?x ?s] => destruct (mem x s)
    end;
    intros E; vm_compute in E; inversion E; subst;
    apply Qle_bool_iff; reflexivity.
Qed.

Lemma exact_trait_prob_le_one (genes : nat) (row : by_trait Qc) (b : bool) :
  genes_get (PROBS_trait PROBS) genes = Ok row -> trait_get row b <= 1.
Proof.
  destruct genes as [|[|[|genes]]]; simpl; intros E; inversion E; subst;
    destruct b; apply Qle_bool_iff; reflexivity.
Qed.

(** What one person contributes to the product. *)
Lemma exact_joint_step_factor (og tg ht : pyset) (entry : string * person) :
  exists factor : Qc,
    0 < factor /\ factor <= 1 /\
    forall acc, joint_step og tg ht entry acc = Ok (acc * factor).
Proof.
  destruct (joint_step_ok og tg ht entry (of_int 1)) as (gp & tp & Egp & Etp & _).
  exists (gp * trait_get tp (mem (fst entry) ht)).
  assert (Hgp := exact_gene_prob_pos _ _ _ _ Egp).
  assert (Htp := exact_trait_prob_pos _ (mem (fst entry) ht) Etp).
  split; [apply Qc_mul_pos; assumption|].
  split.
  - apply Qc_mul_le_one.
    + apply Qclt_le_weak; exact Hgp.
    + apply (exact_gene_prob_le_one _ _ _ _ _ Egp).
    + apply Qclt_le_weak; exact Htp.
    + apply (exact_trait_prob_le_one _ _ _ Etp).
  - intros acc.
    destruct (joint_step_ok og tg ht entry acc) as (gp' & tp' & Egp' & Etp' & E).
    rewrite Egp in Egp'; rewrite Etp in Etp'.
    inversion Egp'; inversion Etp'; subst; exact E.
Qed.

Lemma exact_joint_loop_product (og tg ht : pyset) (people : dict person) :
  exists product : Qc,
    0 < product /\ product <= 1 /\
    forall acc,
      for_each people (joint_step og tg ht) acc = Ok (acc * product).
Proof.
  induction people as [|entry people (r & Hpos & Hle & Hr)]; simpl.
  - exists 1; split; [reflexivity|]; split; [apply Qcle_refl|].
    intros acc; rewrite Qcmult_1_r; reflexivity.
  - destruct (exact_joint_step_factor og tg ht entry) as (f & Hf & Hf1 & Ef).
    exists (f * r); split; [apply Qc_mul_pos; assumption|].
    split;
      [apply Qc_mul_le_one;
       [apply Qclt_le_weak; exact Hf | exact Hf1
        | apply Qclt_le_weak; exact Hpos | exact Hle]|].
    intros acc; rewrite Ef; simpl; rewrite Hr; f_equal; ring.
Qed.

End ExactJoint.

(** X7. In exact arithmetic [joint_probability] always returns a probability,
    a number p with 0 < p <= 1, and it is a product over the people: the
    joint probability of [people1 ++ people2] is the product of those of
    [people1] and [people2], and listing the same people in another
    order gives the same number. *)
Theorem joint_probability_is_a_product (og tg ht : pyset) :
  (forall people, exists p : Qc,
     joint_probability people og tg ht = Ok p /\ (0 < p)%Qc /\ (p <= 1)%Qc) /\
  (forall people1 people2, exists p1 p2 : Qc,
     joint_probability people1 og tg ht = Ok p1 /\
     joint_probability people2 og tg ht = Ok p2 /\
     joint_probability (people1 ++ people2) og tg ht = Ok (p1 * p2)%Qc) /\
  (forall people people',
     Permutation people people' ->
     joint_probability (arith := exact) people og tg ht
     = joint_probability people' og tg ht).
Proof.
  assert (Hone : forall people, exists p : Qc,
            joint_probability people og tg ht = Ok p /\ (0 < p)%Qc /\
            (p <= 1)%Qc /\
            forall acc, for_each people (joint_step og tg ht) acc
                        = Ok (acc * p)%Qc).
  { intros people.
    destruct (exact_joint_loop_product og tg ht people) as (r & Hpos & Hle & Hr).
    exists r; unfold joint_probability; rewrite Hr, exact_one, Qcmult_1_l.
    auto. }
  split; [|split].
  - intros people; destruct (Hone people) as (p & E & Hp & Hp1 & _); eauto.
  - intros people1 people2.
    destruct (Hone people1) as (p1 & E1 & _ & _ & _).
    destruct (Hone people2) as (p2 & E2 & _ & _ & H2).
    exists p1, p2; split; [exact E1|]; split; [exact E2|].
    unfold joint_probability in *.
    rewrite for_each_app, E1; simpl; apply H2.
  - intros people people' Hperm; unfold joint_probability.
    generalize (of_int (T := Qc) 1) as acc.
    induction Hperm as [|x l l' Hperm IH|x y l|l l' l'' H1 IH1 H2 IH2];
      intros acc; simpl; trivial.
    + destruct (exact_joint_step_factor og tg ht x) as (f & _ & _ & Ef).
      rewrite Ef; simpl; apply IH.
    + destruct (exact_joint_step_factor og tg ht x) as (fx & _ & _ & Ex).
      destruct (exact_joint_step_factor og tg ht y) as (fy & _ & _ & Ey).
      rewrite !Ex, !Ey; simpl; rewrite !Ex, !Ey; simpl.
      replace (acc * fy * fx)%Qc with (acc * fx * fy)%Qc by ring.
      reflexivity.
    + rewrite IH1; apply IH2.
Qed.

(** ** The tables are distributions *)

(** X8. In exact arithmetic the tables of [PROBS] and the inheritance rule of
    [get_gene_prob] are probability distributions: the prior over gene
    counts sums to 1; for every gene count the two trait probabilities
    sum to 1; for every number of copies in a parent, passing the gene on
    and withholding it have probabilities that sum to 1; hence for every
    pair of parents the probabilities of 2, 1 and 0 copies in the child
    sum to 1. *)
Theorem tables_are_distributions :
  (two (PROBS_gene PROBS) + one (PROBS_gene PROBS) + zero (PROBS_gene PROBS)
   = 1)%Qc /\
  (forall genes row,
     genes_get (PROBS_trait (T := Qc) PROBS) genes = Ok row ->
     (yes row + no row = 1)%Qc) /\
  (forall parent_genes,
     (get_gene_prob parent_genes false + get_gene_prob parent_genes true
      = 1)%Qc) /\
  (forall mother_genes father_genes,
     (get_gene_prob mother_genes false * get_gene_prob father_genes false
      + (get_gene_prob mother_genes false * get_gene_prob father_genes true
         + get_gene_prob mother_genes true * get_gene_prob father_genes false)
      + get_gene_prob mother_genes true * get_gene_prob father_genes true
      = 1)%Qc).
Proof.
  assert (Hpass : forall g,
            (get_gene_prob (T := Qc) g false + get_gene_prob g true = 1)%Qc).
  { intros g; unfold get_gene_prob.
    destruct (Nat.eqb g 2); [apply Qc_decomp; reflexivity|].
    destruct (Nat.eqb g 1); apply Qc_decomp; reflexivity. }
  split; [apply Qc_decomp; reflexivity|].
  split; [|split; [exact Hpass|]].
  - intros [|[|[|g]]] row E; inversion E; subst; apply Qc_decomp; reflexivity.
  - intros m f.
    transitivity
      ((get_gene_prob (T := Qc) m false + get_gene_prob m true)
       * (get_gene_prob (T := Qc) f false + get_gene_prob f true))%Qc;
      [ring | rewrite !Hpass; ring].
Qed.

(** ** Order of the updates *)

Section UpdateCommute.

Local Open Scope Qc_scope.

Lemma update_entry_commute (og1 tg1 ht1 og2 tg2 ht2 : pyset) (p1 p2 : Qc)
    (entry : string * dist Qc) :
  (e <- update_entry og1 tg1 ht1 p1 entry ;; update_entry og2 tg2 ht2 p2 e) =
  (e <- update_entry og2 tg2 ht2 p2 entry ;; update_entry og1 tg1 ht1 p1 e).
Proof.
  destruct entry as [who [[g2 g1 g0] [ty tn]]].
  unfold update_entry.
  destruct (genes_of_range og1 tg1 (Some who)) as [E1|[E1|E1]];
    destruct (genes_of_range og2 tg2 (Some who)) as [E2|[E2|E2]];
    rewrite E1, E2; cbn -[Qcplus];
    rewrite ?E1, ?E2; cbn -[Qcplus];
    destruct (mem who ht1), (mem who ht2); cbn -[Qcplus];
    repeat match goal with
    | |- @eq Qc _ _ => ring
    | |- _ => f_equal
    end.
Qed.

Lemma update_commute_loop (og1 tg1 ht1 og2 tg2 ht2 : pyset) (p1 p2 : Qc)
    (probabilities : dict (dist Qc)) :
  (t <- update probabilities og1 tg1 ht1 p1 ;; update t og2 tg2 ht2 p2) =
  (t <- update probabilities og2 tg2 ht2 p2 ;; update t og1 tg1 ht1 p1).
Proof.
  unfold update.
  induction probabilities as [|entry rest IH]; [reflexivity|].
  cbn [map_result].
  assert (Hc := update_entry_commute og1 tg1 ht1 og2 tg2 ht2 p1 p2 entry).
  destruct (update_entry_ok og1 tg1 ht1 p1 entry) as (e1 & E1 & _).
  destruct (update_entry_ok og2 tg2 ht2 p2 entry) as (e2 & E2 & _).
  destruct (update_ok rest og1 tg1 ht1 p1) as (r1 & R1 & _).
  destruct (update_ok rest og2 tg2 ht2 p2) as (r2 & R2 & _).
  unfold update in R1, R2.
  rewrite E1, E2 in *; rewrite R1, R2 in *; cbn [bind map_result] in *.
  rewrite Hc, IH; reflexivity.
Qed.

End UpdateCommute.

(** X9. In exact arithmetic two calls of [update] commute: adding the weights
    of two hypotheses to a table in one order or the other leaves the same
    table. *)
Theorem update_commutes (og1 tg1 ht1 og2 tg2 ht2 : pyset) (p1 p2 : Qc)
    (probabilities : dict (dist Qc)) :
  exists final,
    (t <- update probabilities og1 tg1 ht1 p1 ;; update t og2 tg2 ht2 p2)
      = Ok final /\
    (t <- update probabilities og2 tg2 ht2 p2 ;; update t og1 tg1 ht1 p1)
      = Ok final.
Proof.
  destruct (update_ok probabilities og1 tg1 ht1 p1) as (t1 & E1 & _).
  destruct (update_ok t1 og2 tg2 ht2 p2) as (final & E12 & _).
  exists final; split.
  - rewrite E1; exact E12.
  - rewrite <- update_commute_loop, E1; exact E12.
Qed.

(** ** When [normalize] returns *)

Section NormalizeReturns.

Context {T : Type} {arith : Arith T}.

Lemma div_nonzero (x y : T) : is_zero y = false -> div x y = Ok (quotient x y).
Proof. unfold div; intros ->; reflexivity. Qed.

Lemma normalize_entry_nonzero (entry : string * dist T) :
  is_zero (gene_total (snd entry)) = false ->
  is_zero (trait_total (snd entry)) = false ->
  exists entry',
    normalize_entry entry = Ok entry' /\ normalized_from entry entry'.
Proof.
  destruct entry as [who d]; cbn [snd]; intros Hg Ht.
  unfold normalize_entry; cbv zeta.
  rewrite !(div_nonzero _ _ Hg), !(div_nonzero _ _ Ht); cbn [bind].
  eexists; split; [reflexivity | split; reflexivity].
Qed.

Lemma normalize_nonzero (probabilities : dict (dist T)) :
  (forall who d, In (who, d) probabilities ->
     is_zero (gene_total d) = false /\ is_zero (trait_total d) = false) ->
  exists final,
    normalize probabilities = Ok final /\
    Forall2 normalized_from probabilities final.
Proof.
  unfold normalize.
  induction probabilities as [|[who d] rest IH]; intros Hnz; cbn [map_result].
  - exists []; split; [reflexivity | constructor].
  - destruct (Hnz who d (or_introl eq_refl)) as [Hg Ht].
    destruct (normalize_entry_nonzero (who, d) Hg Ht) as (e & Ee & He).
    destruct IH as (final & Ef & HF);
      [intros who' d' Hin; apply (Hnz who' d'); right; exact Hin|].
    rewrite Ee, Ef; cbn [bind].
    exists (e :: final); split; [reflexivity | constructor; assumption].
Qed.

Lemma normalize_ok_totals (probabilities final : dict (dist T)) :
  normalize probabilities = Ok final ->
  forall who d, In (who, d) probabilities ->
    is_zero (gene_total d) = false /\ is_zero (trait_total d) = false.
Proof.
  unfold normalize; revert final.
  induction probabilities as [|entry rest IH]; intros final E who d Hin;
    [destruct Hin|].
  cbn [map_result] in E.
  destruct (normalize_entry entry) as [e|x] eqn:Ee; [|discriminate].
  destruct (map_result normalize_entry rest) as [final'|x] eqn:Ef;
    [|discriminate].
  destruct Hin as [->|Hin]; [|apply (IH final' eq_refl who d Hin)].
  destruct (is_zero (gene_total d)) eqn:Hg;
    [rewrite normalize_entry_zero in Ee by (left; exact Hg); discriminate|].
  destruct (is_zero (trait_total d)) eqn:Ht;
    [rewrite normalize_entry_zero in Ee by (right; exact Ht); discriminate|].
  split; reflexivity.
Qed.

Lemma normalize_ok_normalized (probabilities final : dict (dist T)) :
  normalize probabilities = Ok final ->
  Forall2 normalized_from probabilities final.
Proof.
  intros E.
  destruct (normalize_nonzero probabilities (normalize_ok_totals _ _ E))
    as (final' & E' & HF).
  rewrite E in E'; inversion E'; subst final'; exact HF.
Qed.

Lemma normalize_keys (probabilities final : dict (dist T)) :
  normalize probabilities = Ok final -> keys final = keys probabilities.
Proof.
  intros E; apply (Forall2_keys (normalize_ok_normalized _ _ E)).
  intros x y Hxy; apply Hxy.
Qed.

End NormalizeReturns.

(** X10. For any arithmetic, [normalize] returns exactly when no entry of the
    table has a zero gene total or a zero trait total; the table it
    returns has the same names in the same order, every slot divided by
    the total of its own distribution. *)
Theorem normalize_returns_iff_totals_nonzero {T : Type} {arith : Arith T}
    (probabilities : dict (dist T)) :
  ((exists final, normalize probabilities = Ok final) <->
   (forall who d, In (who, d) probabilities ->
      is_zero (gene_total d) = false /\ is_zero (trait_total d) = false)) /\
  (forall final, normalize probabilities = Ok final ->
     keys final = keys probabilities /\
     Forall2 normalized_from probabilities final).
Proof.
  split; [split|].
  - intros [final E]; exact (normalize_ok_totals probabilities final E).
  - intros H; destruct (normalize_nonzero probabilities H) as (final & E & _).
    exists final; exact E.
  - intros final E; split.
    + exact (normalize_keys probabilities final E).
    + exact (normalize_ok_normalized probabilities final E).
Qed.

Section ExactNormalized.

Local Open Scope Qc_scope.

Lemma exact_is_zero_false (y : Qc) : is_zero y = false <-> y <> 0.
Proof.
  rewrite <- exact_is_zero; destruct (is_zero y); split; congruence.
Qed.

Lemma normalized_from_exact (before after : string * dist Qc) :
  gene_total (snd before) <> 0 -> trait_total (snd before) <> 0 ->
  normalized_from before after ->
  gene_total (snd after) = 1 /\ trait_total (snd after) = 1 /\
  two (dist_gene (snd after)) * gene_total (snd before)
    = two (dist_gene (snd before)) /\
  one (dist_gene (snd after)) * gene_total (snd before)
    = one (dist_gene (snd before)) /\
  zero (dist_gene (snd after)) * gene_total (snd before)
    = zero (dist_gene (snd before)) /\
  yes (dist_trait (snd after)) * trait_total (snd before)
    = yes (dist_trait (snd before)) /\
  no (dist_trait (snd after)) * trait_total (snd before)
    = no (dist_trait (snd before)).
Proof.
  intros Hg Ht [_ E]; rewrite E; clear E.
  rewrite exact_gene_total in Hg; rewrite exact_trait_total in Ht.
  rewrite !exact_gene_total, !exact_trait_total.
  cbn [dist_gene dist_trait two one zero yes no quotient exact].
  repeat split; field; assumption.
Qed.

End ExactNormalized.

(** X11. In exact arithmetic, when [normalize] returns, each distribution of
    the table it returns sums to 1 and keeps the proportions of the
    weights: every returned slot times the former total of its
    distribution is the former weight.  Normalizing the returned table
    once more returns it unchanged. *)
Theorem normalize_keeps_proportions (probabilities final : dict (dist Qc)) :
  normalize probabilities = Ok final ->
  Forall2
    (fun before after : string * dist Qc =>
       fst after = fst before /\
       gene_total (snd after) = of_int 1 /\
       trait_total (snd after) = of_int 1 /\
       (forall genes w w',
          genes_get (dist_gene (snd before)) genes = Ok w ->
          genes_get (dist_gene (snd after)) genes = Ok w' ->
          mul w' (gene_total (snd before)) = w) /\
       (forall b,
          mul (trait_get (dist_trait (snd after)) b) (trait_total (snd before))
          = trait_get (dist_trait (snd before)) b))
    probabilities final /\
  normalize final = Ok final.
Proof.
  intros E.
  assert (Hnz := normalize_ok_totals probabilities final E).
  assert (HF := normalize_ok_normalized probabilities final E).
  assert (HF' : Forall2
            (fun before after : string * dist Qc =>
               normalized_from before after /\
               gene_total (snd before) <> Q2Qc (Qmake 0 1) /\
               trait_total (snd before) <> Q2Qc (Qmake 0 1))
            probabilities final).
  { clear E; induction HF as [|[who d] e rest final' He HF IH];
      constructor.
    - destruct (Hnz who d (or_introl eq_refl)) as [Hg Ht].
      apply exact_is_zero_false in Hg, Ht; auto.
    - apply IH; intros who' d' Hin; apply (Hnz who' d'); right; exact Hin. }
  split.
  - revert HF'; apply Forall2_impl.
    intros before after (Hn & Hg & Ht).
    destruct (normalized_from_exact before after Hg Ht Hn)
      as (E1 & E2 & E3 & E4 & E5 & E6 & E7).
    split; [apply Hn|].
    split; [exact E1|]; split; [exact E2|]; split.
    + intros [|[|[|genes]]] w w' Ew Ew'; inversion Ew; inversion Ew'; subst;
        assumption.
    + intros [|]; assumption.
  - assert (Hone : forall who d, In (who, d) final ->
              is_zero (gene_total d) = false /\
              is_zero (trait_total d) = false).
    { intros who d Hin.
      destruct (Forall2_In_r HF' Hin) as (before & _ & Hn & Hg & Ht).
      destruct (normalized_from_exact before (who, d) Hg Ht Hn) as (E1 & E2 & _).
      cbn [snd] in E1, E2; rewrite E1, E2; split; reflexivity. }
    destruct (normalize_nonzero final Hone) as (final' & E' & HF2).
    rewrite E'; f_equal.
    clear E' Hone E HF Hnz.
    revert final' HF2.
    induction HF' as [|before [who d] rest final Hb HF' IH]; intros final' HF2;
      inversion HF2 as [|? [who' d'] ? final'' Hn2 HF2']; subst; trivial.
    f_equal; [|apply IH; exact HF2'].
    destruct Hb as (Hn & Hg & Ht).
    destruct (normalized_from_exact before (who, d) Hg Ht Hn) as (E1 & E2 & _).
    destruct Hn2 as [Ewho Ed]; cbn [fst snd] in *; subst who'.
    rewrite Ed, E1, E2; destruct d as [[g2 g1 g0] [ty tn]].
    cbn [dist_gene dist_trait two one zero yes no quotient exact].
    repeat match goal with
    | |- @eq Qc _ _ => field; discriminate
    | |- _ => f_equal
    end.
Qed.

Lemma normalize_keeps_proportions_witness :
  normalize
    [("Harry",
      Dist (ByGenes (Q2Qc (Qmake 65 329)) (Q2Qc (Qmake 168 329))
                    (Q2Qc (Qmake 96 329)))
           (ByTrait (Q2Qc (Qmake 1 1)) (Q2Qc (Qmake 0 1))))]
  = Ok [("Harry",
         Dist (ByGenes (Q2Qc (Qmake 65 329)) (Q2Qc (Qmake 168 329))
                       (Q2Qc (Qmake 96 329)))
              (ByTrait (Q2Qc (Qmake 1 1)) (Q2Qc (Qmake 0 1))))].
Proof.
  apply (normalize_keeps_proportions
           [("Harry", Dist (ByGenes (lit 65 4) (lit 168 4) (lit 96 4))
                           (ByTrait (lit 329 4) (Q2Qc (Qmake 0 1))))]).
  vm_compute.
  repeat match goal with
  | |- @eq Qc _ _ => apply Qc_decomp; reflexivity
  | |- _ => f_equal
  end.
Defined.

(** ** The output is made of probabilities *)

Section ExactBounds.

Local Open Scope Qc_scope.

Context {order : SetOrder}.

Definition nonnegative (d : dist Qc) : Prop :=
  0 <= two (dist_gene d) /\ 0 <= one (dist_gene d) /\ 0 <= zero (dist_gene d) /\
  0 <= yes (dist_trait d) /\ 0 <= no (dist_trait d).

Lemma Qc_add_nonneg (a b : Qc) : 0 <= a -> 0 <= b -> 0 <= a + b.
Proof.
  intros Ha Hb.
  assert (H := Qcplus_le_compat 0 a 0 b Ha Hb).
  rewrite Qcplus_0_l in H; exact H.
Qed.

Lemma Qc_div_bounds (a m : Qc) :
  0 <= a -> a <= m -> 0 < m -> 0 <= a / m /\ a / m <= 1.
Proof.
  intros Ha Ham Hm.
  assert (Hm0 : m <> 0) by (intros E; rewrite E in Hm; discriminate Hm).
  assert (E : a / m * m = a) by (field; exact Hm0).
  split; apply (Qcmult_lt_0_le_reg_r _ _ m Hm); rewrite E.
  - rewrite Qcmult_0_l; exact Ha.
  - rewrite Qcmult_1_l; exact Ham.
Qed.

Lemma slots_updated_nonnegative (og tg ht : pyset) (p : Qc)
    (before after : string * dist Qc) :
  0 <= p ->
  slots_updated og tg ht p before after ->
  nonnegative (snd before) -> nonnegative (snd after).
Proof.
  destruct before as [who [[b2 b1 b0] [by_ bn]]].
  destruct after as [who' [[a2 a1 a0] [ay an]]].
  unfold slots_updated, nonnegative.
  cbn [fst snd dist_gene dist_trait two one zero yes no add exact].
  intros Hp (_ & (old & Eold & Enew) & Hother & Hsel & Hunsel)
         (H2 & H1 & H0 & Hy & Hn).
  assert (G : 0 <= a2 /\ 0 <= a1 /\ 0 <= a0).
  { destruct (genes_of_range og tg (Some who)) as [E|[E|E]];
      rewrite E in *; simpl in Eold, Enew;
      inversion Eold; inversion Enew; subst.
    - assert (X2 := Hother 2%nat ltac:(discriminate)).
      assert (X1 := Hother 1%nat ltac:(discriminate)).
      simpl in X1, X2; inversion X1; inversion X2; subst.
      repeat split; trivial; apply Qc_add_nonneg; assumption.
    - assert (X2 := Hother 2%nat ltac:(discriminate)).
      assert (X0 := Hother 0%nat ltac:(discriminate)).
      simpl in X0, X2; inversion X0; inversion X2; subst.
      repeat split; trivial; apply Qc_add_nonneg; assumption.
    - assert (X1 := Hother 1%nat ltac:(discriminate)).
      assert (X0 := Hother 0%nat ltac:(discriminate)).
      simpl in X0, X1; inversion X0; inversion X1; subst.
      repeat split; trivial; apply Qc_add_nonneg; assumption. }
  destruct G as (G2 & G1 & G0).
  repeat split; trivial;
    destruct (mem who ht); simpl in Hsel, Hunsel; subst; trivial;
    apply Qc_add_nonneg; assumption.
Qed.

Lemma accumulate_loop_nonnegative (people : dict person)
    (hs : list (pyset * pyset * pyset)) :
  forall probabilities probabilities' : dict (dist Qc),
  (forall who d, In (who, d) probabilities -> nonnegative d) ->
  for_each hs
    (fun h probabilities =>
       let '(have_trait, one_gene, two_genes) := h in
       accumulate_one people have_trait one_gene two_genes probabilities)
    probabilities = Ok probabilities' ->
  forall who d, In (who, d) probabilities' -> nonnegative d.
Proof.
  induction hs as [|[[ht og] tg] hs IH]; simpl; intros probs probs' Hnn Hrun.
  - inversion Hrun; subst; exact Hnn.
  - destruct (accumulate_one_ok people ht og tg probs)
      as (p & probs1 & Ep & E1 & HF).
    rewrite E1 in Hrun; simpl in Hrun.
    apply (IH probs1 probs'); [|exact Hrun].
    intros who d Hd.
    destruct (Forall2_In_r HF Hd) as ([who0 d0] & Hin0 & Hslots).
    apply (slots_updated_nonnegative og tg ht p (who0, d0) (who, d));
      [| exact Hslots | apply (Hnn who0 d0 Hin0)].
    apply Qclt_le_weak, (exact_joint_probability_pos _ _ _ _ Ep).
Qed.

End ExactBounds.

(** X12. In exact arithmetic, for every dict of people and every iteration
    order of sets, [main] returns and every number of the table it
    returns is a probability: each of the three gene weights and each of
    the two trait weights of every person lies between 0 and 1. *)
Theorem main_returns_probabilities {order : SetOrder} (people : dict person) :
  NoDup (keys people) ->
  exists final,
    main (arith := exact) people = Ok final /\
    forall who d, In (who, d) final ->
      (forall genes w, genes_get (dist_gene d) genes = Ok w ->
         (0 <= w)%Qc /\ (w <= 1)%Qc) /\
      (forall b, (0 <= trait_get (dist_trait d) b)%Qc /\
                 (trait_get (dist_trait d) b <= 1)%Qc).
Proof.
  intros Hnd.
  destruct (accumulate_loop_balanced people (hypotheses people)
              (initial_balanced people))
    as (probs & mass & Eacc & Emass & Ekeys & Hbal).
  assert (Hnn : forall who d, In (who, d) probs -> nonnegative d).
  { apply (accumulate_loop_nonnegative people (hypotheses people)
             (initial people) probs); [|exact Eacc].
    intros who d Hd; unfold initial in Hd.
    apply in_map_iff in Hd; destruct Hd as (entry & E & _).
    inversion E; subst; repeat split; apply Qcle_refl. }
  rewrite <- accumulate_hypotheses in Eacc.
  assert (Hpos : (0 < mass)%Qc).
  { apply (mass_loop_pos people (hypotheses people) (Qcle_refl _) Emass).
    apply hypotheses_nonempty; exact Hnd. }
  assert (Hm : mass <> Q2Qc (Qmake 0 1)).
  { intros E; rewrite E in Hpos; discriminate Hpos. }
  destruct (normalize_balanced Hm Hbal) as (final & Enorm & HF).
  exists final; split; [unfold main; rewrite Eacc; exact Enorm|].
  intros who d Hin.
  destruct (Forall2_In_r HF Hin) as ([who0 d0] & Hin0 & _ & Ed).
  destruct (Hbal _ _ Hin0) as [Eg Et].
  destruct (Hnn _ _ Hin0) as (H2 & H1 & H0 & Hy & Hn).
  rewrite exact_gene_total in Eg; rewrite exact_trait_total in Et.
  cbn [snd] in Ed; rewrite Ed.
  cbn [dist_gene dist_trait quotient exact].
  destruct d0 as [[g2 g1 g0] [ty tn]].
  cbn [dist_gene dist_trait two one zero yes no] in *.
  assert (L2 : (g2 <= mass)%Qc).
  { rewrite <- Eg, <- (Qcplus_0_r g2) at 1; rewrite <- Qcplus_assoc.
    apply Qcplus_le_compat; [apply Qcle_refl | apply Qc_add_nonneg; assumption]. }
  assert (L1 : (g1 <= mass)%Qc).
  { rewrite <- Eg.
    replace (g2 + g1 + g0)%Qc with (g1 + (g2 + g0))%Qc by ring.
    rewrite <- (Qcplus_0_r g1) at 1.
    apply Qcplus_le_compat; [apply Qcle_refl | apply Qc_add_nonneg; assumption]. }
  assert (L0 : (g0 <= mass)%Qc).
  { rewrite <- Eg.
    replace (g2 + g1 + g0)%Qc with (g0 + (g2 + g1))%Qc by ring.
    rewrite <- (Qcplus_0_r g0) at 1.
    apply Qcplus_le_compat; [apply Qcle_refl | apply Qc_add_nonneg; assumption]. }
  assert (Ly : (ty <= mass)%Qc).
  { rewrite <- Et, <- (Qcplus_0_r ty) at 1.
    apply Qcplus_le_compat; [apply Qcle_refl | assumption]. }
  assert (Ln : (tn <= mass)%Qc).
  { rewrite <- Et, <- (Qcplus_0_l tn) at 1.
    apply Qcplus_le_compat; [assumption | apply Qcle_refl]. }
  split.
  - intros [|[|[|genes]]] w Ew; inversion Ew; subst;
      apply Qc_div_bounds; assumption.
  - intros [|]; apply Qc_div_bounds; assumption.
Qed.

Lemma main_returns_probabilities_witness :
  exists final,
    main (arith := exact) (order := insertion_order) family0 = Ok final /\
    forall who d, In (who, d) final ->
      (forall genes w, genes_get (dist_gene d) genes = Ok w ->
         (0 <= w)%Qc /\ (w <= 1)%Qc) /\
      (forall b, (0 <= trait_get (dist_trait d) b)%Qc /\
                 (trait_get (dist_trait d) b <= 1)%Qc).
Proof.
  apply (@main_returns_probabilities insertion_order family0).
  repeat constructor; simpl; intuition discriminate.
Defined.

(** ** What [load_data] returns *)

Lemma dict_get_set_same {V : Type} (d : dict V) (k : string) (v : V) :
  dict_get (dict_set d k v) k = Ok v.
Proof.
  induction d as [|[k0 v0] d IH]; simpl.
  - rewrite String.eqb_refl; reflexivity.
  - destruct (String.eqb k k0) eqn:E; simpl; rewrite E; [reflexivity | exact IH].
Qed.

Lemma dict_get_set_other {V : Type} (d : dict V) (k k' : string) (v : V) :
  k' <> k -> dict_get (dict_set d k v) k' = dict_get d k'.
Proof.
  intros Hk; induction d as [|[k0 v0] d IH]; simpl.
  - apply String.eqb_neq in Hk; rewrite Hk; reflexivity.
  - destruct (String.eqb k k0) eqn:E; simpl.
    + apply String.eqb_eq in E; subst k0.
      apply String.eqb_neq in Hk; rewrite Hk; reflexivity.
    + rewrite IH; reflexivity.
Qed.

Lemma dict_set_keys {V : Type} (d : dict V) (k : string) (v : V) :
  keys (dict_set d k v) = if mem k (keys d) then keys d else keys d ++ [k].
Proof.
  induction d as [|[k0 v0] d IH]; simpl; [reflexivity|].
  destruct (String.eqb k k0) eqn:E; simpl; [reflexivity|].
  rewrite IH; unfold mem; destruct (existsb (String.eqb k) (keys d)); reflexivity.
Qed.

Lemma dict_set_NoDup {V : Type} (d : dict V) (k : string) (v : V) :
  NoDup (keys d) -> NoDup (keys (dict_set d k v)).
Proof.
  intros Hnd; rewrite dict_set_keys.
  destruct (mem k (keys d)) eqn:E; [exact Hnd|].
  apply NoDup_app; [exact Hnd | repeat constructor; intros [] |].
  intros x Hx [->|[]]; apply mem_not_In in E; contradiction.
Qed.

Lemma load_row_ok (row : dict string) (data data' : dict person) :
  load_row row data = Ok data' ->
  exists n m f t,
    dict_get row "name" = Ok n /\ dict_get row "mother" = Ok m /\
    dict_get row "father" = Ok f /\ dict_get row "trait" = Ok t /\
    data' = dict_set data n (Person n (or_none m) (or_none f) (parse_trait t)).
Proof.
  unfold load_row.
  destruct (dict_get row "name") as [n|e]; [|discriminate].
  destruct (dict_get row "mother") as [m|e]; [|discriminate].
  destruct (dict_get row "father") as [f|e]; [|discriminate].
  destruct (dict_get row "trait") as [t|e]; [|discriminate].
  simpl; intros E; inversion E; exists n, m, f, t; auto.
Qed.

Lemma dict_get_err {V : Type} (d : dict V) (k : string) (e : exn) :
  dict_get d k = Err e -> e = KeyError.
Proof.
  induction d as [|[k0 v0] d IH]; simpl; [intros E; inversion E; trivial|].
  destruct (String.eqb k k0); [discriminate | exact IH].
Qed.

Lemma load_row_err (row : dict string) (data : dict person) (e : exn) :
  load_row row data = Err e -> e = KeyError.
Proof.
  unfold load_row.
  destruct (dict_get row "name") as [n|x] eqn:E1;
    [|simpl; intros E; inversion E; subst; apply (dict_get_err _ _ _ E1)].
  destruct (dict_get row "mother") as [m|x] eqn:E2;
    [|simpl; intros E; inversion E; subst; apply (dict_get_err _ _ _ E2)].
  destruct (dict_get row "father") as [f|x] eqn:E3;
    [|simpl; intros E; inversion E; subst; apply (dict_get_err _ _ _ E3)].
  destruct (dict_get row "trait") as [t|x] eqn:E4;
    [|simpl; intros E; inversion E; subst; apply (dict_get_err _ _ _ E4)].
  discriminate.
Qed.

Lemma load_loop_wellformed (rows : list (dict string)) :
  forall data data' : dict person,
  for_each rows load_row data = Ok data' ->
  NoDup (keys data) ->
  (forall k p, In (k, p) data -> name p = k) ->
  NoDup (keys data') /\
  (forall k p, In (k, p) data' -> name p = k) /\
  (forall k, In k (keys data') <->
     In k (keys data) \/
     exists row, In row rows /\ dict_get row "name" = Ok k).
Proof.
  induction rows as [|row rows IH]; simpl; intros data data' E Hnd Hname.
  - inversion E; subst; split; [exact Hnd|]; split; [exact Hname|].
    intros k; split; [auto | intros [H|(row & [] & _)]; exact H].
  - destruct (load_row row data) as [data1|e] eqn:Erow; [|discriminate].
    simpl in E.
    destruct (load_row_ok _ _ _ Erow) as (n & m & f & t & En & _ & _ & _ & ->).
    destruct (IH _ _ E) as (Hnd' & Hname' & Hkeys').
    + apply dict_set_NoDup; exact Hnd.
    + intros k p Hin; apply dict_set_In in Hin.
      destruct Hin as [[-> ->]|Hin]; [reflexivity | apply Hname; exact Hin].
    + split; [exact Hnd'|]; split; [exact Hname'|].
      intros k; rewrite Hkeys', dict_set_keys.
      split.
      * intros [Hk|(r & Hr & Er)]; [|right; exists r; auto].
        destruct (mem n (keys data)); [left; exact Hk|].
        apply in_app_or in Hk; destruct Hk as [Hk|[<-|[]]]; [left; exact Hk|].
        right; exists row; auto.
      * intros [Hk|(r & [<-|Hr] & Er)].
        -- left; destruct (mem n (keys data)); [exact Hk|].
           apply in_or_app; left; exact Hk.
        -- left; rewrite En in Er; inversion Er; subst k.
           destruct (mem n (keys data)) eqn:Em; [apply mem_In; exact Em|].
           apply in_or_app; right; left; reflexivity.
        -- right; exists r; auto.
Qed.

(** X13. Whatever the rows, what [load_data] returns is a well-formed table of
    people: no name occurs twice among its keys, every record is stored
    under its own name, and the keys are exactly the names in the name
    column of the rows. *)
Theorem load_data_wellformed (rows : list (dict string)) (data : dict person) :
  load_data rows = Ok data ->
  NoDup (keys data) /\
  (forall k p, In (k, p) data -> name p = k) /\
  (forall k, In k (keys data) <->
     exists row, In row rows /\ dict_get row "name" = Ok k).
Proof.
  intros E.
  destruct (load_loop_wellformed rows [] data E) as (Hnd & Hname & Hkeys).
  - constructor.
  - intros k p [].
  - split; [exact Hnd|]; split; [exact Hname|].
    intros k; rewrite Hkeys; split; [intros [[]|H]; exact H | auto].
Qed.

Lemma load_data_wellformed_witness :
  NoDup (keys harry) /\
  (forall k p, In (k, p) harry -> name p = k) /\
  (forall k, In k (keys harry) <->
     exists row,
       In row [row_of "Harry" "" "" "1"; row_of "Harry" "" "" ""] /\
       dict_get row "name" = Ok k).
Proof.
  apply (load_data_wellformed
           [row_of "Harry" "" "" "1"; row_of "Harry" "" "" ""] harry).
  reflexivity.
Defined.

Lemma dict_get_keys_inv {V : Type} (d : dict V) (k : string) (v : V) :
  dict_get d k = Ok v -> In k (keys d).
Proof.
  intros E; apply dict_get_In in E.
  change k with (fst (k, v)); apply in_map; exact E.
Qed.

(** X14. The keys of the rows of a file are the column names of its header.
    If the header lacks one of the four columns (name, mother, father,
    trait), [load_data] raises [KeyError] at the first data row, whatever
    the rows hold, and returns no table; a file without data rows gives
    the empty table. *)
Theorem load_data_missing_column (fieldnames : list string)
    (rows : list (dict string)) (column : string) :
  In column ["name"; "mother"; "father"; "trait"] ->
  ~ In column fieldnames ->
  Forall (fun row => incl (keys row) fieldnames) rows ->
  load_data rows = match rows with
                   | [] => Ok []
                   | _ :: _ => Err KeyError
                   end.
Proof.
  intros Hcol Hmiss Hrows.
  destruct rows as [|row rows]; [reflexivity|].
  unfold load_data; cbn [for_each].
  destruct (load_row row []) as [data|e] eqn:E; cbn [bind].
  - exfalso.
    destruct (load_row_ok _ _ _ E) as (n & m & f & t & En & Em & Ef & Et & _).
    apply Hmiss.
    apply (Forall_inv Hrows).
    destruct Hcol as [<-|[<-|[<-|[<-|[]]]]];
      eapply dict_get_keys_inv; eassumption.
  - apply load_row_err in E; subst; reflexivity.
Qed.

Lemma load_data_missing_column_witness :
  load_data [[("name", "Harry"); ("mother", "Lily"); ("father", "James")];
             [("name", "James"); ("mother", ""); ("father", "")]]
  = Err KeyError.
Proof.
  apply (load_data_missing_column ["name"; "mother"; "father"]
           [[("name", "Harry"); ("mother", "Lily"); ("father", "James")];
            [("name", "James"); ("mother", ""); ("father", "")]]
           "trait").
  - simpl; auto.
  - simpl; intuition discriminate.
  - constructor; [intros k Hk; exact Hk|].
    constructor; [intros k Hk; exact Hk | constructor].
Defined.

(** X15. When a name occurs in several rows, the last of them decides: the
    record that [load_data] stores under a name is built from the last
    row with that name (an empty mother or father field giving no
    parent). *)
Theorem load_data_last_row_wins (before after : list (dict string))
    (row : dict string) (n m f t : string) (data : dict person) :
  dict_get row "name" = Ok n -> dict_get row "mother" = Ok m ->
  dict_get row "father" = Ok f -> dict_get row "trait" = Ok t ->
  (forall r, In r after -> dict_get r "name" <> Ok n) ->
  load_data (before ++ row :: after) = Ok data ->
  dict_get data n
  = Ok (Person n (or_none m) (or_none f) (parse_trait t)).
Proof.
  intros En Em Ef Et Hafter; unfold load_data.
  rewrite for_each_app.
  destruct (for_each before load_row []) as [data0|e]; [|discriminate].
  cbn [bind for_each]; unfold load_row at 1.
  rewrite En, Em, Ef, Et; cbn [bind].
  generalize (dict_get_set_same data0 n
                (Person n (or_none m) (or_none f) (parse_trait t))).
  generalize (dict_set data0 n
                (Person n (or_none m) (or_none f) (parse_trait t))) as data1.
  clear En Em Ef Et.
  induction after as [|r after IH]; intros data1 Hget E; simpl in E.
  - inversion E; subst; exact Hget.
  - destruct (load_row r data1) as [data2|e] eqn:Er; [|discriminate].
    simpl in E.
    destruct (load_row_ok _ _ _ Er) as (n' & m' & f' & t' & En' & _ & _ & _ & ->).
    apply (IH (fun r' Hr' => Hafter r' (or_intror Hr')) _ ) in E; [exact E|].
    rewrite dict_get_set_other; [exact Hget|].
    intros ->; apply (Hafter r (or_introl eq_refl)); exact En'.
Qed.

Lemma load_data_last_row_wins_witness :
  dict_get harry "Harry" = Ok (Person "Harry" (or_none "") (or_none "") (parse_trait "")).
Proof.
  apply (load_data_last_row_wins
           [row_of "Harry" "Lily" "James" "1"] [] (row_of "Harry" "" "" "")
           "Harry" "" "" "" harry);
    try reflexivity.
  intros r [].
Defined.

(** ** The whole program *)

Section ProgramRuns.

Context {T : Type} {arith : Arith T}.

Lemma accumulate_loop_keys (people : dict person)
    (hs : list (pyset * pyset * pyset)) :
  forall probabilities probabilities' : dict (dist T),
  for_each hs
    (fun h probabilities =>
       let '(have_trait, one_gene, two_genes) := h in
       accumulate_one people have_trait one_gene two_genes probabilities)
    probabilities = Ok probabilities' ->
  keys probabilities' = keys probabilities.
Proof.
  induction hs as [|[[ht og] tg] hs IH]; simpl; intros probs probs' E.
  - inversion E; reflexivity.
  - destruct (accumulate_one_ok people ht og tg probs) as (p & probs1 & _ & E1 & HF).
    rewrite E1 in E; simpl in E.
    rewrite (IH _ _ E); apply (update_keys HF).
Qed.

(** For any arithmetic, the table [main] returns has the names of
    [people], in the same order. *)
Lemma main_keys {order : SetOrder} (people : dict person)
    (probabilities : dict (dist T)) :
  main people = Ok probabilities -> keys probabilities = keys people.
Proof.
  unfold main; intros E.
  destruct (accumulate people) as [probs|e] eqn:Eacc; [|discriminate].
  simpl in E.
  rewrite accumulate_hypotheses in Eacc.
  apply accumulate_loop_keys in Eacc.
  rewrite (normalize_keys _ _ E), Eacc; apply initial_keys.
Qed.

Variable format4 : T -> string.

Lemma report_all (names : list string) (probabilities : dict (dist T)) :
  incl names (keys probabilities) ->
  exists lines,
    report format4 names probabilities = (lines, None) /\
    List.length lines = 8 * List.length names.
Proof.
  induction names as [|person rest IH]; intros Hincl; simpl.
  - exists []; auto.
  - destruct (dict_get_keys probabilities person) as [d Ed];
      [apply Hincl; left; reflexivity|].
    destruct IH as (more & Emore & Hlen);
      [intros x Hx; apply Hincl; right; exact Hx|].
    rewrite Ed, Emore.
    eexists; split; [reflexivity|].
    simpl; rewrite Hlen; lia.
Qed.

End ProgramRuns.

(** X16. For any arithmetic, any rendering of the numbers and any content of
    the files: the program prints all or nothing.  With a number of
    arguments other than one it exits with the usage message; whenever it
    does not return normally (usage, unreadable file, [KeyError] in
    loading, [ZeroDivisionError] in normalizing) it has printed nothing;
    and when it returns it has loaded a table from the file named by its
    argument and printed eight lines for each person of that table. *)
Theorem program_prints_all_or_nothing {T : Type} {arith : Arith T}
    {order : SetOrder} (format4 : T -> string)
    (read_csv : string -> option (list (dict string)))
    (argv : list string) :
  (List.length argv <> 2 ->
   main_program format4 read_csv argv
   = ([], Exited "Usage: python heredity.py data.csv")) /\
  (snd (main_program format4 read_csv argv) <> Returned ->
   fst (main_program format4 read_csv argv) = []) /\
  (snd (main_program format4 read_csv argv) = Returned ->
   exists rows people probabilities,
     read_csv (nth 1 argv "") = Some rows /\
     load_data rows = Ok people /\
     main people = Ok probabilities /\
     main_program format4 read_csv argv
     = (fst (report format4 (keys people) probabilities), Returned) /\
     List.length (fst (main_program format4 read_csv argv))
     = 8 * List.length people).
Proof.
  unfold main_program.
  split; [intros Hn; apply Nat.eqb_neq in Hn; rewrite Hn; reflexivity|].
  destruct (Nat.eqb (List.length argv) 2); cbn [negb];
    [|split; [reflexivity | discriminate]].
  destruct (read_csv (nth 1 argv "")) as [rows|] eqn:Eread;
    [|split; [reflexivity | discriminate]].
  destruct (load_data rows) as [people|e] eqn:Eload;
    [|split; [reflexivity | discriminate]].
  destruct (main people) as [probabilities|e] eqn:Emain;
    [|split; [reflexivity | discriminate]].
  destruct (report_all format4 (keys people) probabilities)
    as (lines & Erep & Hlen).
  { rewrite (main_keys people probabilities Emain); apply incl_refl. }
  rewrite Erep; cbn [fst snd]; split; [congruence|].
  intros _; exists rows, people, probabilities.
  rewrite Erep; cbn [fst].
  split; [reflexivity|]; split; [exact Eload|]; split; [exact Emain|].
  split; [reflexivity|].
  rewrite Hlen; unfold keys; rewrite length_map; reflexivity.
Qed.

Lemma exact_main_returns {order : SetOrder} (people : dict person) :
  NoDup (keys people) ->
  exists final, main (arith := exact) people = Ok final.
Proof.
  intros Hnd.
  destruct (accumulate_loop_balanced people (hypotheses people)
              (initial_balanced people))
    as (probs & mass & Eacc & Emass & Ekeys & Hbal).
  rewrite <- accumulate_hypotheses in Eacc.
  assert (Hpos : (0 < mass)%Qc).
  { apply (mass_loop_pos people (hypotheses people) (Qcle_refl _) Emass).
    apply hypotheses_nonempty; exact Hnd. }
  assert (Hm : mass <> Q2Qc (Qmake 0 1)).
  { intros E; rewrite E in Hpos; discriminate Hpos. }
  destruct (normalize_balanced Hm Hbal) as (final & Enorm & _).
  exists final; unfold main; rewrite Eacc; exact Enorm.
Qed.

(** X17. In exact arithmetic the program returns normally on every file whose
    rows have the four columns, whatever their content (unknown parents,
    a single parent, any trait field, repeated names), and prints eight
    lines for each distinct name. *)
Theorem program_returns_on_any_rows {order : SetOrder}
    (format4 : Qc -> string)
    (read_csv : string -> option (list (dict string)))
    (script path : string) (rows : list (dict string)) :
  read_csv path = Some rows ->
  Forall has_columns rows ->
  exists people lines,
    load_data rows = Ok people /\
    NoDup (keys people) /\
    main_program (arith := exact) format4 read_csv [script; path]
    = (lines, Returned) /\
    List.length lines = 8 * List.length people.
Proof.
  intros Eread Hrows.
  destruct (load_loop [] Hrows) as (people & Eload & _).
  fold (load_data rows) in Eload.
  assert (Hnd : NoDup (keys people)).
  { apply (load_loop_wellformed rows [] people Eload); [constructor|].
    intros k p []. }
  destruct (exact_main_returns people Hnd) as (final & Emain).
  destruct (report_all format4 (keys people) final) as (lines & Erep & Hlen).
  { rewrite (main_keys people final Emain); apply incl_refl. }
  exists people, lines.
  split; [exact Eload|]; split; [exact Hnd|].
  unfold main_program; cbn [List.length Nat.eqb negb nth].
  rewrite Eread, Eload, Emain, Erep.
  split; [reflexivity|].
  rewrite Hlen; unfold keys; rewrite length_map; reflexivity.
Qed.

Lemma program_returns_on_any_rows_witness :
  exists people lines,
    load_data [row_of "Harry" "Lily" "James" ""; row_of "James" "" "" "1";
               row_of "Lily" "" "" "0"] = Ok people /\
    NoDup (keys people) /\
    main_program (arith := exact) (order := insertion_order)
      (fun _ => "0.0000")
      (fun _ => Some [row_of "Harry" "Lily" "James" ""; row_of "James" "" "" "1";
                      row_of "Lily" "" "" "0"])
      ["heredity.py"; "family0.csv"]
    = (lines, Returned) /\
    List.length lines = 8 * List.length people.
Proof.
  apply (@program_returns_on_any_rows insertion_order (fun _ => "0.0000")
           (fun _ => Some [row_of "Harry" "Lily" "James" "";
                           row_of "James" "" "" "1"; row_of "Lily" "" "" "0"])
           "heredity.py" "family0.csv").
  - reflexivity.
  - repeat constructor;
      eexists; eexists; eexists; eexists; repeat split; reflexivity.
Defined.

(** ** The iteration order of sets does not matter *)

Section SumsOverSubsets.

Local Open Scope Qc_scope.

Lemma Qc_sum_app (xs ys : list Qc) : Qc_sum (xs ++ ys) = Qc_sum xs + Qc_sum ys.
Proof.
  induction xs as [|x xs IH]; simpl.
  - change (Q2Qc (Qmake 0 1)) with 0; ring.
  - rewrite IH; ring.
Qed.

Lemma Qc_sum_perm (xs ys : list Qc) : Permutation xs ys -> Qc_sum xs = Qc_sum ys.
Proof.
  induction 1 as [|x xs ys H IH|x y xs|xs ys zs H1 IH1 H2 IH2]; simpl;
    [reflexivity | rewrite IH; reflexivity | ring | congruence].
Qed.

Lemma Qc_sum_map_ext {A : Type} (f g : A -> Qc) (xs : list A) :
  (forall x, In x xs -> f x = g x) ->
  Qc_sum (map f xs) = Qc_sum (map g xs).
Proof.
  intros E; f_equal; apply map_ext_in; exact E.
Qed.

Lemma Qc_sum_flat_map {A B : Type} (f : A -> list B) (g : B -> Qc) (xs : list A) :
  Qc_sum (map g (flat_map f xs)) = Qc_sum (map (fun x => Qc_sum (map g (f x))) xs).
Proof.
  induction xs as [|x xs IH]; simpl; trivial.
  rewrite map_app, Qc_sum_app, IH; reflexivity.
Qed.

Lemma same_members_cons (x : string) (t t' : pyset) :
  same_members t t' -> same_members (x :: t) (x :: t').
Proof.
  intros H y; simpl; rewrite (H y); reflexivity.
Qed.

Lemma same_members_swap (x y : string) (t : pyset) :
  same_members (x :: y :: t) (y :: x :: t).
Proof.
  intros z; simpl; tauto.
Qed.

(** A sum over all the subsets does not depend on the order in which the
    set is listed, when the summand only looks at membership. *)
Lemma subsequences_sum_perm (s s' : pyset) :
  Permutation s s' ->
  forall F : pyset -> Qc,
  (forall t t', same_members t t' -> F t = F t') ->
  Qc_sum (map F (subsequences s)) = Qc_sum (map F (subsequences s')).
Proof.
  unfold pyset.
  induction 1 as [|x s s' H IH|x y s|s s' s'' H1 IH1 H2 IH2]; intros F HF.
  - reflexivity.
  - cbn [subsequences]; rewrite !map_app, !map_map, !Qc_sum_app.
    rewrite (IH F HF).
    rewrite (IH (fun t => F (x :: t)));
      [reflexivity | intros t t' Ht; apply HF, same_members_cons, Ht].
  - cbn [subsequences].
    repeat (rewrite ?map_app, ?map_map, ?Qc_sum_app).
    rewrite (Qc_sum_map_ext (fun t => F (y :: x :: t)) (fun t => F (x :: y :: t)))
      by (intros t _; apply HF, same_members_swap).
    ring.
  - rewrite (IH1 F HF); apply IH2; exact HF.
Qed.

Lemma powerset_sum {order : SetOrder} (s : pyset) (F : pyset -> Qc) :
  (forall t t', same_members t t' -> F t = F t') ->
  Qc_sum (map F (powerset s)) = Qc_sum (map F (subsequences s)).
Proof.
  intros HF.
  rewrite (Qc_sum_perm _ _ (Permutation_map F (powerset_subsequences s))).
  apply subsequences_sum_perm; [|exact HF].
  apply Permutation_sym, iter_perm.
Qed.

End SumsOverSubsets.

Section OrderIndependence.

Local Open Scope Qc_scope.

Lemma fails_evidence_same_members (people : dict person) (ht ht' : pyset) :
  same_members ht ht' -> fails_evidence people ht = fails_evidence people ht'.
Proof.
  intros H; unfold fails_evidence.
  induction people as [|[who p] people IH]; simpl; trivial.
  rewrite IH, (mem_same_members ht ht' who H); reflexivity.
Qed.

Lemma set_diff_same_members (s t t' : pyset) :
  same_members t t' -> set_diff s t = set_diff s t'.
Proof.
  intros H; unfold set_diff; apply filter_ext; intros x.
  rewrite (mem_same_members t t' x H); reflexivity.
Qed.

Lemma same_members_refl (s : pyset) : same_members s s.
Proof. intros x; reflexivity. Qed.

Lemma hypotheses_sum {order : SetOrder} (people : dict person)
    (G : pyset * pyset * pyset -> Qc) :
  (forall h h', same_hypothesis h h' -> G h = G h') ->
  Qc_sum (map G (hypotheses people)) = sum_over_hypotheses people G.
Proof.
  intros HG; unfold hypotheses, sum_over_hypotheses.
  rewrite Qc_sum_flat_map.
  assert (Inner : forall ht og,
            Qc_sum (map G (map (fun tg => (ht, og, tg))
                               (powerset (set_diff (keys people) og))))
            = Qc_sum (map (fun tg => G (ht, og, tg))
                          (subsequences (set_diff (keys people) og)))).
  { intros ht og; rewrite map_map.
    apply (powerset_sum _ (fun tg => G (ht, og, tg))).
    intros t t' Ht; apply HG; split; [|split]; cbn [fst snd];
      first [assumption | apply same_members_refl]. }
  assert (Middle : forall ht,
            Qc_sum (map G
              (flat_map
                 (fun og => map (fun tg => (ht, og, tg))
                                (powerset (set_diff (keys people) og)))
                 (powerset (keys people))))
            = Qc_sum
                (map (fun og =>
                        Qc_sum
                          (map (fun tg => G (ht, og, tg))
                               (subsequences (set_diff (keys people) og))))
                     (subsequences (keys people)))).
  { intros ht; rewrite Qc_sum_flat_map.
    rewrite (Qc_sum_map_ext _ _ _ (fun og _ => Inner ht og)).
    apply (powerset_sum _
             (fun og => Qc_sum (map (fun tg => G (ht, og, tg))
                                    (subsequences (set_diff (keys people) og))))).
    intros og og' Hog.
    rewrite (set_diff_same_members (keys people) og og' Hog).
    apply Qc_sum_map_ext; intros tg _; apply HG; split; [|split]; cbn [fst snd];
      first [assumption | apply same_members_refl]. }
  rewrite (Qc_sum_map_ext _
             (fun ht =>
                if fails_evidence people ht then Q2Qc (Qmake 0 1)
                else
                  Qc_sum
                    (map (fun og =>
                            Qc_sum
                              (map (fun tg => G (ht, og, tg))
                                   (subsequences (set_diff (keys people) og))))
                         (subsequences (keys people))))).
  - apply (powerset_sum _
             (fun ht =>
                if fails_evidence people ht then Q2Qc (Qmake 0 1)
                else
                  Qc_sum
                    (map (fun og =>
                            Qc_sum
                              (map (fun tg => G (ht, og, tg))
                                   (subsequences (set_diff (keys people) og))))
                         (subsequences (keys people))))).
    intros ht ht' Hht.
    rewrite (fails_evidence_same_members people ht ht' Hht).
    destruct (fails_evidence people ht'); [reflexivity|].
    apply Qc_sum_map_ext; intros og _.
    apply Qc_sum_map_ext; intros tg _; apply HG; split; [|split]; cbn [fst snd];
      first [assumption | apply same_members_refl].
  - intros ht _; destruct (fails_evidence people ht); [reflexivity|].
    apply Middle.
Qed.

Lemma weight_same_hypothesis (people : dict person) (h h' : pyset * pyset * pyset) :
  same_hypothesis h h' -> weight people h = weight people h'.
Proof.
  destruct h as [[ht og] tg], h' as [[ht' og'] tg'].
  intros (Hh & Ho & Ht); simpl in Hh, Ho, Ht; unfold weight.
  replace (joint_probability people og' tg' ht')
    with (joint_probability (arith := exact) people og tg ht); [reflexivity|].
  unfold joint_probability; apply for_each_ext; intros entry acc _.
  apply joint_step_same_members; assumption.
Qed.

Lemma gene_share_same_hypothesis (people : dict person) (who : string)
    (genes : nat) (h h' : pyset * pyset * pyset) :
  same_hypothesis h h' ->
  gene_share people who genes h = gene_share people who genes h'.
Proof.
  intros H; assert (W := weight_same_hypothesis people h h' H).
  destruct h as [[ht og] tg], h' as [[ht' og'] tg'].
  destruct H as (Hh & Ho & Ht); simpl in Hh, Ho, Ht; unfold gene_share.
  rewrite (genes_of_same_members og og' tg tg' (Some who) Ho Ht), W.
  reflexivity.
Qed.

Lemma trait_share_same_hypothesis (people : dict person) (who : string)
    (b : bool) (h h' : pyset * pyset * pyset) :
  same_hypothesis h h' ->
  trait_share people who b h = trait_share people who b h'.
Proof.
  intros H; assert (W := weight_same_hypothesis people h h' H).
  destruct h as [[ht og] tg], h' as [[ht' og'] tg'].
  destruct H as (Hh & Ho & Ht); simpl in Hh, Ho, Ht; unfold trait_share.
  rewrite (mem_same_members ht ht' who Hh), W; reflexivity.
Qed.

End OrderIndependence.

Section TableOfSums.

Local Open Scope Qc_scope.

Ltac qc_fields :=
  repeat match goal with
  | |- @eq Qc _ _ => ring
  | |- _ => f_equal
  end.

Lemma update_entry_shares (people : dict person) (ht og tg : pyset) (p : Qc)
    (entry : string * dist Qc) :
  weight people (ht, og, tg) = p ->
  update_entry og tg ht p entry =
  Ok (fst entry,
      Dist (ByGenes
              (two (dist_gene (snd entry))
               + Qc_sum (map (gene_share people (fst entry) 2) [(ht, og, tg)]))
              (one (dist_gene (snd entry))
               + Qc_sum (map (gene_share people (fst entry) 1) [(ht, og, tg)]))
              (zero (dist_gene (snd entry))
               + Qc_sum (map (gene_share people (fst entry) 0) [(ht, og, tg)])))
           (ByTrait
              (yes (dist_trait (snd entry))
               + Qc_sum (map (trait_share people (fst entry) true) [(ht, og, tg)]))
              (no (dist_trait (snd entry))
               + Qc_sum (map (trait_share people (fst entry) false)
                             [(ht, og, tg)])))).
Proof.
  intros W; destruct entry as [who [[g2 g1 g0] [ty tn]]].
  unfold update_entry, gene_share, trait_share.
  cbn [fst snd dist_gene dist_trait two one zero yes no map Qc_sum fold_right].
  rewrite W; clear W.
  change (Q2Qc (Qmake 0 1)) with 0.
  destruct (genes_of_range og tg (Some who)) as [E|[E|E]]; rewrite E;
    destruct (mem who ht);
    cbn [genes_get genes_set trait_get trait_set bind Nat.eqb Bool.eqb
         dist_gene dist_trait two one zero yes no add exact];
    qc_fields.
Qed.

Lemma accumulate_one_shares (people : dict person) (ht og tg : pyset)
    (probabilities : dict (dist Qc)) :
  accumulate_one people ht og tg probabilities
  = Ok (plus_shares people [(ht, og, tg)] probabilities).
Proof.
  unfold accumulate_one.
  destruct (joint_probability_ok (arith := exact) people og tg ht) as [p Ep].
  assert (W : weight people (ht, og, tg) = p) by (unfold weight; rewrite Ep; trivial).
  rewrite Ep; cbn [bind]; unfold update, plus_shares.
  induction probabilities as [|entry rest IH]; [reflexivity|].
  cbn [map_result map].
  rewrite (update_entry_shares people ht og tg p entry W), IH; reflexivity.
Qed.

Lemma plus_shares_cons (people : dict person) (h : pyset * pyset * pyset)
    (hs : list (pyset * pyset * pyset)) (probabilities : dict (dist Qc)) :
  plus_shares people hs (plus_shares people [h] probabilities)
  = plus_shares people (h :: hs) probabilities.
Proof.
  unfold plus_shares; rewrite map_map.
  apply map_ext; intros [who [[g2 g1 g0] [ty tn]]].
  cbn [fst snd dist_gene dist_trait two one zero yes no map Qc_sum fold_right].
  unfold Qc_sum; change (Q2Qc (Qmake 0 1)) with 0.
  qc_fields.
Qed.

(** In exact arithmetic the loop body run over a list of hypotheses
    leaves, in every slot, what was there plus the shares of the
    hypotheses. *)
Lemma accumulate_loop_shares (people : dict person)
    (hs : list (pyset * pyset * pyset)) :
  forall probabilities : dict (dist Qc),
  for_each hs
    (fun h probabilities =>
       let '(have_trait, one_gene, two_genes) := h in
       accumulate_one people have_trait one_gene two_genes probabilities)
    probabilities
  = Ok (plus_shares people hs probabilities).
Proof.
  induction hs as [|[[ht og] tg] hs IH]; intros probs.
  - cbn [for_each]; f_equal; unfold plus_shares.
    rewrite <- (map_id probs) at 1.
    apply map_ext; intros [who [[g2 g1 g0] [ty tn]]].
    cbn [fst snd dist_gene dist_trait two one zero yes no map Qc_sum fold_right].
    unfold Qc_sum; change (Q2Qc (Qmake 0 1)) with 0.
    qc_fields.
  - cbn [for_each]; rewrite accumulate_one_shares; cbn [bind].
    rewrite IH, plus_shares_cons; reflexivity.
Qed.

End TableOfSums.

(** X18. In exact arithmetic the result of [main] does not depend on the order
    in which Python iterates over sets: under any two iteration orders,
    the loops leave the same table and [main] returns the same
    distributions (or raises the same exception).  Every weight of the
    table before normalization is the sum, over the hypotheses that agree
    with the evidence, of the joint probabilities of those that give the
    person that gene count or trait value. *)
Theorem main_independent_of_set_order (order1 order2 : SetOrder)
    (people : dict person) :
  accumulate (arith := exact) (order := order1) people
  = accumulate (arith := exact) (order := order2) people /\
  main (arith := exact) (order := order1) people
  = main (arith := exact) (order := order2) people /\
  accumulate (arith := exact) (order := order1) people
  = Ok (map (fun entry : string * person =>
               let who := fst entry in
               (who,
                Dist (ByGenes
                        (sum_over_hypotheses people (gene_share people who 2))
                        (sum_over_hypotheses people (gene_share people who 1))
                        (sum_over_hypotheses people (gene_share people who 0)))
                     (ByTrait
                        (sum_over_hypotheses people (trait_share people who true))
                        (sum_over_hypotheses people
                           (trait_share people who false)))))
            people).
Proof.
  assert (Hacc : forall order : SetOrder,
            accumulate (arith := exact) (order := order) people
            = Ok (map (fun entry : string * person =>
               let who := fst entry in
               (who,
                Dist (ByGenes
                        (sum_over_hypotheses people (gene_share people who 2))
                        (sum_over_hypotheses people (gene_share people who 1))
                        (sum_over_hypotheses people (gene_share people who 0)))
                     (ByTrait
                        (sum_over_hypotheses people (trait_share people who true))
                        (sum_over_hypotheses people
                           (trait_share people who false)))))
            people)).
  { intros order.
    rewrite accumulate_hypotheses, accumulate_loop_shares.
    f_equal; unfold plus_shares, initial; rewrite map_map.
    apply map_ext; intros [who p].
    cbn [fst snd dist_gene dist_trait two one zero yes no of_int exact].
    change (Q2Qc (inject_Z 0)) with (Q2Qc (Qmake 0 1)).
    rewrite !Qcplus_0_l.
    rewrite !(hypotheses_sum people _ (gene_share_same_hypothesis people who _)).
    rewrite !(hypotheses_sum people _ (trait_share_same_hypothesis people who _)).
    reflexivity. }
  split; [rewrite (Hacc order1), (Hacc order2); reflexivity|].
  split; [unfold main; rewrite (Hacc order1), (Hacc order2); reflexivity|].
  apply Hacc.
Qed.

(** ** The order of the rows does not matter *)

Section RowOrder.

Local Open Scope Qc_scope.

Lemma fails_evidence_perm (people people' : dict person) (ht : pyset) :
  Permutation people people' ->
  fails_evidence people ht = fails_evidence people' ht.
Proof.
  unfold fails_evidence.
  induction 1 as [|x l l' H IH|x y l|l l' l'' H1 IH1 H2 IH2]; simpl;
    [reflexivity | rewrite IH; reflexivity | | congruence].
  rewrite !orb_assoc, (orb_comm _ (match trait (snd x) with
                                   | Some t => _ | None => _ end)).
  reflexivity.
Qed.

Lemma filter_perm {A : Type} (f : A -> bool) (l l' : list A) :
  Permutation l l' -> Permutation (filter f l) (filter f l').
Proof.
  induction 1 as [|x l l' H IH|x y l|l l' l'' H1 IH1 H2 IH2]; simpl.
  - constructor.
  - destruct (f x); [constructor|]; exact IH.
  - destruct (f x), (f y); try apply Permutation_refl; constructor.
  - eapply Permutation_trans; eassumption.
Qed.

Lemma exact_joint_loop_perm (og tg ht : pyset) (people people' : dict person) :
  Permutation people people' ->
  forall acc : Qc,
  for_each people (joint_step og tg ht) acc
  = for_each people' (joint_step og tg ht) acc.
Proof.
  induction 1 as [|x l l' Hperm IH|x y l|l l' l'' H1 IH1 H2 IH2];
    intros acc; simpl; trivial.
  - destruct (exact_joint_step_factor og tg ht x) as (f & _ & _ & Ef).
    rewrite Ef; simpl; apply IH.
  - destruct (exact_joint_step_factor og tg ht x) as (fx & _ & _ & Ex).
    destruct (exact_joint_step_factor og tg ht y) as (fy & _ & _ & Ey).
    rewrite !Ex, !Ey; simpl; rewrite !Ex, !Ey; simpl.
    replace (acc * fy * fx) with (acc * fx * fy) by ring.
    reflexivity.
  - rewrite IH1; apply IH2.
Qed.

Lemma weight_perm (people people' : dict person) (h : pyset * pyset * pyset) :
  Permutation people people' -> weight people h = weight people' h.
Proof.
  intros Hperm; destruct h as [[ht og] tg]; unfold weight, joint_probability.
  rewrite (exact_joint_loop_perm og tg ht people people' Hperm); reflexivity.
Qed.

Lemma sum_over_hypotheses_perm (people people' : dict person)
    (G G' : pyset * pyset * pyset -> Qc) :
  Permutation people people' ->
  (forall h h', same_hypothesis h h' -> G h = G h') ->
  (forall h, G h = G' h) ->
  sum_over_hypotheses people G = sum_over_hypotheses people' G'.
Proof.
  intros Hperm HG HGG'.
  assert (Hkeys : Permutation (keys people) (keys people'))
    by (apply Permutation_map; exact Hperm).
  assert (Hinner : forall ht og,
            Qc_sum (map (fun tg => G (ht, og, tg))
                        (subsequences (set_diff (keys people) og)))
            = Qc_sum (map (fun tg => G' (ht, og, tg))
                          (subsequences (set_diff (keys people') og)))).
  { intros ht og.
    rewrite (subsequences_sum_perm (set_diff (keys people) og)
               (set_diff (keys people') og)).
    - apply Qc_sum_map_ext; intros tg _; apply HGG'.
    - unfold set_diff; apply filter_perm; exact Hkeys.
    - intros t t' Ht; apply HG; split; [|split]; cbn [fst snd];
        first [assumption | apply same_members_refl]. }
  assert (Hmiddle : forall ht,
            Qc_sum (map (fun og =>
                           Qc_sum (map (fun tg => G (ht, og, tg))
                                       (subsequences (set_diff (keys people) og))))
                        (subsequences (keys people)))
            = Qc_sum (map (fun og =>
                             Qc_sum (map (fun tg => G' (ht, og, tg))
                                         (subsequences
                                            (set_diff (keys people') og))))
                          (subsequences (keys people')))).
  { intros ht.
    rewrite (subsequences_sum_perm (keys people) (keys people') Hkeys).
    - apply Qc_sum_map_ext; intros og _; apply Hinner.
    - intros og og' Hog.
      rewrite (set_diff_same_members (keys people) og og' Hog).
      apply Qc_sum_map_ext; intros tg _; apply HG; split; [|split];
        cbn [fst snd]; first [assumption | apply same_members_refl]. }
  unfold sum_over_hypotheses.
  rewrite (subsequences_sum_perm (keys people) (keys people') Hkeys).
  - apply Qc_sum_map_ext; intros ht _.
    rewrite (fails_evidence_perm people people' ht Hperm).
    destruct (fails_evidence people' ht); [reflexivity | apply Hmiddle].
  - intros ht ht' Hht.
    rewrite (fails_evidence_same_members people ht ht' Hht).
    destruct (fails_evidence people ht'); [reflexivity|].
    apply Qc_sum_map_ext; intros og _.
    apply Qc_sum_map_ext; intros tg _; apply HG; split; [|split];
      cbn [fst snd]; first [assumption | apply same_members_refl].
Qed.

Lemma map_result_perm {A B : Type} (f : A -> result B) (xs xs' : list A) :
  Permutation xs xs' ->
  forall ys, map_result f xs = Ok ys ->
  exists ys', map_result f xs' = Ok ys' /\ Permutation ys ys'.
Proof.
  induction 1 as [|x l l' H IH|x y l|l l' l'' H1 IH1 H2 IH2]; intros ys E.
  - exists ys; split; [exact E | apply Permutation_refl].
  - simpl in E |- *.
    destruct (f x) as [b|e]; [|discriminate].
    destruct (map_result f l) as [bs|e]; [|discriminate].
    simpl in E; inversion E; subst.
    destruct (IH bs eq_refl) as (bs' & E' & P).
    rewrite E'; exists (b :: bs'); split; [reflexivity | constructor; exact P].
  - simpl in E |- *.
    destruct (f y) as [b|e]; [|discriminate].
    destruct (f x) as [c|e]; [|discriminate].
    destruct (map_result f l) as [bs|e]; [|discriminate].
    simpl in E; inversion E; subst.
    exists (c :: b :: bs); split; [reflexivity | constructor].
  - destruct (IH1 ys E) as (ys' & E' & P).
    destruct (IH2 ys' E') as (ys'' & E'' & P').
    exists ys''; split; [exact E'' | eapply Permutation_trans; eassumption].
Qed.

End RowOrder.

(** X19. In exact arithmetic the distributions do not depend on the order of
    the rows: if [people'] lists the entries of [people] in another order
    and [main] returns on [people], then it returns on [people'] (under
    any iteration order of sets) the same entries, in the order of
    [people']. *)
Theorem main_independent_of_row_order (order order' : SetOrder)
    (people people' : dict person) (final : dict (dist Qc)) :
  Permutation people people' ->
  main (arith := exact) (order := order) people = Ok final ->
  exists final',
    main (arith := exact) (order := order') people' = Ok final' /\
    Permutation final final' /\
    keys final' = keys people'.
Proof.
  intros Hperm Emain.
  assert (Ekeys' : forall o p f, @main Qc exact o p = Ok f -> keys f = keys p)
    by (intros o p f; apply main_keys).
  unfold main in *.
  set (table := fun (people : dict person) (entry : string * person) =>
         let who := fst entry in
         (who,
          Dist (ByGenes
                  (sum_over_hypotheses people (gene_share people who 2))
                  (sum_over_hypotheses people (gene_share people who 1))
                  (sum_over_hypotheses people (gene_share people who 0)))
               (ByTrait
                  (sum_over_hypotheses people (trait_share people who true))
                  (sum_over_hypotheses people (trait_share people who false))))).
  assert (Hacc : forall (o : SetOrder) p,
            accumulate (arith := exact) (order := o) p = Ok (map (table p) p)).
  { intros o p.
    rewrite accumulate_hypotheses, accumulate_loop_shares.
    f_equal; unfold plus_shares, initial, table; rewrite map_map.
    apply map_ext; intros [who q].
    cbn [fst snd dist_gene dist_trait two one zero yes no of_int exact].
    change (Q2Qc (inject_Z 0)) with (Q2Qc (Qmake 0 1)).
    rewrite !Qcplus_0_l.
    rewrite !(hypotheses_sum p _ (gene_share_same_hypothesis p who _)).
    rewrite !(hypotheses_sum p _ (trait_share_same_hypothesis p who _)).
    reflexivity. }
  assert (Htable : forall entry, table people entry = table people' entry).
  { intros [who q]; unfold table; cbn [fst].
    assert (Hg : forall g,
              sum_over_hypotheses people (gene_share people who g)
              = sum_over_hypotheses people' (gene_share people' who g)).
    { intros g; apply sum_over_hypotheses_perm;
        [exact Hperm | apply gene_share_same_hypothesis|].
      intros [[ht og] tg]; unfold gene_share.
      rewrite (weight_perm people people' (ht, og, tg) Hperm); reflexivity. }
    assert (Ht : forall b,
              sum_over_hypotheses people (trait_share people who b)
              = sum_over_hypotheses people' (trait_share people' who b)).
    { intros b; apply sum_over_hypotheses_perm;
        [exact Hperm | apply trait_share_same_hypothesis|].
      intros [[ht og] tg]; unfold trait_share.
      rewrite (weight_perm people people' (ht, og, tg) Hperm); reflexivity. }
    rewrite !Hg, !Ht; reflexivity. }
  rewrite (Hacc order people) in Emain; cbn [bind] in Emain.
  rewrite (Hacc order' people'); cbn [bind].
  unfold normalize in *.
  destruct (map_result_perm normalize_entry
              (map (table people) people) (map (table people') people'))
    with (ys := final) as (final' & E' & P); [|exact Emain|].
  - rewrite (map_ext (table people) (table people') Htable).
    apply Permutation_map; exact Hperm.
  - exists final'; split; [exact E'|]; split; [exact P|].
    apply (Ekeys' order' people' final').
    unfold main; rewrite (Hacc order' people'); exact E'.
Qed.

Lemma main_independent_of_row_order_witness :
  exists final',
    main (arith := exact) (order := insertion_order)
      [("James", Person "James" None None (Some true));
       ("Harry", Person "Harry" None None None)] = Ok final' /\
    Permutation
      [("Harry", Dist (ByGenes (lit 1 2) (lit 3 2) (lit 96 2))
                      (ByTrait (lit 329 4) (lit 9671 4)));
       ("James", Dist (ByGenes (Q2Qc (Qmake 65 329)) (Q2Qc (Qmake 168 329))
                               (Q2Qc (Qmake 96 329)))
                      (ByTrait (of_int 1) (of_int 0)))]
      final' /\
    keys final' = ["James"; "Harry"].
Proof.
  apply (main_independent_of_row_order insertion_order insertion_order
           [("Harry", Person "Harry" None None None);
            ("James", Person "James" None None (Some true))]).
  - constructor.
  - vm_compute.
    repeat match goal with
    | |- @eq Qc _ _ => apply Qc_decomp; reflexivity
    | |- _ => f_equal
    end.
Defined.

(** ** What can go wrong, and a person with one parent *)

Section OnlyZeroDivision.

Context {T : Type} {arith : Arith T}.

Lemma accumulate_loop_ok (people : dict person)
    (hs : list (pyset * pyset * pyset)) :
  forall probabilities : dict (dist T),
  exists probabilities',
    for_each hs
      (fun h probabilities =>
         let '(have_trait, one_gene, two_genes) := h in
         accumulate_one people have_trait one_gene two_genes probabilities)
      probabilities = Ok probabilities'.
Proof.
  induction hs as [|[[ht og] tg] hs IH]; intros probs; simpl; [eauto|].
  destruct (accumulate_one_ok people ht og tg probs) as (p & probs1 & _ & E1 & _).
  rewrite E1; simpl; apply IH.
Qed.

Lemma map_result_err {A B : Type} (f : A -> result B) (xs : list A) (e e0 : exn) :
  (forall x e', f x = Err e' -> e' = e0) ->
  map_result f xs = Err e -> e = e0.
Proof.
  intros Hf; induction xs as [|x xs IH]; simpl; [discriminate|].
  destruct (f x) as [y|e'] eqn:E; simpl.
  - destruct (map_result f xs) as [ys|e'']; simpl; [discriminate|].
    intros H; inversion H; subst; apply IH; reflexivity.
  - intros H; inversion H; subst; apply (Hf x e E).
Qed.

End OnlyZeroDivision.

(** X20. For any arithmetic, any dict of people (related or not, with or
    without parents in the population) and any iteration order of sets:
    the loops of [main] never raise, and keep the table's names; so the
    only exception [main] can raise is the [ZeroDivisionError] of
    [normalize], never a [KeyError]. *)
Theorem main_raises_only_zero_division {T : Type} {arith : Arith T}
    {order : SetOrder} (people : dict person) :
  (exists probabilities : dict (dist T),
     accumulate people = Ok probabilities /\
     keys probabilities = keys people) /\
  (forall e, main (T := T) people = Err e -> e = ZeroDivisionError).
Proof.
  destruct (accumulate_loop_ok people (hypotheses people) (initial people))
    as [probs E].
  assert (Ek := accumulate_loop_keys people (hypotheses people) _ _ E).
  rewrite initial_keys in Ek.
  rewrite <- accumulate_hypotheses in E.
  split; [exists probs; auto|].
  intros e; unfold main; rewrite E; cbn [bind]; unfold normalize.
  apply map_result_err; intros entry e'; apply normalize_entry_err.
Qed.

(** For any arithmetic, a person with a recorded mother and no recorded
    father (or the reverse) is handled as a person with two parents, the
    absent one counting as a parent with 0 copies: the gene probability
    is the one obtained with any name outside both gene sets in the place
    of the absent parent. *)
Lemma single_parent_counts_absent_as_zero {T : Type} {arith : Arith T}
    (og tg : pyset) (who parent absent : string) (n : string) (t : option bool) :
  mem absent og = false -> mem absent tg = false ->
  gene_prob (T := T) og tg who (Person n (Some parent) None t)
  = gene_prob og tg who (Person n (Some parent) (Some absent) t) /\
  gene_prob (T := T) og tg who (Person n None (Some parent) t)
  = gene_prob og tg who (Person n (Some absent) (Some parent) t) /\
  genes_of og tg None = 0 /\ genes_of og tg (Some absent) = 0.
Proof.
  intros H1 H2.
  assert (E : genes_of og tg (Some absent) = genes_of og tg None)
    by (unfold genes_of; simpl; rewrite H1, H2; reflexivity).
  unfold gene_prob; simpl; rewrite E.
  repeat split; reflexivity.
Qed.


(** ** Observed traits *)

(** *** Values kept by the operations of the loops *)

Section Closed.

Context {T : Type} {arith : Arith T}.

Variable P : T -> Prop.

Hypothesis P_add : forall x y, P x -> P y -> P (add x y).
Hypothesis P_mul : forall x y, P x -> P y -> P (mul x y).
Hypothesis P_constants :
  Forall P [of_int 0; of_int 1; lit 1 2; lit 3 2; lit 96 2; lit 65 2; lit 35 2;
            lit 56 2; lit 44 2; lit 99 2; lit 5 1; sub (of_int 1) (lit 1 2)].

Lemma closed_constant (x : T) :
  In x [of_int 0; of_int 1; lit 1 2; lit 3 2; lit 96 2; lit 65 2; lit 35 2;
        lit 56 2; lit 44 2; lit 99 2; lit 5 1; sub (of_int 1) (lit 1 2)] ->
  P x.
Proof. apply (proj1 (Forall_forall _ _) P_constants). Qed.

Lemma closed_get_gene_prob (parent_genes : nat) (is_mutation : bool) :
  P (get_gene_prob parent_genes is_mutation).
Proof.
  unfold get_gene_prob.
  destruct (Nat.eqb parent_genes 2); [|destruct (Nat.eqb parent_genes 1)];
    destruct is_mutation; apply closed_constant; simpl; auto 15.
Qed.

Lemma closed_gene_prob (one_gene two_genes : pyset) (who : string) (p : person)
    (gp : T) :
  gene_prob one_gene two_genes who p = Ok gp -> P gp.
Proof.
  unfold gene_prob.
  destruct (is_none (mother p) && is_none (father p)).
  - destruct (genes_of one_gene two_genes (Some who)) as [|[|[|g]]]; simpl;
      intros E; inversion E; subst; apply closed_constant; simpl; auto 15.
  - destruct (Nat.eqb _ 2); [|destruct (Nat.eqb _ 1)];
      intros E; inversion E; subst;
      repeat first [apply P_add | apply P_mul | apply closed_get_gene_prob].
Qed.

Lemma closed_trait_prob (genes : nat) (row : by_trait T) (b : bool) :
  genes_get (PROBS_trait PROBS) genes = Ok row -> P (trait_get row b).
Proof.
  destruct genes as [|[|[|g]]]; simpl; intros E; inversion E; subst;
    destruct b; apply closed_constant; simpl; auto 15.
Qed.

Lemma closed_joint_probability (people : dict person)
    (one_gene two_genes have_trait : pyset) (r : T) :
  joint_probability people one_gene two_genes have_trait = Ok r -> P r.
Proof.
  unfold joint_probability.
  assert (H1 : P (of_int 1)) by (apply closed_constant; simpl; auto).
  revert H1; generalize (of_int (T := T) 1) as acc; revert r.
  induction people as [|entry people IH]; simpl; intros r acc Hacc E.
  - inversion E; subst; exact Hacc.
  - destruct (joint_step_ok one_gene two_genes have_trait entry acc)
      as (gp & tp & Egp & Etp & Estep).
    rewrite Estep in E; simpl in E.
    apply (IH r _ (P_mul _ _ Hacc
                     (P_mul _ _ (closed_gene_prob _ _ _ _ _ Egp)
                                (closed_trait_prob _ _ _ Etp))) E).
Qed.

(** The trait weights that the loops of [main] build up for a person. *)
Lemma closed_trait_slots (people : dict person)
    (hs : list (pyset * pyset * pyset)) (who : string) :
  forall probabilities probabilities',
  (forall d b, In (who, d) probabilities -> P (trait_get (dist_trait d) b)) ->
  for_each hs
    (fun h probabilities =>
       let '(have_trait, one_gene, two_genes) := h in
       accumulate_one people have_trait one_gene two_genes probabilities)
    probabilities = Ok probabilities' ->
  forall d b, In (who, d) probabilities' -> P (trait_get (dist_trait d) b).
Proof.
  induction hs as [|[[ht og] tg] hs IH]; simpl; intros probs probs' Hinit Hrun.
  - inversion Hrun; subst; exact Hinit.
  - destruct (accumulate_one_ok people ht og tg probs) as (p & probs1 & Ep & E1 & HF).
    rewrite E1 in Hrun; simpl in Hrun.
    apply (IH probs1 probs'); [|exact Hrun].
    intros d b Hd.
    destruct (Forall2_In_r HF Hd) as ([who0 d0] & Hin0 & Hslots).
    destruct Hslots as (Ewho & _ & _ & Hsel & Hother); simpl in *; subst who0.
    assert (Hp := closed_joint_probability _ _ _ _ _ Ep).
    destruct (Bool.bool_dec b (mem who ht)) as [->|Hb].
    + rewrite Hsel; apply P_add; [apply Hinit; exact Hin0 | exact Hp].
    + assert (Eb : forall c, b <> c -> b = negb c)
        by (intros []; destruct b; simpl; congruence).
      rewrite (Eb _ Hb), Hother; apply Hinit; exact Hin0.
Qed.

Lemma closed_accumulate {order : SetOrder} (people : dict person)
    (probabilities : dict (dist T)) (who : string) (d : dist T) (b : bool) :
  accumulate people = Ok probabilities ->
  In (who, d) probabilities -> P (trait_get (dist_trait d) b).
Proof.
  rewrite accumulate_hypotheses; intros E.
  apply (closed_trait_slots people (hypotheses people) who
           (initial people) probabilities); [|exact E].
  intros d0 b0 Hd; unfold initial in Hd.
  apply in_map_iff in Hd; destruct Hd as (entry & Ee & _).
  inversion Ee; subst; destruct b0; apply closed_constant; simpl; auto.
Qed.

End Closed.

(** *** The slots of an observed person, for any arithmetic *)

Section ObservedSlots.

Context {T : Type} {arith : Arith T} {order : SetOrder}.

(** The loops of [main] return, and never touch the slot of the trait
    value that contradicts an observation. *)
Lemma observed_other_slot (people : dict person) (who : string) (p : person)
    (b : bool) :
  NoDup (keys people) -> In (who, p) people -> trait p = Some b ->
  exists probabilities d0,
    accumulate people = Ok probabilities /\
    dict_get probabilities who = Ok d0 /\
    trait_get (dist_trait d0) (negb b) = of_int 0.
Proof.
  intros Hnd Hin Hb.
  destruct (accumulate_loop_ok (T := T) people (hypotheses people) (initial people))
    as [probs E].
  assert (Ek := accumulate_loop_keys people (hypotheses people) _ _ E).
  rewrite initial_keys in Ek.
  destruct (dict_get_keys probs who) as [d0 Ed0].
  { rewrite Ek; change who with (fst (who, p)); apply in_map; exact Hin. }
  exists probs, d0.
  split; [rewrite accumulate_hypotheses; exact E|].
  split; [exact Ed0|].
  apply (@unselected_trait_slot T arith people (hypotheses people) who b
           (of_int 0) (initial people) probs); [| |exact E|].
  - intros ht og tg Hh; apply hypotheses_In in Hh.
    destruct Hh as (_ & Ef & _).
    apply (@evidence_forces people ht who p b Ef Hin Hb).
  - intros d Hd; unfold initial in Hd.
    apply in_map_iff in Hd; destruct Hd as (entry & Ee & _).
    inversion Ee; subst; destruct b; reflexivity.
  - apply dict_get_In; exact Ed0.
Qed.

(** What [normalize] makes of the two trait slots of a person. *)
Lemma normalized_trait_slots (probabilities final : dict (dist T))
    (who : string) (d0 : dist T) :
  NoDup (keys probabilities) ->
  normalize probabilities = Ok final ->
  dict_get probabilities who = Ok d0 ->
  is_zero (trait_total d0) = false /\
  dict_get final who
  = Ok (Dist (ByGenes (quotient (two (dist_gene d0)) (gene_total d0))
                      (quotient (one (dist_gene d0)) (gene_total d0))
                      (quotient (zero (dist_gene d0)) (gene_total d0)))
             (ByTrait (quotient (yes (dist_trait d0)) (trait_total d0))
                      (quotient (no (dist_trait d0)) (trait_total d0)))).
Proof.
  intros Hnd En Ed0.
  assert (Hin := dict_get_In _ _ Ed0).
  split; [apply (normalize_ok_totals _ _ En who d0 Hin)|].
  assert (HF := normalize_ok_normalized _ _ En).
  assert (Hk := normalize_keys _ _ En).
  rewrite <- Hk in Hnd.
  clear En Ed0 Hk.
  induction HF as [|[k0 v0] [k1 v1] xs ys [Ek Ev] HF IH]; [destruct Hin|].
  simpl in Ek, Ev; subst k1.
  destruct Hin as [E|Hin].
  - inversion E; subst; simpl; rewrite String.eqb_refl; reflexivity.
  - simpl in Hnd; inversion Hnd as [|? ? Hnotin Hnd']; subst.
    simpl; destruct (String.eqb who k0) eqn:Ewho.
    + apply String.eqb_eq in Ewho; subst k0; exfalso; apply Hnotin.
      rewrite (Forall2_keys HF) by (intros x y Hxy; apply Hxy).
      change who with (fst (who, d0)); apply in_map; exact Hin.
    + apply IH; assumption.
Qed.

(** An arithmetic in which, for the weights singled out by [regular],
    adding zero changes nothing and a number divided by itself is one. *)
Variable regular : T -> Prop.

Hypothesis sum_yes : forall y, regular y -> sum [y; of_int 0] = y.
Hypothesis sum_no : forall y, regular y -> sum [of_int 0; y] = y.
Hypothesis quotient_self :
  forall y, regular y -> is_zero y = false -> quotient y y = of_int 1.
Hypothesis quotient_zero :
  forall y, regular y -> is_zero y = false -> quotient (of_int 0) y = of_int 0.

Lemma observed_slots_normalized (probabilities final : dict (dist T))
    (who : string) (d0 : dist T) (b : bool) :
  NoDup (keys probabilities) ->
  normalize probabilities = Ok final ->
  dict_get probabilities who = Ok d0 ->
  trait_get (dist_trait d0) (negb b) = of_int 0 ->
  regular (trait_get (dist_trait d0) b) ->
  exists d,
    dict_get final who = Ok d /\
    trait_get (dist_trait d) b = of_int 1 /\
    trait_get (dist_trait d) (negb b) = of_int 0.
Proof.
  intros Hnd En Ed0 H0 Hreg.
  destruct (normalized_trait_slots _ _ _ _ Hnd En Ed0) as [Hnz Ed].
  eexists; split; [exact Ed|].
  unfold trait_total, trait_values in *.
  destruct d0 as [g [y n]]; destruct b; cbn [trait_get dist_trait yes no negb] in *.
  - subst n; rewrite (sum_yes _ Hreg) in *.
    split; [apply quotient_self | apply quotient_zero]; assumption.
  - subst y; rewrite (sum_no _ Hreg) in *.
    split; [apply quotient_self | apply quotient_zero]; assumption.
Qed.

End ObservedSlots.

(** *** Exact arithmetic *)

Lemma exact_observed_trait {order : SetOrder} (people : dict person)
    (who : string) (p : person) (b : bool) :
  NoDup (keys people) -> In (who, p) people -> trait p = Some b ->
  exists final d,
    main (arith := exact) people = Ok final /\
    dict_get final who = Ok d /\
    trait_get (dist_trait d) b = of_int 1 /\
    trait_get (dist_trait d) (negb b) = of_int 0.
Proof.
  intros Hnd Hin Hb.
  destruct (exact_main_returns people Hnd) as (final & Emain).
  destruct (observed_other_slot (arith := exact) people who p b Hnd Hin Hb)
    as (probs & d0 & Eacc & Ed0 & H0).
  assert (Ek : keys probs = keys people).
  { rewrite accumulate_hypotheses in Eacc.
    rewrite (accumulate_loop_keys _ _ _ _ Eacc); apply initial_keys. }
  unfold main in Emain; rewrite Eacc in Emain; cbn [bind] in Emain.
  destruct (observed_slots_normalized (arith := exact) (fun _ => True))
    with (probabilities := probs) (final := final) (who := who) (d0 := d0) (b := b)
    as (d & Ed & E1 & E0); trivial.
  - intros y _; cbn [sum exact fold_left of_int].
    change (Q2Qc (inject_Z 0)) with (Q2Qc (Qmake 0 1)); ring.
  - intros y _; cbn [sum exact fold_left of_int].
    change (Q2Qc (inject_Z 0)) with (Q2Qc (Qmake 0 1)); ring.
  - intros y _ Hy; cbn [quotient exact of_int].
    change (Q2Qc (inject_Z 1)) with (Q2Qc (Qmake 1 1)); field.
    intros E; apply (proj2 (exact_is_zero y)) in E; congruence.
  - intros y _ Hy; cbn [quotient exact of_int].
    change (Q2Qc (inject_Z 0)) with (Q2Qc (Qmake 0 1)); field.
    intros E; apply (proj2 (exact_is_zero y)) in E; congruence.
  - rewrite Ek; exact Hnd.
  - exists final, d; unfold main; rewrite Eacc; auto.
Qed.

(** *** binary64 *)

Lemma float_zero_spec : Prim2SF (float_of_Z 0) = S754_zero false.
Proof. vm_compute; reflexivity. Qed.

Lemma float_add_zero_l (y : float) (m : positive) (e : Z) :
  Prim2SF y = S754_finite false m e -> PrimFloat.add (float_of_Z 0) y = y.
Proof.
  intros E; apply Prim2SF_inj.
  rewrite add_spec, float_zero_spec, E; reflexivity.
Qed.

Lemma float_add_zero_r (y : float) (m : positive) (e : Z) :
  Prim2SF y = S754_finite false m e -> PrimFloat.add y (float_of_Z 0) = y.
Proof.
  intros E; apply Prim2SF_inj.
  rewrite add_spec, float_zero_spec, E; reflexivity.
Qed.

Lemma float_sub_self (y : float) (m : positive) (e : Z) :
  Prim2SF y = S754_finite false m e -> PrimFloat.sub y y = float_of_Z 0.
Proof.
  intros E; apply Prim2SF_inj.
  rewrite sub_spec, float_zero_spec, E.
  unfold SF64sub, SFsub; cbv zeta.
  rewrite Z.min_id; unfold shl_align; rewrite Z.sub_diag.
  cbn [fst cond_Zopp]; reflexivity.
Qed.

Lemma float_abs_positive (y : float) (m : positive) (e : Z) :
  Prim2SF y = S754_finite false m e -> PrimFloat.abs y = y.
Proof.
  intros E; apply Prim2SF_inj.
  rewrite abs_spec, E; reflexivity.
Qed.

Lemma float_leb_zero_positive (y : float) (m : positive) (e : Z) :
  Prim2SF y = S754_finite false m e ->
  PrimFloat.leb (float_of_Z 0) y = true /\ PrimFloat.leb y (float_of_Z 0) = false.
Proof.
  intros E; rewrite !leb_spec, float_zero_spec, E; split; reflexivity.
Qed.

Lemma float_positive_nonzero (y : float) (m : positive) (e : Z) :
  Prim2SF y = S754_finite false m e -> float_is_zero y = false.
Proof.
  intros E; unfold float_is_zero.
  rewrite eqb_spec, float_zero_spec, E; reflexivity.
Qed.

Lemma div_eucl_shiftl (m : positive) :
  Z.div_eucl (Z.shiftl (Zpos m) 53) (Zpos m) = (9007199254740992, 0)%Z.
Proof.
  assert (E : forall a b, Z.div_eucl a b = (Z.div a b, Z.modulo a b)).
  { intros a b; unfold Z.div, Z.modulo; destruct (Z.div_eucl a b); reflexivity. }
  rewrite E, Z.shiftl_mul_pow2 by lia.
  rewrite (Z.mul_comm (Zpos m)).
  rewrite Z.div_mul, Z.mod_mul by lia.
  reflexivity.
Qed.

(** The quotient of a finite double by itself; the division is exact, so
    no rounding takes place. *)
Lemma SFdiv_self (s : bool) (m : positive) (e : Z) :
  SFdiv prec emax (S754_finite s m e) (S754_finite s m e)
  = S754_finite false 4503599627370496 (-52).
Proof.
  unfold SFdiv, SFdiv_core_binary.
  replace (Z.sub (Z.add (Zdigits2 (Zpos m)) e) (Z.add (Zdigits2 (Zpos m)) e))
    with 0%Z by lia.
  rewrite Z.sub_diag.
  change (Z.min (fexp prec emax 0) 0) with (-53)%Z.
  change (0 - -53)%Z with 53%Z.
  cbv beta iota zeta.
  rewrite div_eucl_shiftl.
  assert (L : new_location (Zpos m) 0 = loc_Exact).
  { unfold new_location; destruct (Z.even (Zpos m)); reflexivity. }
  rewrite L.
  destruct s; vm_compute; reflexivity.
Qed.

Lemma float_div_self (y : float) (m : positive) (e : Z) :
  Prim2SF y = S754_finite false m e -> PrimFloat.div y y = float_of_Z 1.
Proof.
  intros E; apply Prim2SF_inj.
  rewrite div_spec, E; unfold SF64div; rewrite SFdiv_self.
  vm_compute; reflexivity.
Qed.

Lemma float_div_zero (y : float) (m : positive) (e : Z) :
  Prim2SF y = S754_finite false m e ->
  PrimFloat.div (float_of_Z 0) y = float_of_Z 0.
Proof.
  intros E; apply Prim2SF_inj.
  rewrite div_spec, float_zero_spec, E; reflexivity.
Qed.

Lemma float_sum_positive (y : float) (m : positive) (e : Z) :
  Prim2SF y = S754_finite false m e ->
  float_sum [y; float_of_Z 0] = y /\ float_sum [float_of_Z 0; y] = y.
Proof.
  intros E; unfold float_sum; cbn [fold_left].
  split.
  - rewrite (float_add_zero_l y m e E); apply (float_add_zero_r y m e E).
  - change (PrimFloat.add (float_of_Z 0) (float_of_Z 0)) with (float_of_Z 0).
    apply (float_add_zero_l y m e E).
Qed.

Lemma neumaier_zero_positive (y : float) (m : positive) (e : Z) :
  Prim2SF y = S754_finite false m e ->
  neumaier_step (float_of_Z 0, float_of_Z 0) y = (y, float_of_Z 0) /\
  neumaier_step (y, float_of_Z 0) (float_of_Z 0) = (y, float_of_Z 0).
Proof.
  intros E; unfold neumaier_step.
  destruct (float_leb_zero_positive y m e E) as [L1 L2].
  change (PrimFloat.abs (float_of_Z 0)) with (float_of_Z 0).
  rewrite (float_abs_positive y m e E), L1, L2.
  rewrite (float_add_zero_l y m e E), (float_add_zero_r y m e E).
  rewrite (float_sub_self y m e E).
  split; reflexivity.
Qed.

Lemma neumaier_sum_positive (y : float) (m : positive) (e : Z) :
  Prim2SF y = S754_finite false m e ->
  neumaier_sum [y; float_of_Z 0] = y /\ neumaier_sum [float_of_Z 0; y] = y.
Proof.
  intros E; unfold neumaier_sum; cbn [fold_left].
  destruct (neumaier_zero_positive y m e E) as [S1 S2].
  split.
  - rewrite S1, S2; reflexivity.
  - change (neumaier_step (float_of_Z 0, float_of_Z 0) (float_of_Z 0))
      with (float_of_Z 0, float_of_Z 0).
    rewrite S1; reflexivity.
Qed.

(** A finite double without a minus sign is [+0.0] or positive. *)
Lemma float_finite_unsigned (y : float) :
  float_is_finite y = true -> float_unsigned y ->
  y = float_of_Z 0 \/ float_positive y.
Proof.
  unfold float_is_finite, float_unsigned, float_positive.
  rewrite ltb_spec, abs_spec.
  destruct (Prim2SF y) as [s|s| |s m e] eqn:E; intros Hfin Hs.
  - left; apply Prim2SF_inj; rewrite E, float_zero_spec, Hs; reflexivity.
  - vm_compute in Hfin; discriminate Hfin.
  - vm_compute in Hfin; discriminate Hfin.
  - right; subst s; eauto.
Qed.

(** Sums and products of doubles without a minus sign have none. *)
Lemma binary_round_aux_sign (s : bool) (m e : Z) (l : location) :
  match binary_round_aux prec emax s m e l with
  | S754_zero s' | S754_infinity s' | S754_finite s' _ _ => s' = s
  | S754_nan => True
  end.
Proof.
  unfold binary_round_aux.
  destruct (shr_fexp prec emax m e l) as [mrs e'].
  destruct (shr_fexp prec emax _ e' loc_Exact) as [mrs' e''].
  destruct (shr_m mrs'); trivial.
  destruct (Z.leb e'' (emax - prec)); trivial.
Qed.

Lemma float_unsigned_mul (x y : float) :
  float_unsigned x -> float_unsigned y -> float_unsigned (PrimFloat.mul x y).
Proof.
  unfold float_unsigned; rewrite mul_spec; unfold SF64mul.
  destruct (Prim2SF x) as [sx|sx| |sx mx ex], (Prim2SF y) as [sy|sy| |sy my ey];
    simpl; trivial; intros -> ->; trivial.
  apply (binary_round_aux_sign false).
Qed.

Lemma binary_round_sign (s : bool) (m : positive) (e : Z) :
  match binary_round prec emax s m e with
  | S754_zero s' | S754_infinity s' | S754_finite s' _ _ => s' = s
  | S754_nan => True
  end.
Proof.
  unfold binary_round.
  destruct (shl_align m e _) as [mz ez].
  apply binary_round_aux_sign.
Qed.

Lemma float_unsigned_add (x y : float) :
  float_unsigned x -> float_unsigned y -> float_unsigned (PrimFloat.add x y).
Proof.
  unfold float_unsigned; rewrite add_spec; unfold SF64add.
  destruct (Prim2SF x) as [sx|sx| |sx mx ex], (Prim2SF y) as [sy|sy| |sy my ey];
    intros Hx Hy; try (simpl in *; subst; trivial; fail).
  subst sx sy; unfold SFadd; cbv zeta; cbn [cond_Zopp].
  set (a := fst (shl_align mx ex (Z.min ex ey))).
  set (b := fst (shl_align my ey (Z.min ex ey))).
  change (Z.pos a + Z.pos b)%Z with (Z.pos (a + b)).
  cbn [binary_normalize]; apply (binary_round_sign false).
Qed.

Lemma float_unsigned_constants :
  Forall float_unsigned
    [float_of_Z 0; float_of_Z 1; float_lit 1 2; float_lit 3 2; float_lit 96 2;
     float_lit 65 2; float_lit 35 2; float_lit 56 2; float_lit 44 2;
     float_lit 99 2; float_lit 5 1; PrimFloat.sub (float_of_Z 1) (float_lit 1 2)].
Proof.
  repeat constructor; vm_compute; reflexivity.
Qed.

Lemma binary64_observed_trait {order : SetOrder} (arith : Arith float)
    (people : dict person) (who : string) (p : person) (b : bool) :
  arith = binary64 \/ arith = binary64_py312 ->
  NoDup (keys people) -> In (who, p) people -> trait p = Some b ->
  exists probabilities d0,
    accumulate (arith := arith) people = Ok probabilities /\
    dict_get probabilities who = Ok d0 /\
    trait_get (dist_trait d0) (negb b) = float_of_Z 0 /\
    forall final,
      main (arith := arith) people = Ok final ->
      float_is_finite (trait_get (dist_trait d0) b) = true ->
      exists d,
        dict_get final who = Ok d /\
        trait_get (dist_trait d) b = float_of_Z 1 /\
        trait_get (dist_trait d) (negb b) = float_of_Z 0.
Proof.
  intros Harith Hnd Hin Hb.
  destruct (observed_other_slot (arith := arith) people who p b Hnd Hin Hb)
    as (probs & d0 & Eacc & Ed0 & H0).
  assert (Ek : keys probs = keys people).
  { rewrite accumulate_hypotheses in Eacc.
    rewrite (accumulate_loop_keys _ _ _ _ Eacc); apply initial_keys. }
  assert (Hnd' : NoDup (keys probs)) by (rewrite Ek; exact Hnd).
  assert (Hsign : float_unsigned (trait_get (dist_trait d0) b)).
  { assert (Hin0 : In (who, d0) probs) by (apply dict_get_In; exact Ed0).
    destruct Harith as [-> | ->].
    - apply (closed_accumulate (arith := binary64) float_unsigned
               float_unsigned_add float_unsigned_mul float_unsigned_constants
               (order := order) people probs who d0 b Eacc Hin0).
    - apply (closed_accumulate (arith := binary64_py312) float_unsigned
               float_unsigned_add float_unsigned_mul float_unsigned_constants
               (order := order) people probs who d0 b Eacc Hin0). }
  exists probs, d0.
  split; [exact Eacc|].
  split; [exact Ed0|].
  split; [destruct Harith as [-> | ->]; exact H0|].
  intros final Emain Hfin.
  unfold main in Emain; rewrite Eacc in Emain; cbn [bind] in Emain.
  destruct (float_finite_unsigned _ Hfin Hsign) as [Hzero|Hpos].
  - (* a weight of zero makes [normalize] raise *)
    exfalso.
    destruct (normalized_trait_slots _ _ _ _ Hnd' Emain Ed0) as [Hnz _].
    assert (Et : dist_trait d0 = ByTrait (float_of_Z 0) (float_of_Z 0)).
    { destruct d0 as [g [y n]]; destruct b;
        cbn [trait_get dist_trait yes no negb] in *;
        destruct Harith as [-> | ->]; cbn [of_int binary64 binary64_py312] in H0;
        subst; reflexivity. }
    unfold trait_total in Hnz; rewrite Et in Hnz.
    destruct Harith as [-> | ->]; vm_compute in Hnz; discriminate Hnz.
  - destruct (observed_slots_normalized (arith := arith) float_positive)
      with (probabilities := probs) (final := final) (who := who) (d0 := d0) (b := b)
      as (d & Ed & E1 & E0); trivial.
    + intros y (m & e & E); destruct Harith as [-> | ->];
        [apply (float_sum_positive y m e E) | apply (neumaier_sum_positive y m e E)].
    + intros y (m & e & E); destruct Harith as [-> | ->];
        [apply (float_sum_positive y m e E) | apply (neumaier_sum_positive y m e E)].
    + intros y (m & e & E) _; destruct Harith as [-> | ->];
        apply (float_div_self y m e E).
    + intros y (m & e & E) _; destruct Harith as [-> | ->];
        apply (float_div_zero y m e E).
    + exists d; destruct Harith as [-> | ->]; auto.
Qed.

(** C3. For a population (a dict, so with distinct names) that is not empty
    and a person in it whose trait is observed, whatever the iteration
    order of sets.  In exact arithmetic [main] ends without raising and
    the person's final trait distribution holds exactly 1 at the observed
    value and exactly 0 at the other one.  On binary64, under both
    algorithms of [sum]: the loops leave the slot of the other value
    untouched at 0 and put in the slot of the observed value a weight
    [w]; [normalize] divides both by the trait total, which is [w] itself,
    so whenever [main] returns and [w] is finite (it is a sum of products
    of probabilities, and is not finite only if that sum overflows) the
    final trait distribution holds exactly the double 1.0 at the observed
    value and exactly 0.0 at the other one. *)
Theorem observed_trait_is_certain {order : SetOrder} (people : dict person)
    (who : string) (p : person) (b : bool) :
  NoDup (keys people) ->
  people <> [] ->
  In (who, p) people ->
  trait p = Some b ->
  (exists final d,
     main (arith := exact) people = Ok final /\
     dict_get final who = Ok d /\
     trait_get (dist_trait d) b = of_int 1 /\
     trait_get (dist_trait d) (negb b) = of_int 0) /\
  (forall arith : Arith float,
     arith = binary64 \/ arith = binary64_py312 ->
     exists probabilities d0,
       accumulate (arith := arith) people = Ok probabilities /\
       dict_get probabilities who = Ok d0 /\
       trait_get (dist_trait d0) (negb b) = float_of_Z 0 /\
       forall final,
         main (arith := arith) people = Ok final ->
         float_is_finite (trait_get (dist_trait d0) b) = true ->
         exists d,
           dict_get final who = Ok d /\
           trait_get (dist_trait d) b = float_of_Z 1 /\
           trait_get (dist_trait d) (negb b) = float_of_Z 0).
Proof.
  intros Hnd _ Hin Hb; split.
  - apply (exact_observed_trait people who p b Hnd Hin Hb).
  - intros arith Harith.
    apply (binary64_observed_trait arith people who p b Harith Hnd Hin Hb).
Qed.

Lemma observed_trait_is_certain_witness :
  (exists final d,
     main (arith := exact) (order := insertion_order) family0 = Ok final /\
     dict_get final "James" = Ok d /\
     trait_get (dist_trait d) true = of_int 1 /\
     trait_get (dist_trait d) (negb true) = of_int 0) /\
  (exists final d,
     main (arith := binary64) (order := insertion_order) family0 = Ok final /\
     dict_get final "James" = Ok d /\
     trait_get (dist_trait d) true = float_of_Z 1 /\
     trait_get (dist_trait d) (negb true) = float_of_Z 0).
Proof.
  destruct (observed_trait_is_certain (order := insertion_order) family0 "James"
              (Person "James" None None (Some true)) true)
    as [Hexact Hfloat].
  - repeat constructor; simpl; intuition discriminate.
  - discriminate.
  - simpl; auto.
  - reflexivity.
  - split; [exact Hexact|].
    destruct (Hfloat binary64 (or_introl eq_refl))
      as (probs & d0 & Eacc & Ed0 & _ & Hmain).
    assert (Em : exists final,
               main (arith := binary64) (order := insertion_order) family0
               = Ok final)
      by (eexists; vm_compute; reflexivity).
    destruct Em as [final Em].
    destruct (Hmain final Em) as (d & Ed & E1 & E0).
    + vm_compute in Eacc; injection Eacc as <-.
      vm_compute in Ed0; injection Ed0 as <-.
      vm_compute; reflexivity.
    + exists final, d; auto.
Defined.
